(** * T20 score predictor: the match-state and scoring engine of server.js

    A shallow embedding of the functions of [server.js] that decide how a
    match's two innings move between states, who wins an innings and how the
    leaderboard is built:

    - [isInningsLocked], [normalizeInningsStatus], [getBattingTeams],
      [normalizeMatch], [computeInningsResult], [buildScoreboard];
    - the request handlers [POST /api/matches/:id/predict] ([predict]) and
      [POST /api/matches/:id/reopen] ([reopen]).

    Conventions of the embedding.

    - Scores, predictions, points and the bounds of the settings are JavaScript
      numbers holding integers; they are [Z] here (the arithmetic of the
      source on them, a subtraction, [Math.abs], [+= 1], is exact on integers
      below 2^53). The one place where a number that is not an integer can
      enter, [Number(body.score)] of the predict handler, is a [JsNum].
    - A JavaScript object used as a dictionary from player id to prediction is
      a [gmap string Z]; a lookup that yields [undefined] or [null] is [None].
    - A match record is taken with the loose shape the source allows for it:
      either innings object may be missing, the legacy flat fields may be
      present, and [predictions] may be missing or be a flat legacy object.
    - [Date.now()] is an explicit argument, the time in milliseconds.
    - The handlers return the HTTP response together with the room state that
      is persisted when they end: the state they read unless [saveData] ran. *)

From Stdlib Require Import ZArith QArith Qround Lia Lqa.
From stdpp Require Import gmap strings list sorting.

Close Scope Q_scope.
Open Scope Z_scope.

(** ** Data model *)

(** [status] of an innings. The source compares it with the four literals
    only; [other] stands for any other value, a missing one included. *)
Inductive Status := open | locked | scored | pending | other.

Global Instance Status_eq_dec : EqDecision Status.
Proof. solve_decision. Defined.

(** [lockTime]: what the source makes of the field. [LockAbsent] is a falsy
    value ([null], [undefined], the empty string); [LockInvalid] is a value
    for which [new Date(v).getTime()] is [NaN]; [LockAt ms] is an instant. *)
Inductive LockTime := LockAbsent | LockInvalid | LockAt (ms : Z).

Global Instance LockTime_eq_dec : EqDecision LockTime.
Proof. solve_decision. Defined.

Record Innings := mkInnings {
  status : Status;
  lockTime : LockTime;
  score : option Z
}.

Record Player := mkPlayer { id : string; name : string }.

Record Toss := mkToss {
  winner : option string;
  decision : option string
}.

Record InningsResult := mkResult {
  winners : list string;
  closestDiff : option Z
}.

(** [match.result] when it is an object: one entry per innings key, [None]
    for [null] or a missing key. *)
Record MatchResult := mkMatchResult {
  r_innings1 : option InningsResult;
  r_innings2 : option InningsResult
}.

(** [match.predictions] when it is an object that is not an array: its two
    innings properties ([None] for a falsy one) and its remaining properties,
    which in a legacy record are the predictions themselves. *)
Record PredObj := mkPredObj {
  p_innings1 : option (gmap string Z);
  p_innings2 : option (gmap string Z);
  p_flat : gmap string Z
}.

Record Match := mkMatch {
  m_id : string;
  teamA : string;
  teamB : string;
  toss : option Toss;
  innings1 : option Innings;
  innings2 : option Innings;
  (** [None]: missing, not an object, or an array. *)
  predictions : option PredObj;
  result : option MatchResult;
  (** legacy flat fields of a single-innings record; [m_status] is [None]
      when [match.status] is falsy. *)
  m_status : option Status;
  m_lockTime : LockTime;
  actualScore : option Z;
  innings2LockTime : LockTime;
  innings2Score : option Z
}.

(** The settings the engine reads, for a room whose four numbers are
    integers. *)
Record Settings := mkSettings {
  usePin : bool;
  adminPinHash : option string;
  bonusExact : Z;
  minScore : Z;
  maxScore : Z;
  lockMinutesBeforeStart : Z
}.

Record Data := mkData {
  settings : Settings;
  players : list Player;
  matches : list Match
}.

Inductive InningsKey := Innings1 | Innings2.

Global Instance InningsKey_eq_dec : EqDecision InningsKey.
Proof. solve_decision. Defined.

(** [match[inningsKey]] *)
Definition inningsOf (k : InningsKey) (m : Match) : option Innings :=
  match k with Innings1 => innings1 m | Innings2 => innings2 m end.

(** [match.predictions?.[inningsKey]] *)
Definition predictionsOf (k : InningsKey) (m : Match) : option (gmap string Z) :=
  po ← predictions m;
  match k with Innings1 => p_innings1 po | Innings2 => p_innings2 po end.

(** [match.result?.[inningsKey]] *)
Definition resultOf (k : InningsKey) (m : Match) : option InningsResult :=
  r ← result m;
  match k with Innings1 => r_innings1 r | Innings2 => r_innings2 r end.

(** Truthiness of a string-valued property: missing and empty are falsy. *)
Definition truthy (v : option string) : bool :=
  match v with
  | Some s => negb (bool_decide (s = ""))
  | None => false
  end.

(** Truthiness of a [lockTime]. *)
Definition lockTruthy (t : LockTime) : bool :=
  match t with LockAbsent => false | _ => true end.

(** ** Result calculator *)

(** The [entries] array of [computeInningsResult]: one entry per listed
    player whose prediction is not [null], in the order of [players]. *)
Definition entries (actual : Z) (preds : gmap string Z) (ps : list Player)
  : list (string * Z) :=
  omap (λ player,
          match preds !! id player with
          | None => None
          | Some prediction => Some (id player, Z.abs (prediction - actual))
          end) ps.

(** [Math.min(d, ...ds)] *)
Definition mathMin (d : Z) (ds : list Z) : Z := foldr Z.min d ds.

Definition computeInningsResult (actual : option Z) (preds : gmap string Z)
    (ps : list Player) : option InningsResult :=
  match actual with
  | None => None
  | Some a =>
      match entries a preds ps with
      | [] => Some {| winners := []; closestDiff := None |}
      | e :: es =>
          let minDiff := mathMin e.2 (snd <$> es) in
          Some {| winners :=
                    fst <$> filter (λ x, x.2 = minDiff) (e :: es);
                  closestDiff := Some minDiff |}
      end
  end.

(** ** Innings state machine *)

(** [now >= lock] for [lock = new Date(lockTime).getTime()], false when that
    is [NaN]. *)
Definition lockPassed (now : Z) (t : LockTime) : bool :=
  match t with
  | LockAt lock => bool_decide (lock ≤ now)
  | _ => false
  end.

Definition isInningsLocked (now : Z) (innings : option Innings) : bool :=
  match innings with
  | None => true
  | Some i =>
      if bool_decide (status i = locked) || bool_decide (status i = scored)
      then true
      else if bool_decide (status i = open) && lockTruthy (lockTime i)
      then lockPassed now (lockTime i)
      else false
  end.

Definition setStatus (s : Status) (i : Innings) : Innings :=
  {| status := s; lockTime := lockTime i; score := score i |}.

Definition setLockTime (t : LockTime) (i : Innings) : Innings :=
  {| status := status i; lockTime := t; score := score i |}.

Definition setScore (s : option Z) (i : Innings) : Innings :=
  {| status := status i; lockTime := lockTime i; score := s |}.

(** The innings object is updated in place; the embedding returns it. *)
Definition normalizeInningsStatus (now : Z) (innings : option Innings)
  : option Innings :=
  match innings with
  | None => None
  | Some i =>
      if bool_decide (status i = open) && isInningsLocked now (Some i)
      then Some (setStatus locked i)
      else Some i
  end.

(** ** Toss resolver *)

Record BattingTeams := mkBatting {
  bat_innings1 : string;
  bat_innings2 : string
}.

Definition getBattingTeams (m : Match) : option BattingTeams :=
  match toss m with
  | None => None
  | Some t =>
      match winner t, decision t with
      | Some w, Some d =>
          if negb (truthy (Some w)) || negb (truthy (Some d)) then None
          else
            let other_team :=
              if bool_decide (w = teamA m) then teamB m else teamA m in
            if bool_decide (d = "bat") then
              Some {| bat_innings1 := w; bat_innings2 := other_team |}
            else if bool_decide (d = "field") then
              Some {| bat_innings1 := other_team; bat_innings2 := w |}
            else None
      | _, _ => None
      end
  end.

(** ** Match normalizer *)

(** [match.innings1], or the object the normalizer builds from the legacy
    fields when it is missing. *)
Definition legacyInnings1 (m : Match) : Innings :=
  match innings1 m with
  | Some i => i
  | None => {| status := default open (m_status m);
               lockTime := m_lockTime m;
               score := actualScore m |}
  end.

Definition legacyInnings2 (m : Match) : Innings :=
  match innings2 m with
  | Some i => i
  | None => {| status := pending;
               lockTime := innings2LockTime m;
               score := innings2Score m |}
  end.

(** The three statements of [normalizeMatch] on [match.predictions]. *)
Definition normalizePredictions (p : option PredObj) : PredObj :=
  let po := default {| p_innings1 := None; p_innings2 := None; p_flat := ∅ |} p in
  let po :=
    match p_innings1 po, p_innings2 po with
    | None, None =>
        {| p_innings1 := Some (p_flat po); p_innings2 := Some ∅; p_flat := ∅ |}
    | _, _ => po
    end in
  {| p_innings1 := Some (default ∅ (p_innings1 po));
     p_innings2 := Some (default ∅ (p_innings2 po));
     p_flat := p_flat po |}.

(** Promotion of the second innings once the first is scored. *)
Definition promoteInnings2 (st : Settings) (i1 i2 : Innings) : Innings :=
  if bool_decide (status i1 = scored) && bool_decide (status i2 = pending)
  then
    let i2 := setStatus open i2 in
    if negb (lockTruthy (lockTime i2)) && lockTruthy (lockTime i1)
       && negb (lockMinutesBeforeStart st =? 0)
    then setLockTime LockAbsent i2
    else i2
  else i2.

Definition withInnings (i1 i2 : option Innings) (m : Match) : Match :=
  {| m_id := m_id m; teamA := teamA m; teamB := teamB m; toss := toss m;
     innings1 := i1; innings2 := i2;
     predictions := predictions m; result := result m;
     m_status := m_status m; m_lockTime := m_lockTime m;
     actualScore := actualScore m;
     innings2LockTime := innings2LockTime m;
     innings2Score := innings2Score m |}.

Definition withPredictions (p : option PredObj) (m : Match) : Match :=
  {| m_id := m_id m; teamA := teamA m; teamB := teamB m; toss := toss m;
     innings1 := innings1 m; innings2 := innings2 m;
     predictions := p; result := result m;
     m_status := m_status m; m_lockTime := m_lockTime m;
     actualScore := actualScore m;
     innings2LockTime := innings2LockTime m;
     innings2Score := innings2Score m |}.

Definition withResult (r : option MatchResult) (m : Match) : Match :=
  {| m_id := m_id m; teamA := teamA m; teamB := teamB m; toss := toss m;
     innings1 := innings1 m; innings2 := innings2 m;
     predictions := predictions m; result := r;
     m_status := m_status m; m_lockTime := m_lockTime m;
     actualScore := actualScore m;
     innings2LockTime := innings2LockTime m;
     innings2Score := innings2Score m |}.

(** [normalizeMatch(match, settings)] at time [now]. The match is updated in
    place; the embedding returns it. A falsy [toss] becomes [null], which is
    [None] before and after. *)
Definition normalizeMatch (now : Z) (st : Settings) (m : Match) : Match :=
  let i1 := legacyInnings1 m in
  let i2 := legacyInnings2 m in
  let p := normalizePredictions (predictions m) in
  let i2 := promoteInnings2 st i1 i2 in
  withInnings (normalizeInningsStatus now (Some i1))
              (normalizeInningsStatus now (Some i2))
              (withPredictions (Some p) m).

(** ** Scoreboard aggregator *)

(** A row of the [stats] map. *)
Record Stat := mkStat {
  playerId : string;
  s_name : string;
  wins : Z;
  exactHits : Z;
  points : Z;
  totalDiff : Z;
  s_predictions : Z;
  scoredMatches : Z
}.

(** A row of the scoreboard: the statistics and [avgDiff], which is held in
    hundredths ([Some 167] is 1.67) and is [None] for [null]. *)
Record Row := mkRow {
  stat :> Stat;
  avgDiff : option Z
}.

(** The [stats] map, a JavaScript [Map]: its entries in insertion order. *)
Fixpoint mapSet (k : string) (v : Stat) (m : list (string * Stat))
  : list (string * Stat) :=
  match m with
  | [] => [(k, v)]
  | (k', v') :: m' =>
      if bool_decide (k' = k) then (k, v) :: m' else (k', v') :: mapSet k v m'
  end.

Fixpoint mapGet (k : string) (m : list (string * Stat)) : option Stat :=
  match m with
  | [] => None
  | (k', v') :: m' => if bool_decide (k' = k) then Some v' else mapGet k m'
  end.

(** [const row = stats.get(k); row.f += ...]: the row object of key [k] is
    updated in place. *)
Fixpoint mapUpdate (k : string) (f : Stat → Stat) (m : list (string * Stat))
  : list (string * Stat) :=
  match m with
  | [] => []
  | (k', v') :: m' =>
      if bool_decide (k' = k) then (k', f v') :: m'
      else (k', v') :: mapUpdate k f m'
  end.

Definition initStat (player : Player) : Stat :=
  {| playerId := id player; s_name := name player; wins := 0; exactHits := 0;
     points := 0; totalDiff := 0; s_predictions := 0; scoredMatches := 0 |}.

(** The body of the first loop over the players, for a player that
    predicted. *)
Definition addDiff (diff : Z) (row : Stat) : Stat :=
  {| playerId := playerId row; s_name := s_name row; wins := wins row;
     exactHits := exactHits row + (if bool_decide (diff = 0) then 1 else 0);
     points := points row;
     totalDiff := totalDiff row + diff;
     s_predictions := s_predictions row + 1;
     scoredMatches := scoredMatches row + 1 |}.

(** The body of the loop over [diffs], for an entry of the winner set. *)
Definition addWin (bonus diff : Z) (row : Stat) : Stat :=
  {| playerId := playerId row; s_name := s_name row;
     wins := wins row + 1;
     exactHits := exactHits row;
     points := points row + 1
               + (if bool_decide (diff = 0) && bool_decide (0 < bonus)
                  then bonus else 0);
     totalDiff := totalDiff row;
     s_predictions := s_predictions row;
     scoredMatches := scoredMatches row |}.

(** The first inner loop: it updates the rows and collects [diffs]. *)
Definition diffLoop (sc : Z) (preds : gmap string Z) (ps : list Player)
    (stats : list (string * Stat))
  : list (string * Stat) * list (string * Z) :=
  foldl (λ acc player,
           match preds !! id player with
           | None => acc
           | Some prediction =>
               let diff := Z.abs (prediction - sc) in
               (mapUpdate (id player) (addDiff diff) acc.1,
                acc.2 ++ [(id player, diff)])
           end) (stats, []) ps.

(** The second inner loop, over [diffs]. *)
Definition winLoop (bonus : Z) (winnerSet : gset string)
    (diffs : list (string * Z)) (stats : list (string * Stat))
  : list (string * Stat) :=
  foldl (λ st entry,
           if bool_decide (entry.1 ∈ winnerSet)
           then mapUpdate entry.1 (addWin bonus entry.2) st
           else st) stats diffs.

(** The result the scoreboard uses for an innings with score [sc]: the
    stored one, or else the computed one. *)
Definition resultFor (data : Data) (m : Match) (k : InningsKey) (sc : Z)
  : option InningsResult :=
  match resultOf k m with
  | Some r => Some r
  | None =>
      computeInningsResult (Some sc) (default ∅ (predictionsOf k m))
        (players data)
  end.

Definition winnerSetFor (data : Data) (m : Match) (k : InningsKey) (sc : Z)
  : gset string :=
  list_to_set (match resultFor data m k sc with
               | Some r => winners r
               | None => []
               end).

(** The score of an innings the scoreboard counts: [status] is [scored] and
    [score] is not [null]. *)
Definition scoredScore (k : InningsKey) (m : Match) : option Z :=
  match inningsOf k m with
  | None => None
  | Some innings =>
      if bool_decide (status innings = scored) then score innings else None
  end.

(** The body of the loop over the two innings keys of a match. *)
Definition scoreInnings (data : Data) (m : Match) (k : InningsKey)
    (stats : list (string * Stat)) : list (string * Stat) :=
  match scoredScore k m with
  | None => stats
  | Some sc =>
      let preds := default ∅ (predictionsOf k m) in
      let winnerSet := winnerSetFor data m k sc in
      let '(stats, diffs) := diffLoop sc preds (players data) stats in
      winLoop (bonusExact (settings data)) winnerSet diffs stats
  end.

(** [a / b] rounded to the nearest integer, a tie going to the even one. *)
Definition roundHalfEven (a b : Z) : Z :=
  let f := a `div` b in
  let r := a `mod` b in
  if 2 * r <? b then f
  else if b <? 2 * r then f + 1
  else if Z.even f then f else f + 1.

(** [p / q] on numbers: the double nearest to the quotient of two positive
    integers (round to nearest, ties to even), given as its numerator [x]
    over the denominator [2 ^ s]. The quotient, scaled by [2 ^ s], lies
    between [2 ^ L] and [2 ^ (L + 1)] and is rounded to a multiple of
    [2 ^ (L - 52)], which leaves the 53 bits of a significand. The scale is
    large enough for [53 <= L]. *)
Definition divDouble (p q : Z) : Z * Z :=
  let s := Z.log2 q + 54 in
  let L := Z.log2 ((p * 2 ^ s) `div` q) in
  let u := 2 ^ (L - 52) in
  (roundHalfEven (p * 2 ^ s) (q * u) * u, s).

(** [Number((totalDiff / predictions).toFixed(2))] in hundredths, for
    integers below [2 ^ 53] as the counters are: the quotient is taken as a
    double, and [toFixed(2)] gives the hundredth nearest to the exact value
    of that double, the larger one at a tie. So 3 over 40, whose double is
    just below 0.075, gives 0.07, and 1 over 8 gives 0.13. *)
Definition toFixed2 (total count : Z) : Z :=
  if total =? 0 then 0
  else
    let '(x, s) := divDouble total count in
    (200 * x + 2 ^ s) `div` 2 ^ (s + 1).

Definition avgDiffOf (row : Stat) : option Z :=
  if bool_decide (s_predictions row = 0) then None
  else Some (toFixed2 (totalDiff row) (s_predictions row)).

(** [null] is 0 in a subtraction. *)
Definition toNumber (v : option Z) : Z := default 0 v.

(** [Array.prototype.sort] with a comparator: a stable sort, an element
    staying before the later ones it does not compare greater than. *)
Fixpoint insertBy {A} (cmp : A → A → Z) (x : A) (l : list A) : list A :=
  match l with
  | [] => [x]
  | y :: l' => if bool_decide (cmp x y ≤ 0) then x :: y :: l'
               else y :: insertBy cmp x l'
  end.

Definition arraySort {A} (cmp : A → A → Z) (l : list A) : list A :=
  foldr (insertBy cmp) [] l.

Section Scoreboard.
Variable localeCompare : string → string → Z.

(** The comparator of the final sort: [x || y] is [x] unless [x] is 0. The
    middle difference is taken on hundredths, which keeps its sign. *)
Definition compareRows (a b : Row) : Z :=
  let byPoints := points b - points a in
  if negb (byPoints =? 0) then byPoints
  else
    let byAvg := toNumber (avgDiff a) - toNumber (avgDiff b) in
    if negb (byAvg =? 0) then byAvg
    else localeCompare (s_name a) (s_name b).

Definition initialStats (ps : list Player) : list (string * Stat) :=
  foldl (λ stats player, mapSet (id player) (initStat player) stats) [] ps.

Definition accumulate (data : Data) : list (string * Stat) :=
  foldl (λ stats m,
           foldl (λ stats k, scoreInnings data m k stats) stats
                 [Innings1; Innings2])
        (initialStats (players data)) (matches data).

Definition buildScoreboard (data : Data) : list Row :=
  let rows :=
    (λ kv, {| stat := kv.2; avgDiff := avgDiffOf kv.2 |}) <$> accumulate data in
  arraySort compareRows rows.

End Scoreboard.

(** ** Request handlers *)

(** The value of [Number(v)] for a value [v] of a request body. *)
Inductive JsNum := NaN | PosInfinity | NegInfinity | Fin (q : Q).

(** [Number.isFinite] *)
Definition isFinite (n : JsNum) : bool :=
  match n with Fin _ => true | _ => false end.

(** Whether the number is an integer ([Number.isInteger]). *)
Definition isInteger (n : JsNum) : bool :=
  match n with
  | Fin q => Qeq_bool q (inject_Z (Qfloor q))
  | _ => false
  end.

(** [q < z] and [q > z] for a finite number and an integer bound. *)
Definition ltZ (q : Q) (z : Z) : bool := negb (Qle_bool (inject_Z z) q).
Definition gtZ (q : Q) (z : Z) : bool := negb (Qle_bool q (inject_Z z)).

(** [Math.round]: the nearest integer, a tie going up. *)
Definition mathRound (q : Q) : Z := Qfloor (Qplus q (1 # 2)).

(** What a handler answers. Each constructor is one [res.status(..).json(..)]
    of the source; [TypeError] is the exception a property access on
    [undefined] would raise. *)
Inductive Response :=
  | Ok                 (* { ok: true } *)
  | MatchNotFound      (* 404 "Match not found." *)
  | InvalidAdminPin    (* 403 "Invalid admin PIN." *)
  | TossNotSet         (* 400 "Set the toss before predictions." *)
  | InningsNotOpen     (* 403 "Predictions are not open for this innings." *)
  | PredictionsLocked  (* 403 "Predictions are locked." *)
  | InvalidPlayer      (* 400 "Invalid player." *)
  | ScoreOutOfRange (lo hi : Z)
                       (* 400 "Score must be between lo and hi." *)
  | TypeError.

Global Instance Response_eq_dec : EqDecision Response.
Proof. solve_decision. Defined.

(** The body of a predict request: [innings] as the number it holds ([None]
    when missing), [playerId] after [String(body.playerId || "")], [score]
    after [Number(body.score)]. *)
Record PredictBody := mkPredictBody {
  b_innings : option Z;
  b_playerId : string;
  b_score : JsNum
}.

(** The body of a reopen request. *)
Record ReopenBody := mkReopenBody {
  adminPin : option string;
  rb_innings : option Z
}.

Definition withMatches (ms : list Match) (data : Data) : Data :=
  {| settings := settings data; players := players data; matches := ms |}.

Definition withInningsOf (k : InningsKey) (i : Innings) (m : Match) : Match :=
  match k with
  | Innings1 => withInnings (Some i) (innings2 m) m
  | Innings2 => withInnings (innings1 m) (Some i) m
  end.

(** [match.predictions[inningsKey][playerId] = v], [None] when one of the
    two objects on the way is missing. *)
Definition storePrediction (k : InningsKey) (pid : string) (v : Z) (m : Match)
  : option Match :=
  po ← predictions m;
  match k with
  | Innings1 =>
      preds ← p_innings1 po;
      Some (withPredictions
              (Some {| p_innings1 := Some (<[pid := v]> preds);
                       p_innings2 := p_innings2 po;
                       p_flat := p_flat po |}) m)
  | Innings2 =>
      preds ← p_innings2 po;
      Some (withPredictions
              (Some {| p_innings1 := p_innings1 po;
                       p_innings2 := Some (<[pid := v]> preds);
                       p_flat := p_flat po |}) m)
  end.

(** [data.matches.find((m) => m.id === id)] with the position of the match. *)
Definition findMatch (matchId : string) (data : Data) : option (nat * Match) :=
  list_find (λ m, m_id m = matchId) (matches data).

(** [innings === 2 ? "innings2" : "innings1"] for
    [innings = Number(body.innings || 1)]. *)
Definition inningsKeyOf (n : option Z) : InningsKey :=
  match n with
  | Some 2 => Innings2
  | _ => Innings1
  end.

(** [POST /api/matches/:id/predict]. [now] is the time at which the match is
    normalized, [now'] the time of the handler's own lock check. *)
Definition predict (now now' : Z) (data : Data) (matchId : string)
    (body : PredictBody) : Response * Data :=
  match findMatch matchId data with
  | None => (MatchNotFound, data)
  | Some (ix, m0) =>
      let m := normalizeMatch now (settings data) m0 in
      let inningsKey := inningsKeyOf (b_innings body) in
      match getBattingTeams m with
      | None => (TossNotSet, data)
      | Some _ =>
          match inningsOf inningsKey m with
          | None => (InningsNotOpen, data)
          | Some inningsData =>
              if negb (bool_decide (status inningsData = open)) then
                (InningsNotOpen, data)
              else if isInningsLocked now' (Some inningsData) then
                (PredictionsLocked, withMatches (<[ix := m]> (matches data)) data)
              else if negb (bool_decide
                              (Exists (λ p, id p = b_playerId body) (players data)))
              then (InvalidPlayer, data)
              else
                let lo := minScore (settings data) in
                let hi := maxScore (settings data) in
                match b_score body with
                | Fin q =>
                    if ltZ q lo || gtZ q hi then (ScoreOutOfRange lo hi, data)
                    else
                      match storePrediction inningsKey (b_playerId body)
                              (mathRound q) m with
                      | None => (TypeError, data)
                      | Some m' =>
                          (Ok, withMatches (<[ix := m']> (matches data)) data)
                      end
                | _ => (ScoreOutOfRange lo hi, data)
                end
          end
      end
  end.

Section Admin.
Variable hashPin : string → string.

Definition ensureAdmin (data : Data) (pin : option string) : bool :=
  if negb (usePin (settings data)) then true
  else if negb (truthy pin) then false
  else bool_decide (Some (hashPin (default "" pin)) = adminPinHash (settings data)).

(** [if (match.result) match.result[inningsKey] = null] *)
Definition clearResult (k : InningsKey) (m : Match) : Match :=
  match result m with
  | None => m
  | Some r =>
      withResult
        (Some match k with
              | Innings1 => {| r_innings1 := None; r_innings2 := r_innings2 r |}
              | Innings2 => {| r_innings1 := r_innings1 r; r_innings2 := None |}
              end) m
  end.

(** [POST /api/matches/:id/reopen] *)
Definition reopen (now : Z) (data : Data) (matchId : string)
    (body : ReopenBody) : Response * Data :=
  match findMatch matchId data with
  | None => (MatchNotFound, data)
  | Some (ix, m0) =>
      if negb (ensureAdmin data (adminPin body)) then (InvalidAdminPin, data)
      else
        let m := normalizeMatch now (settings data) m0 in
        let save m' := (Ok, withMatches (<[ix := m']> (matches data)) data) in
        let innings :=
          match rb_innings body with
          | Some n => if n =? 0 then None else Some n
          | None => None
          end in
        if bool_decide (innings = Some 1 ∨ innings = Some 2) then
          let inningsKey := inningsKeyOf innings in
          match inningsOf inningsKey m with
          | None => (TypeError, data)
          | Some i =>
              save (clearResult inningsKey
                      (withInningsOf inningsKey
                         (setScore None (setStatus open i)) m))
          end
        else
          match innings1 m, innings2 m with
          | Some i1, Some i2 =>
              save (withResult None
                      (withInnings
                         (Some (setScore None (setStatus open i1)))
                         (Some (setLockTime LockAbsent
                                  (setScore None (setStatus pending i2))))
                         m))
          | _, _ => (TypeError, data)
          end
  end.

End Admin.

(** ** Definitions used to state the properties *)

(** The status after the automatic lock: an [open] innings whose lock time
    has passed becomes [locked]; nothing else changes. *)
Definition autoLock (now : Z) (i : Innings) : Innings :=
  if bool_decide (status i = open) && lockPassed now (lockTime i)
  then setStatus locked i
  else i.

(** A match that has been normalized before, at some time and under some
    settings. *)
Definition canonical (m : Match) : Prop :=
  ∃ t0 st0 m0, m = normalizeMatch t0 st0 m0.

(** The mapping the engine works with for an innings of a stored match: the
    one [normalizeMatch] leaves under [predictions[inningsKey]]. *)
Definition predictionMap (k : InningsKey) (m : Match) : gmap string Z :=
  let po := normalizePredictions (predictions m) in
  default ∅ (match k with Innings1 => p_innings1 po | Innings2 => p_innings2 po end).

(** The innings a request addresses in a stored match: the stored object, or
    the one the normalizer builds from the legacy fields. *)
Definition targetInnings (k : InningsKey) (m : Match) : Innings :=
  match k with Innings1 => legacyInnings1 m | Innings2 => legacyInnings2 m end.

(** All the (match, innings key) pairs, in the order the scoreboard visits
    them. *)
Definition allInnings (data : Data) : list (Match * InningsKey) :=
  m ← matches data; [(m, Innings1); (m, Innings2)].

(** What one innings adds to the row of the player with id [pid]: nothing
    unless the innings is scored with a score and the player has a
    prediction for it; otherwise the distance goes to [totalDiff], the two
    counters grow by one, [exactHits] grows on distance 0, and when the
    player is in the winner set of the innings, [wins] grows by one and
    [points] by one, plus the bonus on distance 0 when the bonus is
    positive. *)
Definition contribution (data : Data) (m : Match) (k : InningsKey)
    (pid : string) (row : Stat) : Stat :=
  match scoredScore k m with
  | None => row
  | Some sc =>
      match default ∅ (predictionsOf k m) !! pid with
      | None => row
      | Some prediction =>
          let diff := Z.abs (prediction - sc) in
          let won := bool_decide (pid ∈ winnerSetFor data m k sc) in
          let bonus := bonusExact (settings data) in
          {| playerId := playerId row; s_name := s_name row;
             wins := wins row + (if won then 1 else 0);
             exactHits := exactHits row + (if bool_decide (diff = 0) then 1 else 0);
             points := points row
                       + (if won then
                            1 + (if bool_decide (diff = 0 ∧ 0 < bonus)
                                 then bonus else 0)
                          else 0);
             totalDiff := totalDiff row + diff;
             s_predictions := s_predictions row + 1;
             scoredMatches := scoredMatches row + 1 |}
      end
  end.

(** What one innings adds to a row, in the words of the specification: for
    an innings that is scored with a score, the part of a player with a
    recorded prediction (the distance to [totalDiff], one to the counters,
    one to [exactHits] on distance 0) and, apart from it, the part of a
    player of the winner set (one to [wins], one to [points], and the bonus
    when the distance of that player is 0 and the bonus is positive). *)
Definition claimedContribution (data : Data) (m : Match) (k : InningsKey)
    (pid : string) (row : Stat) : Stat :=
  match scoredScore k m with
  | None => row
  | Some sc =>
      let diff :=
        (λ prediction, Z.abs (prediction - sc))
          <$> default ∅ (predictionsOf k m) !! pid in
      let predicted := match diff with Some _ => 1 | None => 0 end in
      let won := bool_decide (pid ∈ winnerSetFor data m k sc) in
      let bonus := bonusExact (settings data) in
      {| playerId := playerId row; s_name := s_name row;
         wins := wins row + (if won then 1 else 0);
         exactHits := exactHits row
                      + (if bool_decide (diff = Some 0) then 1 else 0);
         points := points row
                   + (if won then
                        1 + (if bool_decide (diff = Some 0 ∧ 0 < bonus)
                             then bonus else 0)
                      else 0);
         totalDiff := totalDiff row + default 0 diff;
         s_predictions := s_predictions row + predicted;
         scoredMatches := scoredMatches row + predicted |}
  end.

(** The stored results of a room name winners that predicted: every id in
    the stored winners of a scored innings has a prediction for that
    innings. The score route stores the winners [computeInningsResult]
    finds among the predictions, a scored innings takes no prediction, and
    a reopened innings loses its stored result, so the rooms the engine
    saves are of this kind. *)
Definition storedWinnersPredicted (data : Data) : Prop :=
  ∀ m k sc r pid,
    m ∈ matches data → scoredScore k m = Some sc →
    resultOf k m = Some r → pid ∈ winners r →
    is_Some (default ∅ (predictionsOf k m) !! pid).

(** The players of a room that carry the id [pid], in the order of the
    room. *)
Definition playersWithId (pid : string) (ps : list Player) : list Player :=
  filter (λ q, id q = pid) ps.

(** [a] may stand before [b] under the comparator [cmp]. *)
Definition mayPrecede {A} (cmp : A → A → Z) (a b : A) : Prop := cmp a b ≤ 0.

(** ** Sample room *)

Definition threePlayers : list Player :=
  [mkPlayer "A" "Asha"; mkPlayer "B" "Bilal"; mkPlayer "C" "Chen"].

Definition sampleSettings : Settings :=
  {| usePin := false; adminPinHash := None; bonusExact := 2;
     minScore := 60; maxScore := 300; lockMinutesBeforeStart := 15 |}.

Definition samplePlayers : list Player :=
  [mkPlayer "p1" "Asha"; mkPlayer "p2" "Bilal"; mkPlayer "p3" "Chen"].

Definition emptyPredictions : option PredObj :=
  Some {| p_innings1 := Some ∅; p_innings2 := Some ∅; p_flat := ∅ |}.

(** A match with the toss set, the first innings open until time 1000. *)
Definition openMatch : Match :=
  {| m_id := "m1"; teamA := "India"; teamB := "Kenya";
     toss := Some (mkToss (Some "India") (Some "bat"));
     innings1 := Some (mkInnings open (LockAt 1000) None);
     innings2 := Some (mkInnings pending LockAbsent None);
     predictions := emptyPredictions; result := None;
     m_status := None; m_lockTime := LockAbsent; actualScore := None;
     innings2LockTime := LockAbsent; innings2Score := None |}.

(** A match whose first innings is locked and whose toss is not set yet. *)
Definition lockedNoTossMatch : Match :=
  {| m_id := "m1"; teamA := "India"; teamB := "Kenya";
     toss := None;
     innings1 := Some (mkInnings locked (LockAt 1000) None);
     innings2 := Some (mkInnings pending LockAbsent None);
     predictions := emptyPredictions; result := None;
     m_status := None; m_lockTime := LockAbsent; actualScore := None;
     innings2LockTime := LockAbsent; innings2Score := None |}.

(** A match with both innings scored and their results stored. *)
Definition scoredMatch : Match :=
  {| m_id := "m1"; teamA := "India"; teamB := "Kenya";
     toss := Some (mkToss (Some "India") (Some "bat"));
     innings1 := Some (mkInnings scored (LockAt 1000) (Some 180));
     innings2 := Some (mkInnings scored (LockAt 9000) (Some 175));
     predictions :=
       Some {| p_innings1 := Some (<["p1" := 180]> (<["p2" := 150]> ∅));
               p_innings2 := Some (<["p1" := 160]> (<["p2" := 170]> ∅));
               p_flat := ∅ |};
     result :=
       Some {| r_innings1 := Some (mkResult ["p1"] (Some 0));
               r_innings2 := Some (mkResult ["p2"] (Some 5)) |};
     m_status := None; m_lockTime := LockAbsent; actualScore := None;
     innings2LockTime := LockAbsent; innings2Score := None |}.

(** A match with the first innings scored, its result not stored, and the
    second innings not started; [p3] has not predicted. *)
Definition firstInningsScored : Match :=
  {| m_id := "m2"; teamA := "India"; teamB := "Kenya";
     toss := Some (mkToss (Some "India") (Some "bat"));
     innings1 := Some (mkInnings scored (LockAt 1000) (Some 180));
     innings2 := Some (mkInnings open LockAbsent None);
     predictions :=
       Some {| p_innings1 := Some (<["p1" := 180]> (<["p2" := 150]> ∅));
               p_innings2 := Some ∅;
               p_flat := ∅ |};
     result := None;
     m_status := None; m_lockTime := LockAbsent; actualScore := None;
     innings2LockTime := LockAbsent; innings2Score := None |}.

(** A match whose first innings has been scored 180, with its result
    stored, and whose second innings is open until time 9000 and has taken
    one prediction. *)
Definition secondInningsOpen : Match :=
  {| m_id := "m1"; teamA := "India"; teamB := "Kenya";
     toss := Some (mkToss (Some "India") (Some "bat"));
     innings1 := Some (mkInnings scored (LockAt 1000) (Some 180));
     innings2 := Some (mkInnings open (LockAt 9000) None);
     predictions :=
       Some {| p_innings1 := Some (<["p1" := 180]> (<["p2" := 150]> ∅));
               p_innings2 := Some (<["p2" := 170]> ∅);
               p_flat := ∅ |};
     result :=
       Some {| r_innings1 := Some (mkResult ["p1"] (Some 0));
               r_innings2 := None |};
     m_status := None; m_lockTime := LockAbsent; actualScore := None;
     innings2LockTime := LockAbsent; innings2Score := None |}.

(** A legacy single-innings record: no innings objects, a flat predictions
    object, the flat status and score of a finished innings, and a lock time
    for the second innings. *)
Definition legacyMatch : Match :=
  {| m_id := "m0"; teamA := "India"; teamB := "Kenya"; toss := None;
     innings1 := None; innings2 := None;
     predictions :=
       Some {| p_innings1 := None; p_innings2 := None;
               p_flat := <["p1" := 150]> ∅ |};
     result := None;
     m_status := Some scored; m_lockTime := LockAt 1000;
     actualScore := Some 160;
     innings2LockTime := LockAt 2000; innings2Score := None |}.

(** A comparator of names for the examples: the order of the code units. *)
Definition codeUnitCompare (a b : string) : Z :=
  match String.compare a b with
  | Lt => -1
  | Eq => 0
  | Gt => 1
  end.

Definition roomOf (m : Match) : Data :=
  {| settings := sampleSettings; players := samplePlayers; matches := [m] |}.

(** A request on [openMatch] at time 500, from player [p1], for the score
    [q]. *)
Definition sampleBody (q : Q) : PredictBody :=
  {| b_innings := Some 1; b_playerId := "p1"; b_score := Fin q |}.

(** A reopen request for innings 1, without a PIN. *)
Definition reopenInnings1 : ReopenBody :=
  {| adminPin := None; rb_innings := Some 1 |}.

(** ** Dates *)

(** A time value a [Date] can hold: at most 8.64e15 ms from the epoch. *)
Definition validTime (ms : Z) : bool :=
  bool_decide (Z.abs ms ≤ 8640000000000000).

(** [new Date(v).toISOString()] for a truthy [v]: the instant the string
    stands for, [None] when the call throws a [RangeError] (the date is
    invalid). *)
Definition toISOString (v : LockTime) : option Z :=
  match v with
  | LockAt ms => if validTime ms then Some ms else None
  | _ => None
  end.

(** [computeLockTime(matchDateIso, lockMinutes)]: [Some LockAbsent] for
    [null], [None] when [lock.toISOString()] throws a [RangeError]. *)
Definition computeLockTime (matchDateIso : LockTime) (lockMinutes : Z)
  : option LockTime :=
  match matchDateIso with
  | LockAbsent => Some LockAbsent
  | LockInvalid => Some LockAbsent
  | LockAt ms =>
      if negb (validTime ms) then Some LockAbsent
      else
        let lock := ms - lockMinutes * 60 * 1000 in
        if validTime lock then Some (LockAt lock) else None
  end.

(** ** The other request handlers *)

Inductive JsException := TypeErr | RangeErr.

(** What the handlers below answer: [{ ok: true }], an error answer with
    its status code and message, the 400 answer of the score route
    ("Actual score must be between lo and hi."), or an exception that
    leaves the handler. *)
Inductive Reply :=
  | ReplyOk
  | ReplyError (code : Z) (message : string)
  | ReplyScoreRange (lo hi : Z)
  | ReplyThrown (e : JsException).

Global Instance JsException_eq_dec : EqDecision JsException.
Proof. solve_decision. Defined.

Global Instance Reply_eq_dec : EqDecision Reply.
Proof. solve_decision. Defined.

(** The body of a toss request: [winner] and [decision] after
    [String(x || "")]. *)
Record TossBody := mkTossBody {
  t_adminPin : option string;
  t_winner : string;
  t_decision : string
}.

(** The body of a score request: [actualScore] after [Number(..)],
    [innings2StartTime] as a date value. *)
Record ScoreBody := mkScoreBody {
  s_adminPin : option string;
  s_innings : option Z;
  s_actualScore : JsNum;
  s_innings2StartTime : LockTime
}.

(** The body of a request that creates a match: the team names after
    [String(x || "").trim()], the two dates as date values. *)
Record CreateBody := mkCreateBody {
  c_adminPin : option string;
  c_teamA : string;
  c_teamB : string;
  c_matchDate : LockTime;
  c_lockTime : LockTime
}.

Definition withToss (t : option Toss) (m : Match) : Match :=
  {| m_id := m_id m; teamA := teamA m; teamB := teamB m; toss := t;
     innings1 := innings1 m; innings2 := innings2 m;
     predictions := predictions m; result := result m;
     m_status := m_status m; m_lockTime := m_lockTime m;
     actualScore := actualScore m;
     innings2LockTime := innings2LockTime m;
     innings2Score := innings2Score m |}.

(** [match.result = match.result || {}; match.result[inningsKey] = r] *)
Definition storeResult (k : InningsKey) (r : option InningsResult) (m : Match)
  : Match :=
  let r0 := default {| r_innings1 := None; r_innings2 := None |} (result m) in
  withResult
    (Some match k with
          | Innings1 => {| r_innings1 := r; r_innings2 := r_innings2 r0 |}
          | Innings2 => {| r_innings1 := r_innings1 r0; r_innings2 := r |}
          end) m.

(** [computeInningsResult(score, match.predictions[inningsKey], players)]
    with the property accesses it makes: [None] when one of them is on
    [undefined] (a [TypeError]). *)
Definition resultOfScore (k : InningsKey) (sc : Z) (ps : list Player)
    (m : Match) : option (option InningsResult) :=
  match predictions m with
  | None => None
  | Some po =>
      match (match k with Innings1 => p_innings1 po | Innings2 => p_innings2 po end),
            ps with
      | Some preds, _ => Some (computeInningsResult (Some sc) preds ps)
      | None, [] => Some (computeInningsResult (Some sc) ∅ [])
      | None, _ :: _ => None
      end
  end.

Section AdminRoutes.
Variable hashPin : string → string.

(** [POST /api/matches/:id/lock] *)
Definition lockRoute (now : Z) (data : Data) (matchId : string)
    (body : ReopenBody) : Reply * Data :=
  match findMatch matchId data with
  | None => (ReplyError 404 "Match not found.", data)
  | Some (ix, m0) =>
      if negb (ensureAdmin hashPin data (adminPin body))
      then (ReplyError 403 "Invalid admin PIN.", data)
      else
        let m := normalizeMatch now (settings data) m0 in
        let inningsKey := inningsKeyOf (rb_innings body) in
        match inningsOf inningsKey m with
        | None => (ReplyThrown TypeErr, data)
        | Some i =>
            (ReplyOk,
             withMatches
               (<[ix := withInningsOf inningsKey (setStatus locked i) m]>
                  (matches data)) data)
        end
  end.

(** [POST /api/matches/:id/toss]. The match is not normalized here. *)
Definition tossRoute (data : Data) (matchId : string) (body : TossBody)
  : Reply * Data :=
  match findMatch matchId data with
  | None => (ReplyError 404 "Match not found.", data)
  | Some (ix, m0) =>
      if negb (ensureAdmin hashPin data (t_adminPin body))
      then (ReplyError 403 "Invalid admin PIN.", data)
      else if negb (bool_decide (t_winner body = teamA m0
                                 ∨ t_winner body = teamB m0))
      then (ReplyError 400 "Toss winner must be Team A or Team B.", data)
      else if negb (bool_decide (t_decision body = "bat"
                                 ∨ t_decision body = "field"))
      then (ReplyError 400 "Decision must be bat or field.", data)
      else
        (ReplyOk,
         withMatches
           (<[ix := withToss (Some {| winner := Some (t_winner body);
                                      decision := Some (t_decision body) |})
                             m0]>
              (matches data)) data)
  end.

(** The end of the score route, once the innings is scored and its result
    stored in [m]: a pending second innings is opened after the first, with
    a lock time when a start time is sent. *)
Definition openInnings2 (st : Settings) (k : InningsKey) (start : LockTime)
    (m : Match) : Match + JsException :=
  match k with
  | Innings2 => inl m
  | Innings1 =>
      match innings2 m with
      | None => inr TypeErr
      | Some i2 =>
          if negb (bool_decide (status i2 = pending)) then inl m
          else
            let i2 := setStatus open i2 in
            if negb (lockTruthy start)
            then inl (withInnings (innings1 m) (Some i2) m)
            else
              match toISOString start with
              | None => inr RangeErr
              | Some ms =>
                  match computeLockTime (LockAt ms) (lockMinutesBeforeStart st) with
                  | None => inr RangeErr
                  | Some t =>
                      inl (withInnings (innings1 m) (Some (setLockTime t i2)) m)
                  end
              end
      end
  end.

(** [POST /api/matches/:id/score] *)
Definition scoreRoute (now : Z) (data : Data) (matchId : string)
    (body : ScoreBody) : Reply * Data :=
  match findMatch matchId data with
  | None => (ReplyError 404 "Match not found.", data)
  | Some (ix, m0) =>
      if negb (ensureAdmin hashPin data (s_adminPin body))
      then (ReplyError 403 "Invalid admin PIN.", data)
      else
        let m := normalizeMatch now (settings data) m0 in
        let inningsKey := inningsKeyOf (s_innings body) in
        let lo := minScore (settings data) in
        let hi := maxScore (settings data) in
        match s_actualScore body with
        | Fin q =>
            if ltZ q lo || gtZ q hi then (ReplyScoreRange lo hi, data)
            else
              match inningsOf inningsKey m with
              | None => (ReplyThrown TypeErr, data)
              | Some inningsData =>
                  if bool_decide (inningsKey = Innings2)
                     && bool_decide (status inningsData = pending)
                  then (ReplyError 400 "Innings 2 is not open yet.", data)
                  else
                    let sc := mathRound q in
                    let m1 :=
                      withInningsOf inningsKey
                        (setStatus scored (setScore (Some sc) inningsData)) m in
                    match resultOfScore inningsKey sc (players data) m1 with
                    | None => (ReplyThrown TypeErr, data)
                    | Some r =>
                        match openInnings2 (settings data) inningsKey
                                (s_innings2StartTime body)
                                (storeResult inningsKey r m1) with
                        | inr e => (ReplyThrown e, data)
                        | inl m2 =>
                            (ReplyOk,
                             withMatches (<[ix := m2]> (matches data)) data)
                        end
                    end
              end
        | _ => (ReplyScoreRange lo hi, data)
        end
  end.

(** [POST /api/matches]; [newId] is the value of [makeId("match")]. *)
Definition createMatchRoute (newId : string) (data : Data) (body : CreateBody)
  : Reply * Data :=
  if negb (ensureAdmin hashPin data (c_adminPin body))
  then (ReplyError 403 "Invalid admin PIN.", data)
  else if bool_decide (c_teamA body = "") || bool_decide (c_teamB body = "")
  then (ReplyError 400 "Provide both team names.", data)
  else
    let matchDate :=
      if lockTruthy (c_matchDate body)
      then LockAt <$> toISOString (c_matchDate body)
      else Some LockAbsent in
    match matchDate with
    | None => (ReplyThrown RangeErr, data)
    | Some matchDate =>
        let lockTime :=
          if lockTruthy (c_lockTime body)
          then LockAt <$> toISOString (c_lockTime body)
          else computeLockTime matchDate
                 (lockMinutesBeforeStart (settings data)) in
        match lockTime with
        | None => (ReplyThrown RangeErr, data)
        | Some lockTime =>
            (ReplyOk,
             withMatches
               (matches data ++
                  [{| m_id := newId;
                      teamA := c_teamA body; teamB := c_teamB body;
                      toss := None;
                      innings1 := Some {| status := open; lockTime := lockTime;
                                          score := None |};
                      innings2 := Some {| status := pending;
                                          lockTime := LockAbsent;
                                          score := None |};
                      predictions :=
                        Some {| p_innings1 := Some ∅; p_innings2 := Some ∅;
                                p_flat := ∅ |};
                      result := None;
                      m_status := None; m_lockTime := LockAbsent;
                      actualScore := None;
                      innings2LockTime := LockAbsent;
                      innings2Score := None |}]) data)
        end
    end.

End AdminRoutes.

(** [GET /api/state] when no toss feed is configured
    ([GOALSERVE_TOSS_FEED_URL] is empty, so [syncTossFromGoalserve] returns
    at once): every match is normalized, the room is saved, and the
    scoreboard of the saved room is sent with it. *)
Definition stateRoute (localeCompare : string → string → Z) (now : Z)
    (data : Data) : list Row * Data :=
  let data' :=
    withMatches (normalizeMatch now (settings data) <$> matches data) data in
  (buildScoreboard localeCompare data', data').

(** ** A room that asks for the admin PIN *)

Definition sampleHash (pin : string) : string := "h:" +:+ pin.

Definition pinSettings : Settings :=
  {| usePin := true; adminPinHash := Some "h:1234"; bonusExact := 2;
     minScore := 60; maxScore := 300; lockMinutesBeforeStart := 15 |}.

Definition pinRoom (m : Match) : Data :=
  {| settings := pinSettings; players := samplePlayers; matches := [m] |}.

(** ** A room whose stored predictions are those of its players *)

(** Every stored prediction, as the normalizer reads the maps, stands under
    the id of a player of the room. *)
Definition predictionsByPlayers (data : Data) : Prop :=
  ∀ m k pid v, m ∈ matches data → predictionMap k m !! pid = Some v →
    ∃ p, p ∈ players data ∧ id p = pid.

(** ** A room whose stored results name predicting players *)

(** Every id among the stored winners of an innings of the match has a
    prediction stored for that innings, whatever the status of the
    innings. *)
Definition winnersPredictedIn (m : Match) : Prop :=
  ∀ k r pid, resultOf k m = Some r → pid ∈ winners r →
    is_Some (default ∅ (predictionsOf k m) !! pid).

Definition winnersPredicted (data : Data) : Prop :=
  ∀ m, m ∈ matches data → winnersPredictedIn m.

(** ** A row whose counters agree with each other *)

(** The two counters of predictions are equal; the exact hits and the wins
    are among the predictions; every win gives a point and only an exact
    hit can give the bonus. *)
Definition soundRow (bonus : Z) (row : Stat) : Prop :=
  scoredMatches row = s_predictions row
  ∧ 0 ≤ exactHits row ≤ s_predictions row
  ∧ 0 ≤ wins row ≤ s_predictions row
  ∧ 0 ≤ totalDiff row
  ∧ wins row ≤ points row ≤ wins row + Z.max 0 bonus * exactHits row.

(** ** Toss text *)

(** [s.includes(sub)] *)
Fixpoint includes (s sub : string) : bool :=
  String.prefix sub s
  || match s with
     | EmptyString => false
     | String _ s' => includes s' sub
     end.

(** The alternatives of the two regular expressions, which are tested
    anywhere in the text. *)
Definition fieldPhrases : list string :=
  ["elected to field"; "opted to field"; "chose to field"; "decided to field";
   "elected to bowl"; "opted to bowl"; "chose to bowl"; "decided to bowl"].

Definition batPhrases : list string :=
  ["elected to bat"; "opted to bat"; "chose to bat"; "decided to bat"].

Section TossText.
Variable toLowerCase : string → string.

(** [parseTossText(text, teamA, teamB)] for a text that is a string or is
    missing. *)
Definition parseTossText (text : option string) (teamA teamB : string)
  : option Toss :=
  if negb (truthy text) then None
  else
    let lower := toLowerCase (default "" text) in
    let teams := [teamA; teamB] in
    let winner :=
      List.find (λ team, includes lower (toLowerCase team)) teams in
    if negb (truthy winner) then None
    else
      let decision :=
        if existsb (includes lower) fieldPhrases then Some "field"
        else if existsb (includes lower) batPhrases then Some "bat"
        else None in
      if negb (truthy decision) then None
      else Some {| winner := winner; decision := decision |}.

End TossText.

(** Lower case for texts of ASCII characters, used in the examples. *)
Definition lowerChar (c : Ascii.ascii) : Ascii.ascii :=
  let n := Ascii.nat_of_ascii c in
  if Nat.leb 65 n && Nat.leb n 90 then Ascii.ascii_of_nat (n + 32) else c.

Fixpoint asciiLower (s : string) : string :=
  match s with
  | EmptyString => EmptyString
  | String c s' => String (lowerChar c) (asciiLower s')
  end.

(** ** Setting up a room *)

(** A number of the setup body as [x || d] and [Number(..)] read it: a
    falsy value (missing, the number 0, [NaN], the empty string, [null],
    [false]), which gives way to the default, or a truthy value with its
    [Number(..)]: the string ["0"] is truthy and its number is 0, a word is
    truthy and its number is [NaN]. *)
Inductive SetupNum := Falsy | Truthy (v : JsNum).

(** [Number(x || d)] *)
Definition orElse (x : SetupNum) (d : Z) : JsNum :=
  match x with
  | Falsy => Fin (inject_Z d)
  | Truthy v => v
  end.

(** [Math.max(a, b)] *)
Definition mathMax (a b : JsNum) : JsNum :=
  match a, b with
  | NaN, _ | _, NaN => NaN
  | PosInfinity, _ | _, PosInfinity => PosInfinity
  | NegInfinity, x | x, NegInfinity => x
  | Fin p, Fin q => Fin (if Qle_bool p q then q else p)
  end.

(** [a <= b] on numbers; false when one of them is [NaN]. *)
Definition numLe (a b : JsNum) : bool :=
  match a, b with
  | NaN, _ | _, NaN => false
  | NegInfinity, _ | _, PosInfinity => true
  | Fin p, Fin q => Qle_bool p q
  | _, _ => false
  end.

(** The body of a setup request: the entries of [players] as
    [String(name || "")] gives them (none when [players] is no array),
    [Boolean(usePin)], the PIN as [String(adminPin || "")] gives it, that
    is, as it was sent, and the four numbers. *)
Record SetupBody := mkSetupBody {
  su_players : list string;
  su_usePin : bool;
  su_adminPin : string;
  su_bonusExact : SetupNum;
  su_minScore : SetupNum;
  su_maxScore : SetupNum;
  su_lockMinutesBeforeStart : SetupNum
}.

(** The settings the setup route stores, with the numbers as it computes
    them. *)
Record RoomSettings := mkRoomSettings {
  rs_usePin : bool;
  rs_adminPinHash : option string;
  rs_bonusExact : JsNum;
  rs_minScore : JsNum;
  rs_maxScore : JsNum;
  rs_lockMinutesBeforeStart : JsNum
}.

(** The room the setup route saves; it has no match. *)
Record NewRoom := mkNewRoom {
  nr_settings : RoomSettings;
  nr_players : list Player
}.

Section SetupRoute.
Variable trim : string → string.
Variable hashPin : string → string.

(** [POST /api/setup] for a request that does not ask for the schedule;
    [newId i] is the value of [makeId("player")] for the player of index
    [i]. The answer comes with the room that replaces the stored one, if
    any. A string is a sequence of code units and [String.length] counts
    them. *)
Definition setupRoute (newId : nat → string) (body : SetupBody)
  : Reply * option NewRoom :=
  let uniqueNames := filter (λ n, n ≠ "") (trim <$> su_players body) in
  if bool_decide (length uniqueNames < 4)%nat
  then (ReplyError 400 "Add four players.", None)
  else
    let adminPin := trim (su_adminPin body) in
    if su_usePin body && bool_decide (String.length adminPin < 3)%nat
    then (ReplyError 400 "Admin PIN must be at least 3 digits.", None)
    else
      let bonusExact :=
        mathMax (Fin (inject_Z 0)) (orElse (su_bonusExact body) 0) in
      let minScore :=
        mathMax (Fin (inject_Z 0)) (orElse (su_minScore body) 60) in
      let maxScore := mathMax minScore (orElse (su_maxScore body) 300) in
      let lockMinutesBeforeStart :=
        mathMax (Fin (inject_Z 0))
                (orElse (su_lockMinutesBeforeStart body) 15) in
      (ReplyOk,
       Some {| nr_settings :=
                 {| rs_usePin := su_usePin body;
                    rs_adminPinHash :=
                      if su_usePin body then Some (hashPin adminPin)
                      else None;
                    rs_bonusExact := bonusExact;
                    rs_minScore := minScore;
                    rs_maxScore := maxScore;
                    rs_lockMinutesBeforeStart := lockMinutesBeforeStart |};
               nr_players :=
                 imap (λ i n, {| id := newId i; name := n |}) uniqueNames |}).

End SetupRoute.

(** Removal of the spaces at both ends of a text of ASCII characters, used
    in the examples. *)
Fixpoint dropSpaces (s : string) : string :=
  match s with
  | String c s' => if Ascii.eqb c (Ascii.ascii_of_nat 32) then dropSpaces s' else s
  | EmptyString => EmptyString
  end.

Definition trimSpaces (s : string) : string :=
  String.rev (dropSpaces (String.rev (dropSpaces s))).

(** ** Sample requests *)

(** A request that reopens the whole match, without a PIN. *)
Definition reopenAll : ReopenBody :=
  {| adminPin := None; rb_innings := None |}.

(** A score request for innings 1, with the start of innings 2 at time
    7200000 (two hours). *)
Definition scoreInnings1 (q : Q) : ScoreBody :=
  {| s_adminPin := None; s_innings := Some 1; s_actualScore := Fin q;
     s_innings2StartTime := LockAt 7200000 |}.

(** A score request for innings 2. *)
Definition scoreInnings2 (q : Q) : ScoreBody :=
  {| s_adminPin := None; s_innings := Some 2; s_actualScore := Fin q;
     s_innings2StartTime := LockAbsent |}.

Definition tossIndiaBat : TossBody :=
  {| t_adminPin := None; t_winner := "India"; t_decision := "bat" |}.

(** A request for a new match that starts at time 3600000 (one hour). *)
Definition createNepalOman : CreateBody :=
  {| c_adminPin := None; c_teamA := "Nepal"; c_teamB := "Oman";
     c_matchDate := LockAt 3600000; c_lockTime := LockAbsent |}.

(** A setup request with one blank name among five, a PIN sent with a
    space before it, no minimum and the lock minutes sent as the string
    ["0"]. *)
Definition setupFour : SetupBody :=
  {| su_players := ["Asha"; " "; "Bilal "; "Chen"; "Dina"];
     su_usePin := true; su_adminPin := " 1234";
     su_bonusExact := Truthy (Fin (inject_Z 2)); su_minScore := Falsy;
     su_maxScore := Falsy;
     su_lockMinutesBeforeStart := Truthy (Fin (inject_Z 0)) |}.

(** The sample match with the first innings open and two predictions for
    it. *)
Definition openWithPredictions : Match :=
  withPredictions
    (Some {| p_innings1 := Some (<["p1" := 180]> (<["p2" := 150]> ∅));
             p_innings2 := Some ∅; p_flat := ∅ |})
    openMatch.

(** A prediction of [p3] for the second innings. *)
Definition predictInnings2 : PredictBody :=
  {| b_innings := Some 2; b_playerId := "p3"; b_score := Fin (inject_Z 170) |}.

Definition playerIdOf (i : nat) : string :=
  "player_" +:+ String (Ascii.ascii_of_nat (48 + i)) "".

(** ** Examples of the specification, evaluated *)

Example computeInningsResult_exact :
  computeInningsResult (Some 100)
    (<["A" := 100]> (<["B" := 95]> (<["C" := 105]> ∅))) threePlayers
  = Some {| winners := ["A"]; closestDiff := Some 0 |}.
Proof. vm_compute. reflexivity. Qed.

Example computeInningsResult_tie :
  computeInningsResult (Some 100)
    (<["A" := 95]> (<["B" := 105]> ∅)) threePlayers
  = Some {| winners := ["A"; "B"]; closestDiff := Some 5 |}.
Proof. vm_compute. reflexivity. Qed.

Example computeInningsResult_null :
  computeInningsResult None (<["A" := 95]> ∅) threePlayers = None.
Proof. reflexivity. Qed.

(** ** Properties of the result calculator *)

Section ResultCalculator.
Implicit Types (preds : gmap string Z) (ps : list Player).

Lemma mathMin_le d ds : mathMin d ds ≤ d ∧ Forall (λ x, mathMin d ds ≤ x) ds.
Proof.
  induction ds as [|x ds [IH1 IH2]]; simpl.
  - split; [lia | constructor].
  - split; [lia |]. constructor; [lia |].
    eapply Forall_impl; [exact IH2 |]. simpl. intros; lia.
Qed.

Lemma mathMin_attained d ds : mathMin d ds ∈ d :: ds.
Proof.
  unfold mathMin. induction ds as [|x ds IH]; simpl.
  - left.
  - destruct (Z.min_spec x (foldr Z.min d ds)) as [[_ ->]|[_ ->]].
    + right; left.
    + apply elem_of_cons in IH as [->|IH].
      * left.
      * right; right; exact IH.
Qed.

Lemma elem_of_entries actual preds ps pid d :
  (pid, d) ∈ entries actual preds ps ↔
  ∃ p v, p ∈ ps ∧ id p = pid ∧ preds !! pid = Some v ∧ Z.abs (v - actual) = d.
Proof.
  unfold entries. rewrite list_elem_of_omap. split.
  - intros (p & Hp & Hx). destruct (preds !! id p) as [v|] eqn:E; [|done].
    injection Hx as <- <-. eauto 10.
  - intros (p & v & Hp & <- & Hv & <-). exists p. split; [done|].
    by rewrite Hv.
Qed.

Lemma entries_nil actual preds ps :
  entries actual preds ps = [] ↔ ∀ p, p ∈ ps → preds !! id p = None.
Proof.
  split.
  - intros E p Hp. destruct (preds !! id p) as [v|] eqn:Hv; [|done].
    assert (H : (id p, Z.abs (v - actual)) ∈ entries actual preds ps)
      by (apply elem_of_entries; eauto 10).
    rewrite E in H. by apply elem_of_nil in H.
  - intros H. unfold entries. induction ps as [|p ps IH]; [done|].
    simpl. rewrite (H p) by left. simpl. apply IH.
    intros q Hq. apply H. by right.
Qed.
End ResultCalculator.

(** C1. [computeInningsResult] returns [null] when the actual score is
    absent; when no listed player has a prediction it returns
    [{ winners: [], closestDiff: null }]; otherwise [closestDiff] is the
    minimum of [|prediction - actualScore|] over the listed players that
    predicted (it is attained, and no predicting player is closer), and
    [winners] holds exactly the ids of the predicting players at that
    distance, ties included. *)
Theorem computeInningsResult_spec (preds : gmap string Z) (ps : list Player) :
  computeInningsResult None preds ps = None
  ∧ (∀ a, (∀ p, p ∈ ps → preds !! id p = None) →
       computeInningsResult (Some a) preds ps
       = Some {| winners := []; closestDiff := None |})
  ∧ (∀ a, (∃ p, p ∈ ps ∧ is_Some (preds !! id p)) →
       ∃ ws d,
         computeInningsResult (Some a) preds ps
         = Some {| winners := ws; closestDiff := Some d |}
         ∧ (∃ p v, p ∈ ps ∧ preds !! id p = Some v ∧ Z.abs (v - a) = d)
         ∧ (∀ p v, p ∈ ps → preds !! id p = Some v → d ≤ Z.abs (v - a))
         ∧ (∀ pid, pid ∈ ws ↔
              ∃ p v, p ∈ ps ∧ id p = pid ∧ preds !! pid = Some v
                     ∧ Z.abs (v - a) = d)).
Proof.
  split; [reflexivity|]. split.
  - intros a H. unfold computeInningsResult.
    by rewrite (proj2 (entries_nil a preds ps) H).
  - intros a (p0 & Hp0 & [v0 Hv0]). unfold computeInningsResult.
    destruct (entries a preds ps) as [|e es] eqn:E.
    { rewrite (proj1 (entries_nil a preds ps) E p0 Hp0) in Hv0. done. }
    set (d := mathMin e.2 (snd <$> es)).
    eexists _, d. split; [reflexivity|].
    assert (Hin : ∀ pid x, (pid, x) ∈ e :: es ↔
      ∃ p v, p ∈ ps ∧ id p = pid ∧ preds !! pid = Some v ∧ Z.abs (v - a) = x).
    { intros pid x. rewrite <- E. apply elem_of_entries. }
    assert (Hmin : ∀ y, y ∈ e :: es → d ≤ y.2).
    { intros y Hy. destruct (mathMin_le e.2 (snd <$> es)) as [H1 H2].
      apply elem_of_cons in Hy as [->|Hy]; [exact H1|].
      rewrite Forall_forall in H2. apply H2.
      apply list_elem_of_fmap. eauto. }
    assert (Hatt : ∃ y, y ∈ e :: es ∧ y.2 = d).
    { pose proof (mathMin_attained e.2 (snd <$> es)) as H.
      fold d in H. apply elem_of_cons in H as [H|H].
      - exists e. split; [left | done].
      - apply list_elem_of_fmap in H as (y & -> & Hy). exists y.
        split; [by right | done]. }
    split; [|split].
    + destruct Hatt as ([pid x] & Hy & Hd). simpl in Hd. subst x.
      apply Hin in Hy as (p & v & Hp & <- & Hv & Hd). eauto 10.
    + intros p v Hp Hv.
      apply (Hmin (id p, Z.abs (v - a))). apply Hin. eauto 10.
    + intros pid. rewrite list_elem_of_fmap. split.
      * intros ([pid' x] & -> & Hy). apply list_elem_of_filter in Hy as [Hx Hy].
        simpl in *. apply Hin in Hy. by subst x.
      * intros Hex. exists (pid, d). split; [done|].
        apply list_elem_of_filter. split; [done|]. by apply Hin.
Qed.

(** ** Properties of the toss resolver *)

(** Decision "field" with the toss won by team A: team B bats first. *)
Example getBattingTeams_field :
  getBattingTeams
    (mkMatch "m1" "India" "Kenya"
       (Some (mkToss (Some "India") (Some "field")))
       None None None None None LockAbsent None LockAbsent None)
  = Some {| bat_innings1 := "Kenya"; bat_innings2 := "India" |}.
Proof. reflexivity. Qed.

Example getBattingTeams_bat :
  getBattingTeams
    (mkMatch "m1" "India" "Kenya"
       (Some (mkToss (Some "India") (Some "bat")))
       None None None None None LockAbsent None LockAbsent None)
  = Some {| bat_innings1 := "India"; bat_innings2 := "Kenya" |}.
Proof. reflexivity. Qed.

Lemma truthy_Some (s : string) : s ≠ "" → truthy (Some s) = true.
Proof. intros H. unfold truthy. by rewrite bool_decide_eq_false_2. Qed.

(** The batting order is resolved exactly when the toss has a truthy winner
    and its decision is one of the two keywords. *)
Lemma getBattingTeams_is_Some (m : Match) :
  is_Some (getBattingTeams m) ↔
  ∃ w d, toss m = Some (mkToss (Some w) (Some d)) ∧ w ≠ ""
         ∧ (d = "bat" ∨ d = "field").
Proof.
  unfold getBattingTeams. destruct (toss m) as [[[w|] [d|]]|]; simpl;
    try (split; [intros [? [=]] | intros (? & ? & [=] & _)]; fail).
  repeat case_bool_decide; simpl; subst; split;
    try (intros [? [=]]; fail); try (intros _; eauto 10; fail);
    try (intros (? & ? & [= <- <-] & ? & [?|?]); done).
  all: intros _; eauto 10.
Qed.

(** C6. [getBattingTeams] returns [null] when the toss is unset or when its
    winner or its decision is unset (falsy); with both set, the decision
    ["bat"] puts the toss winner in innings 1 and the other of team A and
    team B in innings 2, and ["field"] puts the winner in innings 2 and the
    other team in innings 1. The function only reads the match: it is a
    function of it and returns nothing but the batting order. *)
Theorem getBattingTeams_spec (m : Match) :
  (toss m = None → getBattingTeams m = None)
  ∧ (∀ t, toss m = Some t →
       truthy (winner t) = false ∨ truthy (decision t) = false →
       getBattingTeams m = None)
  ∧ (∀ t w, toss m = Some t → winner t = Some w → w ≠ "" →
       let other_team := if bool_decide (w = teamA m) then teamB m else teamA m in
       (decision t = Some "bat" →
          getBattingTeams m
          = Some {| bat_innings1 := w; bat_innings2 := other_team |})
       ∧ (decision t = Some "field" →
          getBattingTeams m
          = Some {| bat_innings1 := other_team; bat_innings2 := w |})).
Proof.
  unfold getBattingTeams. split; [by intros ->|]. split.
  - intros [w d] -> [H|H]; simpl in *.
    + destruct w as [w|], d as [d|]; try done. simpl in *. by rewrite H.
    + destruct w as [w|], d as [d|]; try done. simpl in *. rewrite H.
      by rewrite orb_true_r.
  - intros [w' d] w -> Hw Hne. simpl in Hw. subst w'.
    split; intros Hd; simpl in Hd; subst d; cbn [winner decision];
      rewrite (truthy_Some w) by done; reflexivity.
Qed.

(** ** Properties of the normalizer *)

Lemma normalizeInningsStatus_autoLock now i :
  normalizeInningsStatus now (Some i) = Some (autoLock now i).
Proof.
  unfold normalizeInningsStatus, autoLock, isInningsLocked.
  destruct i as [s t sc]; simpl. destruct s, t; simpl; try reflexivity.
  by destruct (bool_decide (ms ≤ now)).
Qed.

Lemma autoLock_idem now i : autoLock now (autoLock now i) = autoLock now i.
Proof.
  destruct (bool_decide (status i = open) && lockPassed now (lockTime i)) eqn:E.
  - assert (autoLock now i = setStatus locked i) as ->
      by (unfold autoLock; by rewrite E).
    reflexivity.
  - assert (autoLock now i = i) as -> by (unfold autoLock; by rewrite E).
    unfold autoLock. by rewrite E.
Qed.

Lemma autoLock_lockTime now i : lockTime (autoLock now i) = lockTime i.
Proof. unfold autoLock. by case_match. Qed.

Lemma autoLock_score now i : score (autoLock now i) = score i.
Proof. unfold autoLock. by case_match. Qed.

Lemma autoLock_status now i :
  status (autoLock now i)
  = if bool_decide (status i = open) && lockPassed now (lockTime i)
    then locked else status i.
Proof. unfold autoLock. by case_match. Qed.

Lemma promoteInnings2_lockTime st i1 i2 :
  lockTime (promoteInnings2 st i1 i2) = lockTime i2.
Proof.
  unfold promoteInnings2.
  destruct (bool_decide (status i1 = scored) && bool_decide (status i2 = pending));
    [|done].
  destruct i2 as [s [| |t] sc]; simpl; [|done..].
  by destruct (lockTruthy (lockTime i1) && negb (lockMinutesBeforeStart st =? 0)).
Qed.

Lemma promoteInnings2_score st i1 i2 :
  score (promoteInnings2 st i1 i2) = score i2.
Proof. unfold promoteInnings2. by repeat case_match. Qed.

Lemma promoteInnings2_status st i1 i2 :
  status (promoteInnings2 st i1 i2)
  = if bool_decide (status i1 = scored) && bool_decide (status i2 = pending)
    then open else status i2.
Proof. unfold promoteInnings2. by repeat case_match. Qed.

Lemma normalizePredictions_idem p :
  normalizePredictions (Some (normalizePredictions p)) = normalizePredictions p.
Proof.
  unfold normalizePredictions. destruct p as [[[a|] [b|] f]|]; reflexivity.
Qed.

Lemma normalizeMatch_innings1 now st m :
  innings1 (normalizeMatch now st m) = Some (autoLock now (legacyInnings1 m)).
Proof. unfold normalizeMatch. simpl. apply normalizeInningsStatus_autoLock. Qed.

Lemma normalizeMatch_innings2 now st m :
  innings2 (normalizeMatch now st m)
  = Some (autoLock now (promoteInnings2 st (legacyInnings1 m) (legacyInnings2 m))).
Proof. unfold normalizeMatch. simpl. apply normalizeInningsStatus_autoLock. Qed.

Lemma normalizeMatch_predictions now st m :
  predictions (normalizeMatch now st m)
  = Some (normalizePredictions (predictions m)).
Proof. reflexivity. Qed.

Lemma normalizeMatch_result now st m :
  result (normalizeMatch now st m) = result m.
Proof. reflexivity. Qed.

Lemma normalizeMatch_toss now st m :
  toss (normalizeMatch now st m) = toss m
  ∧ teamA (normalizeMatch now st m) = teamA m
  ∧ teamB (normalizeMatch now st m) = teamB m
  ∧ m_id (normalizeMatch now st m) = m_id m.
Proof. done. Qed.

(** After normalization the first innings is never [scored] while the second
    is still [pending]. *)
Lemma normalizeMatch_promoted now st m i1 i2 :
  innings1 (normalizeMatch now st m) = Some i1 →
  innings2 (normalizeMatch now st m) = Some i2 →
  ¬ (status i1 = scored ∧ status i2 = pending).
Proof.
  rewrite normalizeMatch_innings1, normalizeMatch_innings2.
  intros [= <-] [= <-]. rewrite !autoLock_status, promoteInnings2_status.
  intros [H1 H2]. repeat case_bool_decide; simpl in *;
    repeat case_match; congruence.
Qed.

Lemma Match_eq (m1 m2 : Match) :
  m_id m1 = m_id m2 → teamA m1 = teamA m2 → teamB m1 = teamB m2 →
  toss m1 = toss m2 → innings1 m1 = innings1 m2 → innings2 m1 = innings2 m2 →
  predictions m1 = predictions m2 → result m1 = result m2 →
  m_status m1 = m_status m2 → m_lockTime m1 = m_lockTime m2 →
  actualScore m1 = actualScore m2 →
  innings2LockTime m1 = innings2LockTime m2 →
  innings2Score m1 = innings2Score m2 →
  m1 = m2.
Proof. destruct m1, m2; simpl; intros; by subst. Qed.

Lemma promoteInnings2_id st i1 i2 :
  ¬ (status i1 = scored ∧ status i2 = pending) → promoteInnings2 st i1 i2 = i2.
Proof.
  intros H. unfold promoteInnings2.
  repeat case_bool_decide; simpl; try reflexivity. by destruct H.
Qed.

(** What the normalizer does to a match that has been normalized before:
    the automatic lock and nothing else. *)
Lemma normalizeMatch_canonical_autoLock now st m :
  canonical m →
  normalizeMatch now st m
  = withInnings (autoLock now <$> innings1 m) (autoLock now <$> innings2 m) m.
Proof.
  intros (t0 & st0 & m0 & ->).
  pose proof (normalizeMatch_promoted t0 st0 m0) as Hp.
  destruct (innings1 (normalizeMatch t0 st0 m0)) as [i1|] eqn:H1;
    [|by rewrite normalizeMatch_innings1 in H1].
  destruct (innings2 (normalizeMatch t0 st0 m0)) as [i2|] eqn:H2;
    [|by rewrite normalizeMatch_innings2 in H2].
  specialize (Hp _ _ eq_refl eq_refl).
  apply Match_eq; try reflexivity.
  - rewrite normalizeMatch_innings1. unfold legacyInnings1. by rewrite H1.
  - rewrite normalizeMatch_innings2. unfold legacyInnings1, legacyInnings2.
    rewrite H1, H2. simpl. by rewrite promoteInnings2_id.
Qed.

(** A legacy record normalized before and after the lock time of its second
    innings: the innings objects are built from the flat fields, the flat
    predictions become those of the first innings, and the second innings is
    opened, and locked once its lock time has passed. *)
Example normalizeMatch_legacy_before_lock :
  normalizeMatch 1500 sampleSettings legacyMatch
  = withInnings (Some (mkInnings scored (LockAt 1000) (Some 160)))
                (Some (mkInnings open (LockAt 2000) None))
                (withPredictions
                   (Some {| p_innings1 := Some (<["p1" := 150]> ∅);
                            p_innings2 := Some ∅; p_flat := ∅ |})
                   legacyMatch).
Proof. reflexivity. Qed.

Example normalizeMatch_legacy_after_lock :
  innings2 (normalizeMatch 2000 sampleSettings legacyMatch)
  = Some (mkInnings locked (LockAt 2000) None)
  ∧ innings2 (normalizeMatch 2000 sampleSettings
                (normalizeMatch 1500 sampleSettings legacyMatch))
    = Some (mkInnings locked (LockAt 2000) None).
Proof. split; reflexivity. Qed.

(** C7. For every match record (either innings object possibly missing,
    legacy flat fields, [predictions] missing or flat), [normalizeMatch] is
    defined, and afterwards both innings objects exist, [predictions] holds a
    mapping for each innings, a second innings that was [pending] while the
    first was [scored] has been opened (and locked at once when its lock time
    has already passed), and no innings is left [open] past its lock time:
    an innings that was [open] with a lock time at or before the current
    time is [locked], with its lock time and score as they were. *)
Theorem normalizeMatch_canonical_shape (now : Z) (st : Settings) (m : Match) :
  let m' := normalizeMatch now st m in
  (∃ i1 i2, innings1 m' = Some i1 ∧ innings2 m' = Some i2)
  ∧ (∃ p1 p2 f,
       predictions m'
       = Some {| p_innings1 := Some p1; p_innings2 := Some p2; p_flat := f |})
  ∧ (status (legacyInnings1 m) = scored →
     status (legacyInnings2 m) = pending →
     ∃ i2, innings2 m' = Some i2
           ∧ status i2 = (if lockPassed now (lockTime (legacyInnings2 m))
                          then locked else open)
           ∧ lockTime i2 = lockTime (legacyInnings2 m)
           ∧ score i2 = score (legacyInnings2 m))
  ∧ (∀ k i, inningsOf k m' = Some i →
       ¬ (status i = open ∧ lockPassed now (lockTime i) = true))
  ∧ (∀ k i, inningsOf k m = Some i → status i = open →
       lockPassed now (lockTime i) = true →
       inningsOf k m' = Some (setStatus locked i)).
Proof.
  intros m'. subst m'. split; [|split; [|split; [|split]]].
  - rewrite normalizeMatch_innings1, normalizeMatch_innings2. eauto.
  - rewrite normalizeMatch_predictions. unfold normalizePredictions. eauto.
  - intros H1 H2. rewrite normalizeMatch_innings2. eexists. split; [done|].
    rewrite autoLock_status, autoLock_lockTime, autoLock_score,
      promoteInnings2_status, promoteInnings2_lockTime, promoteInnings2_score.
    rewrite H1, H2. simpl. done.
  - intros k i Hi [Ho Hl]. destruct k; cbn [inningsOf] in Hi.
    + rewrite normalizeMatch_innings1 in Hi. injection Hi as <-.
      rewrite autoLock_status, autoLock_lockTime in *.
      rewrite Hl in Ho. by case_bool_decide.
    + rewrite normalizeMatch_innings2 in Hi. injection Hi as <-.
      rewrite autoLock_status, autoLock_lockTime in *.
      rewrite Hl in Ho. by case_bool_decide.
  - intros k i Hi Ho Hl. destruct k; cbn [inningsOf] in *.
    + rewrite normalizeMatch_innings1. unfold legacyInnings1. rewrite Hi.
      unfold autoLock. by rewrite Ho, Hl.
    + rewrite normalizeMatch_innings2. unfold legacyInnings2. rewrite Hi.
      unfold promoteInnings2, autoLock. rewrite Ho. simpl.
      rewrite andb_false_r. by rewrite Ho, Hl.
Qed.

(** C8. At a fixed time [normalizeMatch] is idempotent, and on a match that
    has been normalized before (at any time) it changes nothing but the
    status of the innings that are [open] with a lock time at or before the
    current time, which become [locked]; when there is no such innings the
    match is returned as it is. *)
Theorem normalizeMatch_idempotent (now : Z) (st : Settings) (m : Match) :
  normalizeMatch now st (normalizeMatch now st m) = normalizeMatch now st m
  ∧ (canonical m →
     normalizeMatch now st m
     = withInnings (autoLock now <$> innings1 m) (autoLock now <$> innings2 m) m)
  ∧ (canonical m →
     (∀ k i, inningsOf k m = Some i →
        ¬ (status i = open ∧ lockPassed now (lockTime i) = true)) →
     normalizeMatch now st m = m).
Proof.
  split; [|split].
  - rewrite normalizeMatch_canonical_autoLock by (by eexists _, _, _).
    apply Match_eq; try reflexivity; cbn [withInnings innings1 innings2].
    + rewrite normalizeMatch_innings1. simpl. by rewrite autoLock_idem.
    + rewrite normalizeMatch_innings2. simpl. by rewrite autoLock_idem.
  - apply normalizeMatch_canonical_autoLock.
  - intros Hc Hno. rewrite normalizeMatch_canonical_autoLock by done.
    assert (Hk : ∀ k, autoLock now <$> inningsOf k m = inningsOf k m).
    { intros k. destruct (inningsOf k m) as [i|] eqn:E; [|done]. simpl.
      f_equal. unfold autoLock. specialize (Hno k i E).
      destruct (bool_decide (status i = open)) eqn:E1; [|done].
      destruct (lockPassed now (lockTime i)) eqn:E2; [|done].
      exfalso. apply Hno. split; [|done]. by apply bool_decide_eq_true in E1. }
    pose proof (Hk Innings1) as H1. pose proof (Hk Innings2) as H2.
    cbn [inningsOf] in H1, H2. rewrite H1, H2. by destruct m.
Qed.

(** ** Properties of the predict handler *)

Lemma findMatch_Some matchId data ix m0 :
  findMatch matchId data = Some (ix, m0) →
  matches data !! ix = Some m0 ∧ m_id m0 = matchId.
Proof. unfold findMatch. rewrite list_find_Some. by intros (? & ? & _). Qed.

Lemma ltZ_false q z : ltZ q z = false ↔ (inject_Z z <= q)%Q.
Proof.
  unfold ltZ. rewrite negb_false_iff. apply Qle_bool_iff.
Qed.

Lemma gtZ_false q z : gtZ q z = false ↔ (q <= inject_Z z)%Q.
Proof.
  unfold gtZ. rewrite negb_false_iff. apply Qle_bool_iff.
Qed.

Lemma ltZ_true q z : ltZ q z = true ↔ (q < inject_Z z)%Q.
Proof.
  unfold ltZ. rewrite negb_true_iff, <- not_true_iff_false, Qle_bool_iff.
  split; [apply Qnot_le_lt | apply Qlt_not_le].
Qed.

Lemma gtZ_true q z : gtZ q z = true ↔ (inject_Z z < q)%Q.
Proof.
  unfold gtZ. rewrite negb_true_iff, <- not_true_iff_false, Qle_bool_iff.
  split; [apply Qnot_le_lt | apply Qlt_not_le].
Qed.

(** [Math.round] returns the nearest integer: the number lies within one
    half of it, the upper end excluded. *)
Lemma mathRound_nearest (q : Q) :
  (inject_Z (mathRound q) - (1 # 2) <= q)%Q
  ∧ (q < inject_Z (mathRound q) + (1 # 2))%Q.
Proof.
  unfold mathRound.
  pose proof (Qfloor_le (q + (1 # 2))) as H1.
  pose proof (Qlt_floor (q + (1 # 2))) as H2.
  rewrite inject_Z_plus in H2. change (inject_Z 1) with 1%Q in H2.
  split; lra.
Qed.

Lemma mathRound_integer (z : Z) : mathRound (inject_Z z) = z.
Proof.
  unfold mathRound. unfold Qfloor, Qplus, inject_Z. simpl.
  rewrite Z.mul_1_r. replace (z * 2 + 1) with (1 + z * 2) by lia.
  rewrite Z.div_add by lia. reflexivity.
Qed.

Lemma storePrediction_Some k pid v m preds :
  predictionsOf k m = Some preds →
  ∃ m', storePrediction k pid v m = Some m'
        ∧ predictionsOf k m' = Some (<[pid := v]> preds)
        ∧ (∀ k', k' ≠ k → predictionsOf k' m' = predictionsOf k' m)
        ∧ innings1 m' = innings1 m ∧ innings2 m' = innings2 m
        ∧ result m' = result m ∧ toss m' = toss m.
Proof.
  unfold predictionsOf, storePrediction.
  destruct (predictions m) as [po|] eqn:E; [|done]. simpl.
  destruct k; intros ->; simpl; eexists; (split; [done|]);
    (split; [done|]); (split; [|done]); by intros [].
Qed.

Lemma normalizeMatch_predictionsOf now st m k :
  predictionsOf k (normalizeMatch now st m) = Some (predictionMap k m).
Proof.
  unfold predictionsOf, predictionMap. rewrite normalizeMatch_predictions.
  simpl. unfold normalizePredictions. by destruct k.
Qed.

(** The handler never reaches a property access on [undefined]. *)
Lemma predict_no_TypeError now now' data matchId body :
  (predict now now' data matchId body).1 ≠ TypeError.
Proof.
  unfold predict. repeat case_match; simpl; try discriminate.
  subst. intros _.
  destruct (storePrediction_Some (inningsKeyOf (b_innings body))
              (b_playerId body) (mathRound q)
              (normalizeMatch now (settings data) m)
              _ (normalizeMatch_predictionsOf _ _ _ _)) as (m' & Hm' & _).
  congruence.
Qed.

(** A request for which every check passes: the answer and the stored
    state. *)
Lemma predict_success now now' data matchId body ix m0 i q :
  findMatch matchId data = Some (ix, m0) →
  let m := normalizeMatch now (settings data) m0 in
  let key := inningsKeyOf (b_innings body) in
  is_Some (getBattingTeams m) →
  inningsOf key m = Some i → status i = open →
  isInningsLocked now' (Some i) = false →
  (∃ p, p ∈ players data ∧ id p = b_playerId body) →
  b_score body = Fin q →
  (inject_Z (minScore (settings data)) <= q)%Q →
  (q <= inject_Z (maxScore (settings data)))%Q →
  ∃ m', predict now now' data matchId body
        = (Ok, withMatches (<[ix := m']> (matches data)) data)
        ∧ predictionsOf key m'
          = Some (<[b_playerId body := mathRound q]> (predictionMap key m0))
        ∧ (∀ k', k' ≠ key → predictionsOf k' m' = predictionsOf k' m)
        ∧ innings1 m' = innings1 m ∧ innings2 m' = innings2 m
        ∧ result m' = result m ∧ toss m' = toss m.
Proof.
  intros Hf m key [bt Hbt] Hi Ho Hl Hp Hq Hlo Hhi.
  destruct (storePrediction_Some key (b_playerId body) (mathRound q) m _
              (normalizeMatch_predictionsOf now (settings data) m0 key))
    as (m' & Hst & Hrest).
  exists m'. split; [|exact Hrest].
  unfold predict. rewrite Hf. fold m key. rewrite Hbt, Hi.
  rewrite (bool_decide_eq_true_2 _ Ho). cbn [negb]. rewrite Hl.
  rewrite bool_decide_eq_true_2
    by (apply Exists_exists; destruct Hp as (p & ? & ?); by exists p).
  cbn [negb]. rewrite Hq.
  rewrite (proj2 (ltZ_false _ _) Hlo), (proj2 (gtZ_false _ _) Hhi). cbn [orb].
  by rewrite Hst.
Qed.

(** C4 (amended). On an existing match the predict handler checks, in this
    order, and answers with the first check that fails: the batting order is
    resolved from the toss (else "Set the toss before predictions."); the
    innings addressed is [open] after normalization and, on the handler's own
    check of the lock time, not locked (else one of the two 403 answers);
    the player id is that of a player of the room (else "Invalid player.");
    the score is a finite number, an integer or not, within [minScore] and
    [maxScore] (else "Score must be between ..."). When all pass, the answer
    is ok and the score rounded to the nearest integer is stored for the
    player in the innings, in place of any value stored before; the other
    innings' predictions, both innings objects, the result and the toss are
    as normalization left them. *)
Theorem predict_checks_in_order
    (now now' : Z) (data : Data) (matchId : string) (body : PredictBody)
    (ix : nat) (m0 : Match) :
  findMatch matchId data = Some (ix, m0) →
  let m := normalizeMatch now (settings data) m0 in
  let key := inningsKeyOf (b_innings body) in
  let lo := minScore (settings data) in
  let hi := maxScore (settings data) in
  let known := ∃ p, p ∈ players data ∧ id p = b_playerId body in
  let r := predict now now' data matchId body in
  (getBattingTeams m = None → r = (TossNotSet, data))
  ∧ is_Some (inningsOf key m)
  ∧ (∀ i, is_Some (getBattingTeams m) → inningsOf key m = Some i →
       (status i ≠ open → r = (InningsNotOpen, data))
       ∧ (status i = open → isInningsLocked now' (Some i) = true →
            r = (PredictionsLocked, withMatches (<[ix := m]> (matches data)) data))
       ∧ (status i = open → isInningsLocked now' (Some i) = false →
            (¬ known → r = (InvalidPlayer, data))
            ∧ (known →
                 (isFinite (b_score body) = false →
                    r = (ScoreOutOfRange lo hi, data))
                 ∧ (∀ q, b_score body = Fin q →
                      ((q < inject_Z lo)%Q ∨ (inject_Z hi < q)%Q →
                         r = (ScoreOutOfRange lo hi, data))
                      ∧ ((inject_Z lo <= q)%Q → (q <= inject_Z hi)%Q →
                           ∃ m', r = (Ok, withMatches (<[ix := m']> (matches data)) data)
                                 ∧ predictionsOf key m'
                                   = Some (<[b_playerId body := mathRound q]>
                                             (predictionMap key m0))
                                 ∧ (inject_Z (mathRound q) - (1 # 2) <= q)%Q
                                 ∧ (q < inject_Z (mathRound q) + (1 # 2))%Q
                                 ∧ (∀ k', k' ≠ key →
                                      predictionsOf k' m' = predictionsOf k' m)
                                 ∧ innings1 m' = innings1 m
                                 ∧ innings2 m' = innings2 m
                                 ∧ result m' = result m
                                 ∧ toss m' = toss m)))))
  ∧ r.1 ≠ TypeError.
Proof.
  intros Hf m key lo hi known r. split; [|split; [|split]].
  - intros Hb. subst r. unfold predict. rewrite Hf. fold m. by rewrite Hb.
  - unfold m. destruct key; cbn [inningsOf];
      [rewrite normalizeMatch_innings1 | rewrite normalizeMatch_innings2]; eauto.
  - intros i [bt Hbt] Hi.
    assert (Hr : r = match inningsOf key m with
                     | None => (InningsNotOpen, data)
                     | Some inningsData =>
                         if negb (bool_decide (status inningsData = open)) then
                           (InningsNotOpen, data)
                         else if isInningsLocked now' (Some inningsData) then
                           (PredictionsLocked,
                            withMatches (<[ix := m]> (matches data)) data)
                         else if negb (bool_decide
                                         (Exists (λ p, id p = b_playerId body)
                                            (players data)))
                         then (InvalidPlayer, data)
                         else
                           match b_score body with
                           | Fin q =>
                               if ltZ q lo || gtZ q hi
                               then (ScoreOutOfRange lo hi, data)
                               else
                                 match storePrediction key (b_playerId body)
                                         (mathRound q) m with
                                 | None => (TypeError, data)
                                 | Some m' =>
                                     (Ok, withMatches (<[ix := m']> (matches data)) data)
                                 end
                           | _ => (ScoreOutOfRange lo hi, data)
                           end
                     end).
    { subst r. unfold predict. rewrite Hf. fold m key. by rewrite Hbt. }
    rewrite Hi in Hr.
    assert (Hknown : known ↔ Exists (λ p, id p = b_playerId body) (players data)).
    { unfold known. by rewrite Exists_exists. }
    split; [|split].
    + intros Hs. by rewrite (bool_decide_eq_false_2 _ Hs) in Hr.
    + intros Hs Hl. by rewrite (bool_decide_eq_true_2 _ Hs), Hl in Hr.
    + intros Hs Hl. rewrite (bool_decide_eq_true_2 _ Hs), Hl in Hr.
      cbn [negb] in Hr. split.
      * intros Hk. rewrite bool_decide_eq_false_2 in Hr by (by rewrite <- Hknown).
        exact Hr.
      * intros Hk. rewrite bool_decide_eq_true_2 in Hr by (by rewrite <- Hknown).
        cbn [negb] in Hr. split.
        -- intros Hfin. by destruct (b_score body).
        -- intros q Hq. rewrite Hq in Hr. split.
           ++ intros [Hlt|Hgt].
              ** by rewrite (proj2 (ltZ_true _ _) Hlt) in Hr.
              ** rewrite (proj2 (gtZ_true _ _) Hgt), orb_true_r in Hr. exact Hr.
           ++ intros Hlo Hhi.
              destruct (predict_success now now' data matchId body ix m0 i q
                          Hf (mk_is_Some _ _ Hbt) Hi Hs Hl Hk Hq Hlo Hhi)
                as (m' & Hm' & Hp & Ho & H1 & H2 & H3 & H4).
              exists m'. pose proof (mathRound_nearest q) as [Hn1 Hn2].
              fold m key in Hp, Ho, H1, H2, H3, H4. by repeat split.
  - apply predict_no_TypeError.
Qed.

(** The theorem at the sample room: player [p1] sends 181 for the open first
    innings at time 500, and 181 is stored. *)
Lemma predict_checks_in_order_witness :
  findMatch "m1" (roomOf openMatch) = Some (0%nat, openMatch)
  ∧ ∃ m', predict 500 500 (roomOf openMatch) "m1" (sampleBody (inject_Z 181))
          = (Ok, withMatches (<[0%nat := m']> [openMatch]) (roomOf openMatch))
          ∧ predictionsOf Innings1 m'
            = Some (<["p1" := mathRound (inject_Z 181)]>
                      (predictionMap Innings1 openMatch)).
Proof.
  split; [reflexivity|].
  destruct (predict_checks_in_order 500 500 (roomOf openMatch) "m1"
              (sampleBody (inject_Z 181)) 0 openMatch eq_refl)
    as (_ & _ & H & _).
  destruct (H (mkInnings open (LockAt 1000) None)
              (mk_is_Some _ _ eq_refl) eq_refl) as (_ & _ & H').
  destruct (H' eq_refl eq_refl) as (_ & Hk).
  destruct Hk as (_ & Hq).
  { exists (mkPlayer "p1" "Asha"). split; [left | reflexivity]. }
  destruct (Hq (inject_Z 181) eq_refl) as (_ & Hok).
  destruct Hok as (m' & Hr & Hp & _).
  { vm_compute. discriminate. }
  { vm_compute. discriminate. }
  exists m'. split; [exact Hr | exact Hp].
Defined.

(** C4, as stated, fails: a score that is not an integer, here 100.5, passes
    the range check, and 101 is stored for the player. *)
Lemma predict_accepts_non_integer :
  isInteger (b_score (sampleBody (201 # 2))) = false
  ∧ (predict 500 500 (roomOf openMatch) "m1" (sampleBody (201 # 2))).1 = Ok
  ∧ (m ← matches (predict 500 500 (roomOf openMatch) "m1"
                    (sampleBody (201 # 2))).2 !! 0%nat;
     preds ← predictionsOf Innings1 m; preds !! "p1") = Some 101.
Proof. vm_compute. done. Qed.

Lemma predictionMap_normalizeMatch now st m k :
  predictionMap k (normalizeMatch now st m) = predictionMap k m.
Proof.
  unfold predictionMap. rewrite normalizeMatch_predictions.
  by rewrite normalizePredictions_idem.
Qed.

Lemma isInningsLocked_not_pending now i :
  isInningsLocked now (Some i) = true → status i ≠ pending.
Proof. unfold isInningsLocked. intros H E. rewrite E in H. done. Qed.

Lemma normalizeMatch_inningsOf now st m k :
  status (targetInnings k m) ≠ pending →
  inningsOf k (normalizeMatch now st m) = Some (autoLock now (targetInnings k m)).
Proof.
  intros H. destruct k; cbn [inningsOf targetInnings] in *.
  - apply normalizeMatch_innings1.
  - rewrite normalizeMatch_innings2. rewrite promoteInnings2_id; [done|].
    by intros [_ ?].
Qed.

Lemma isInningsLocked_autoLock now now' i :
  isInningsLocked now (Some i) = true ∨ isInningsLocked now' (Some i) = true →
  status (autoLock now i) ≠ open
  ∨ (status (autoLock now i) = open
     ∧ isInningsLocked now' (Some (autoLock now i)) = true).
Proof.
  unfold autoLock, isInningsLocked. destruct i as [s t sc]; simpl.
  destruct s; simpl; try (by left); try (by intros [|]).
  destruct t; simpl; try (by intros [|]).
  destruct (bool_decide (ms ≤ now)); simpl; [by left|].
  intros [|H]; [done|]. right. by rewrite H.
Qed.

(** C5 (amended). A prediction sent for an innings that is locked or
    scored, or that still reads [open] while its lock time is at or before
    the time of the request, is refused: with "Set the toss before
    predictions." when the batting order is not resolved, which is checked
    first, and otherwise with one of the two 403 answers ("Predictions are
    not open for this innings.", "Predictions are locked."). The state
    persisted is the one read, except that on "Predictions are locked." the
    normalized match is saved; in both cases every match keeps its two
    prediction mappings. *)
Theorem predict_closed_innings_refused
    (now now' : Z) (data : Data) (matchId : string) (body : PredictBody)
    (ix : nat) (m0 : Match) :
  findMatch matchId data = Some (ix, m0) →
  let key := inningsKeyOf (b_innings body) in
  let m := normalizeMatch now (settings data) m0 in
  let r := predict now now' data matchId body in
  isInningsLocked now (Some (targetInnings key m0)) = true
  ∨ isInningsLocked now' (Some (targetInnings key m0)) = true →
  (getBattingTeams m0 = None ∧ r.1 = TossNotSet
   ∨ is_Some (getBattingTeams m0)
     ∧ (r.1 = InningsNotOpen ∨ r.1 = PredictionsLocked))
  ∧ (r.2 = data
     ∨ r.1 = PredictionsLocked
       ∧ r.2 = withMatches (<[ix := m]> (matches data)) data)
  ∧ (∀ k, predictionMap k <$> matches r.2 = predictionMap k <$> matches data).
Proof.
  intros Hf key m r Hlocked.
  assert (Hne : status (targetInnings key m0) ≠ pending).
  { destruct Hlocked as [H|H]; by apply isInningsLocked_not_pending in H. }
  pose proof (normalizeMatch_inningsOf now (settings data) m0 key Hne) as Hi.
  fold m in Hi. apply isInningsLocked_autoLock in Hlocked.
  set (i := autoLock now (targetInnings key m0)) in *.
  assert (Hr : (getBattingTeams m0 = None ∧ r = (TossNotSet, data))
               ∨ (is_Some (getBattingTeams m0)
                  ∧ (r = (InningsNotOpen, data)
                     ∨ r = (PredictionsLocked,
                            withMatches (<[ix := m]> (matches data)) data)))).
  { subst r. unfold predict. rewrite Hf. fold m key.
    change (getBattingTeams m) with (getBattingTeams m0).
    destruct (getBattingTeams m0) as [bt|]; [right|by left].
    split; [done|]. rewrite Hi. destruct Hlocked as [Hs|[Hs Hl]].
    - left. by rewrite (bool_decide_eq_false_2 _ Hs).
    - right. by rewrite (bool_decide_eq_true_2 _ Hs), Hl. }
  destruct Hr as [[Hb ->]|[Hb [->| ->]]]; cbn [fst snd].
  - split; [by left|]. split; [by left|done].
  - split; [right; split; [done|by left]|]. split; [by left|done].
  - split; [right; split; [done|by right]|]. split; [by right|].
    intros k. cbn [matches withMatches]. rewrite list_fmap_insert.
    unfold m. rewrite predictionMap_normalizeMatch.
    apply list_insert_id. rewrite list_lookup_fmap.
    by rewrite (proj1 (findMatch_Some _ _ _ _ Hf)).
Qed.

(** The theorem at the sample room with both innings scored: a prediction
    for the first innings is refused and the room is unchanged. *)
Lemma predict_closed_innings_refused_witness :
  findMatch "m1" (roomOf scoredMatch) = Some (0%nat, scoredMatch)
  ∧ isInningsLocked 500 (Some (targetInnings Innings1 scoredMatch)) = true
  ∧ (predict 500 500 (roomOf scoredMatch) "m1" (sampleBody (inject_Z 181))).1
    = InningsNotOpen
  ∧ (predict 500 500 (roomOf scoredMatch) "m1" (sampleBody (inject_Z 181))).2
    = roomOf scoredMatch.
Proof.
  split; [reflexivity|]. split; [reflexivity|].
  destruct (predict_closed_innings_refused 500 500 (roomOf scoredMatch) "m1"
              (sampleBody (inject_Z 181)) 0 scoredMatch eq_refl
              (or_introl eq_refl)) as (H1 & H2 & _).
  split.
  - destruct H1 as [[H _]|[_ [H|H]]]; [discriminate H | exact H |].
    exfalso. revert H. vm_compute. discriminate.
  - destruct H2 as [H|[H _]]; [exact H |].
    exfalso. revert H. vm_compute. discriminate.
Defined.

(** C5, as stated, fails: with the first innings locked and the toss not
    set, the request is refused with the toss answer, not with one of the
    two answers for an innings that is not open. *)
Lemma predict_locked_without_toss :
  isInningsLocked 500 (innings1 lockedNoTossMatch) = true
  ∧ predict 500 500 (roomOf lockedNoTossMatch) "m1" (sampleBody (inject_Z 181))
    = (TossNotSet, roomOf lockedNoTossMatch)
  ∧ TossNotSet ≠ InningsNotOpen ∧ TossNotSet ≠ PredictionsLocked.
Proof. split; [reflexivity|]. split; [reflexivity|]. split; discriminate. Qed.

(** ** Properties of the reopen handler *)

Section Reopen.
Variable hashPin : string → string.

Lemma clearResult_spec (k : InningsKey) (m : Match) :
  resultOf k (clearResult k m) = None
  ∧ (∀ k', k' ≠ k → resultOf k' (clearResult k m) = resultOf k' m)
  ∧ innings1 (clearResult k m) = innings1 m
  ∧ innings2 (clearResult k m) = innings2 m
  ∧ predictions (clearResult k m) = predictions m
  ∧ toss (clearResult k m) = toss m.
Proof.
  unfold clearResult, resultOf. destruct (result m) as [r|] eqn:E.
  - destruct k; cbn; (split; [done|]); (split; [|done]); by intros [].
  - rewrite E. by destruct k.
Qed.

(** C9 (amended). A reopen request for innings 1 alone, on an existing match
    and with the admin check passed, is answered ok whatever the state of
    the match, and the match saved has innings 1 [open] with no score (and
    its lock time kept) and no stored result for innings 1, while innings 2
    is the one of the normalized match and the stored result of innings 2 is
    the one read. With respect to the match as stored, the score and the
    lock time of innings 2 are unchanged, and so is its status unless the
    normalization the handler starts with moves it (a [pending] innings 2
    opened after a scored innings 1, an [open] one past its lock time); in
    particular a scored innings 2 is left exactly as it was. *)
Theorem reopen_innings1_frame
    (now : Z) (data : Data) (matchId : string) (body : ReopenBody)
    (ix : nat) (m0 : Match) :
  findMatch matchId data = Some (ix, m0) →
  ensureAdmin hashPin data (adminPin body) = true →
  rb_innings body = Some 1 →
  let m := normalizeMatch now (settings data) m0 in
  ∃ m' i1,
    reopen hashPin now data matchId body
    = (Ok, withMatches (<[ix := m']> (matches data)) data)
    ∧ innings1 m = Some i1
    ∧ innings1 m'
      = Some {| status := open; lockTime := lockTime i1; score := None |}
    ∧ resultOf Innings1 m' = None
    ∧ innings2 m' = innings2 m
    ∧ resultOf Innings2 m' = resultOf Innings2 m0
    ∧ predictions m' = predictions m
    ∧ toss m' = toss m0
    ∧ (∀ i2, innings2 m0 = Some i2 →
         ∃ i2', innings2 m' = Some i2'
                ∧ score i2' = score i2 ∧ lockTime i2' = lockTime i2
                ∧ (¬ (status i2 = pending ∧ status (legacyInnings1 m0) = scored) →
                   ¬ (status i2 = open ∧ lockPassed now (lockTime i2) = true) →
                   status i2' = status i2))
    ∧ (∀ i2, innings2 m0 = Some i2 → status i2 = scored →
         innings2 m' = Some i2).
Proof.
  intros Hf Hadmin Hbody m.
  pose proof (normalizeMatch_innings1 now (settings data) m0) as H1.
  pose proof (normalizeMatch_innings2 now (settings data) m0) as H2.
  fold m in H1, H2.
  set (i1 := autoLock now (legacyInnings1 m0)) in *.
  set (m' := clearResult Innings1
               (withInningsOf Innings1 (setScore None (setStatus open i1)) m)).
  exists m', i1.
  destruct (clearResult_spec Innings1
              (withInningsOf Innings1 (setScore None (setStatus open i1)) m))
    as (Hc1 & Hc2 & Hc3 & Hc4 & Hc5 & Hc6). fold m' in Hc1, Hc2, Hc3, Hc4, Hc5, Hc6.
  assert (Hi2 : innings2 m' = innings2 m) by exact Hc4.
  split; [|split; [done|split; [|split; [|split; [done|split; [|split; [|split; [|split]]]]]]]].
  - unfold reopen. rewrite Hf, Hadmin, Hbody. cbn [negb Z.eqb].
    rewrite bool_decide_eq_true_2 by (by left).
    cbn [inningsKeyOf inningsOf]. fold m. by rewrite H1.
  - exact Hc3.
  - exact Hc1.
  - by rewrite (Hc2 Innings2).
  - exact Hc5.
  - exact Hc6.
  - intros i2 E. rewrite Hi2, H2. eexists. split; [done|].
    rewrite autoLock_score, autoLock_lockTime, autoLock_status,
      promoteInnings2_score, promoteInnings2_lockTime, promoteInnings2_status.
    unfold legacyInnings2. rewrite E. split; [done|]. split; [done|].
    intros Hp Ho.
    destruct (bool_decide (status (legacyInnings1 m0) = scored)) eqn:E1;
      destruct (bool_decide (status i2 = pending)) eqn:E2; cbn [andb].
    + apply bool_decide_eq_true in E1, E2. by destruct Hp.
    + destruct (bool_decide (status i2 = open)) eqn:E3; [|done].
      destruct (lockPassed now (lockTime i2)) eqn:E4; [|done].
      apply bool_decide_eq_true in E3. by destruct Ho.
    + apply bool_decide_eq_true in E2. rewrite E2. done.
    + destruct (bool_decide (status i2 = open)) eqn:E3; [|done].
      destruct (lockPassed now (lockTime i2)) eqn:E4; [|done].
      apply bool_decide_eq_true in E3. by destruct Ho.
  - intros i2 E Hs. rewrite Hi2, H2. f_equal.
    unfold legacyInnings2. rewrite E.
    rewrite promoteInnings2_id by (intros [_ ?]; congruence).
    unfold autoLock. by rewrite Hs.
Qed.

End Reopen.

(** The theorem at the sample room with both innings scored: after the
    reopening of innings 1, innings 2 and its stored result are as before. *)
Lemma reopen_innings1_frame_witness :
  findMatch "m1" (roomOf scoredMatch) = Some (0%nat, scoredMatch)
  ∧ ensureAdmin (λ pin, pin) (roomOf scoredMatch) (adminPin reopenInnings1) = true
  ∧ ∃ m', (reopen (λ pin, pin) 20000 (roomOf scoredMatch) "m1" reopenInnings1).1 = Ok
          ∧ innings1 m' = Some (mkInnings open (LockAt 1000) None)
          ∧ innings2 m' = Some (mkInnings scored (LockAt 9000) (Some 175))
          ∧ resultOf Innings1 m' = None
          ∧ resultOf Innings2 m' = Some (mkResult ["p2"] (Some 5)).
Proof.
  split; [reflexivity|]. split; [reflexivity|].
  destruct (reopen_innings1_frame (λ pin, pin) 20000 (roomOf scoredMatch) "m1"
              reopenInnings1 0 scoredMatch eq_refl eq_refl eq_refl)
    as (m' & i1 & Hr & H1 & H1' & Hr1 & _ & Hr2 & _ & _ & _ & Hs).
  exists m'. split; [by rewrite Hr|].
  injection H1 as <-. split; [exact H1'|].
  split; [exact (Hs _ eq_refl eq_refl)|]. split; [exact Hr1 | exact Hr2].
Defined.

(** C9, as stated, fails: the second innings is stored open until time
    9000; a reopen request for innings 1 at time 20000 saves it locked. *)
Lemma reopen_innings1_locks_innings2 :
  innings2 secondInningsOpen = Some (mkInnings open (LockAt 9000) None)
  ∧ (reopen (λ pin, pin) 20000 (roomOf secondInningsOpen) "m1"
       reopenInnings1).1 = Ok
  ∧ innings2 <$> matches (reopen (λ pin, pin) 20000 (roomOf secondInningsOpen)
                            "m1" reopenInnings1).2
    = [Some (mkInnings locked (LockAt 9000) None)].
Proof. by vm_compute. Qed.

(** ** The sort of the scoreboard *)

Section Sorting.
Context {A : Type} (cmp : A → A → Z).

Hypothesis cmp_total : ∀ a b, 0 < cmp a b → cmp b a ≤ 0.
Hypothesis cmp_trans : ∀ a b c, cmp a b ≤ 0 → cmp b c ≤ 0 → cmp a c ≤ 0.

Lemma insertBy_Permutation (x : A) (l : list A) : insertBy cmp x l ≡ₚ x :: l.
Proof.
  induction l as [|y l IH]; simpl; [done|].
  case_bool_decide; [done|]. rewrite IH. apply Permutation_swap.
Qed.

Lemma arraySort_Permutation (l : list A) : arraySort cmp l ≡ₚ l.
Proof.
  induction l as [|x l IH]; simpl; [done|].
  rewrite insertBy_Permutation. by rewrite IH.
Qed.

Lemma insertBy_sorted (x : A) (l : list A) :
  StronglySorted (mayPrecede cmp) l →
  StronglySorted (mayPrecede cmp) (insertBy cmp x l).
Proof.
  induction 1 as [|y l Hs IH Hy]; simpl.
  - repeat constructor.
  - case_bool_decide as Hxy.
    + constructor; [by constructor|]. constructor; [done|].
      eapply Forall_impl; [exact Hy|]. intros z Hz. by eapply cmp_trans.
    + constructor; [done|].
      rewrite insertBy_Permutation. constructor; [|done].
      apply cmp_total. lia.
Qed.

Lemma arraySort_sorted (l : list A) :
  StronglySorted (mayPrecede cmp) (arraySort cmp l).
Proof.
  induction l as [|x l IH]; simpl; [constructor|]. by apply insertBy_sorted.
Qed.

End Sorting.

Lemma StronglySorted_lookup_lt {A} (R : relation A) (l : list A) i j a b :
  StronglySorted R l → (i < j)%nat →
  l !! i = Some a → l !! j = Some b → R a b.
Proof.
  intros Hs. revert i j. induction Hs as [|x l Hs IH Hx]; intros i j Hij Hi Hj.
  - done.
  - destruct j as [|j]; [lia|]. destruct i as [|i]; simpl in *.
    + injection Hi as <-. rewrite Forall_forall in Hx. apply Hx.
      by eapply list_elem_of_lookup_2.
    + apply (IH i j); [lia|done..].
Qed.

(** ** Properties of the accumulation *)

Lemma Stat_eq (r1 r2 : Stat) :
  playerId r1 = playerId r2 → s_name r1 = s_name r2 → wins r1 = wins r2 →
  exactHits r1 = exactHits r2 → points r1 = points r2 →
  totalDiff r1 = totalDiff r2 → s_predictions r1 = s_predictions r2 →
  scoredMatches r1 = scoredMatches r2 → r1 = r2.
Proof. destruct r1, r2; simpl; intros; by subst. Qed.

Lemma mapGet_mapUpdate k k' f m :
  mapGet k (mapUpdate k' f m)
  = if bool_decide (k' = k) then f <$> mapGet k m else mapGet k m.
Proof.
  induction m as [|[k0 v0] m IH]; simpl; [by case_bool_decide|].
  destruct (decide (k0 = k')) as [->|Hne].
  - rewrite (bool_decide_eq_true_2 (k' = k')) by done. simpl.
    by case_bool_decide.
  - rewrite (bool_decide_eq_false_2 (k0 = k')) by done. simpl. rewrite IH.
    repeat case_bool_decide; congruence.
Qed.

Lemma mapGet_mapSet k k' v m :
  mapGet k (mapSet k' v m)
  = if bool_decide (k' = k) then Some v else mapGet k m.
Proof.
  induction m as [|[k0 v0] m IH]; simpl; [done|].
  destruct (decide (k0 = k')) as [->|Hne].
  - rewrite (bool_decide_eq_true_2 (k' = k')) by done. simpl.
    by case_bool_decide.
  - rewrite (bool_decide_eq_false_2 (k0 = k')) by done. simpl. rewrite IH.
    repeat case_bool_decide; congruence.
Qed.

Lemma mapGet_elem_of k r m : mapGet k m = Some r → (k, r) ∈ m.
Proof.
  induction m as [|[k0 v0] m IH]; simpl; [done|].
  case_bool_decide as E.
  - intros [= ->]. subst. left.
  - intros H. right. by apply IH.
Qed.

Lemma entries_cons sc preds p ps :
  entries sc preds (p :: ps)
  = match preds !! id p with
    | None => entries sc preds ps
    | Some prediction => (id p, Z.abs (prediction - sc)) :: entries sc preds ps
    end.
Proof. unfold entries. simpl. by destruct (preds !! id p). Qed.

(** The first loop collects the entries of [computeInningsResult] and
    updates one row per entry. *)
Lemma diffLoop_entries sc preds ps stats :
  diffLoop sc preds ps stats
  = (foldl (λ st e, mapUpdate e.1 (addDiff e.2) st) stats (entries sc preds ps),
     entries sc preds ps).
Proof.
  unfold diffLoop.
  enough (H : ∀ st ds,
    foldl (λ acc player,
             match preds !! id player with
             | None => acc
             | Some prediction =>
                 let diff := Z.abs (prediction - sc) in
                 (mapUpdate (id player) (addDiff diff) acc.1,
                  acc.2 ++ [(id player, diff)])
             end) (st, ds) ps
    = (foldl (λ st e, mapUpdate e.1 (addDiff e.2) st) st (entries sc preds ps),
       ds ++ entries sc preds ps)) by apply H.
  induction ps as [|p ps IH]; intros st ds.
  - simpl. by rewrite app_nil_r.
  - rewrite entries_cons. cbn [foldl].
    destruct (preds !! id p) as [v|]; cbn [foldl fst snd].
    + rewrite IH. by rewrite <- app_assoc.
    + apply IH.
Qed.

Lemma diffLoop_lookup k es stats :
  mapGet k (foldl (λ st e, mapUpdate e.1 (addDiff e.2) st) stats es)
  = foldl (λ o e, if bool_decide (e.1 = k) then addDiff e.2 <$> o else o)
          (mapGet k stats) es.
Proof.
  revert stats. induction es as [|e es IH]; intros stats; simpl; [done|].
  by rewrite IH, mapGet_mapUpdate.
Qed.

Lemma winLoop_lookup bonus ws k es stats :
  mapGet k (winLoop bonus ws es stats)
  = foldl (λ o e, if bool_decide (e.1 = k)
                  then (if bool_decide (k ∈ ws) then addWin bonus e.2 <$> o else o)
                  else o)
          (mapGet k stats) es.
Proof.
  unfold winLoop. revert stats.
  induction es as [|e es IH]; intros stats; simpl; [done|].
  rewrite IH. f_equal. destruct (decide (e.1 = k)) as [<-|Hne].
  - rewrite (bool_decide_eq_true_2 (e.1 = e.1)) by done.
    destruct (bool_decide (e.1 ∈ ws)); [|done]. rewrite mapGet_mapUpdate.
    by rewrite bool_decide_eq_true_2.
  - rewrite (bool_decide_eq_false_2 (e.1 = k)) by done.
    destruct (bool_decide (e.1 ∈ ws)); [|done]. rewrite mapGet_mapUpdate.
    by rewrite bool_decide_eq_false_2.
Qed.

(** With pairwise distinct player ids, a fold over the entries that acts on
    the entries of key [k] acts once, on the entry of the player [k], if
    there is one. *)
Lemma foldl_entries_key {B} (G : Z → B → B) sc preds ps k (o : B) :
  NoDup (id <$> ps) →
  foldl (λ o e, if bool_decide (e.1 = k) then G e.2 o else o) o
        (entries sc preds ps)
  = if bool_decide (k ∈ id <$> ps)
    then match preds !! k with
         | Some v => G (Z.abs (v - sc)) o
         | None => o
         end
    else o.
Proof.
  revert o. induction ps as [|p ps IH]; intros o Hnd.
  - rewrite bool_decide_eq_false_2; [done|]. by intros ?%elem_of_nil.
  - rewrite fmap_cons in Hnd. apply NoDup_cons in Hnd as [Hp Hnd].
    rewrite entries_cons, fmap_cons. destruct (decide (id p = k)) as [<-|Hne].
    + rewrite (bool_decide_eq_true_2 (id p ∈ id p :: _)) by left.
      destruct (preds !! id p) as [v|]; simpl.
      * rewrite (bool_decide_eq_true_2 (id p = id p)) by done.
        rewrite IH by done. by rewrite bool_decide_eq_false_2.
      * rewrite IH by done. by rewrite bool_decide_eq_false_2.
    + assert (Hiff : bool_decide (k ∈ id p :: (id <$> ps))
                     = bool_decide (k ∈ id <$> ps)).
      { apply bool_decide_ext. rewrite elem_of_cons. split; [|by right].
        by intros [->|?]. }
      rewrite Hiff. destruct (preds !! id p) as [v|]; simpl.
      * rewrite (bool_decide_eq_false_2 (id p = k)) by done. by apply IH.
      * by apply IH.
Qed.

(** One innings: the row of a listed player gets the contribution of the
    innings. *)
Lemma scoreInnings_lookup data m key k stats :
  NoDup (id <$> players data) → k ∈ id <$> players data →
  mapGet k (scoreInnings data m key stats)
  = contribution data m key k <$> mapGet k stats.
Proof.
  intros Hnd Hk. unfold scoreInnings, contribution.
  destruct (scoredScore key m) as [sc|]; [|by destruct (mapGet k stats)].
  rewrite diffLoop_entries, winLoop_lookup, diffLoop_lookup.
  rewrite (foldl_entries_key
             (λ d o, if bool_decide (k ∈ winnerSetFor data m key sc)
                     then addWin (bonusExact (settings data)) d <$> o else o))
    by done.
  rewrite (foldl_entries_key (λ d o, addDiff d <$> o)) by done.
  rewrite (bool_decide_eq_true_2 _ Hk).
  destruct (default ∅ (predictionsOf key m) !! k) as [v|];
    [|by destruct (mapGet k stats)].
  destruct (mapGet k stats) as [r|]; [|by case_bool_decide].
  cbn zeta. destruct (bool_decide (k ∈ winnerSetFor data m key sc)); simpl;
    f_equal; apply Stat_eq; simpl; try lia; try reflexivity.
  destruct (decide (Z.abs (v - sc) = 0)) as [E|E].
  - rewrite (bool_decide_eq_true_2 _ E).
    destruct (decide (0 < bonusExact (settings data))) as [Hb|Hb].
    + rewrite (bool_decide_eq_true_2 _ Hb). simpl.
      rewrite bool_decide_eq_true_2 by done. lia.
    + rewrite (bool_decide_eq_false_2 _ Hb). simpl.
      rewrite bool_decide_eq_false_2 by (by intros [_ ?]). lia.
  - rewrite (bool_decide_eq_false_2 _ E). simpl.
    rewrite bool_decide_eq_false_2 by (by intros [? _]). lia.
Qed.

Lemma initialStats_lookup (ps : list Player) (p : Player) :
  NoDup (id <$> ps) → p ∈ ps →
  mapGet (id p) (initialStats ps) = Some (initStat p).
Proof.
  unfold initialStats. generalize (@nil (string * Stat)).
  induction ps as [|q ps IH]; intros st Hnd Hp; [by apply elem_of_nil in Hp|].
  rewrite fmap_cons in Hnd. apply NoDup_cons in Hnd as [Hq Hnd]. simpl.
  apply elem_of_cons in Hp as [->|Hp]; [|by apply IH].
  assert (Hkeep : ∀ st', mapGet (id q)
            (foldl (λ stats player, mapSet (id player) (initStat player) stats)
                   st' ps) = mapGet (id q) st').
  { clear IH Hnd. induction ps as [|x ps IH]; intros st'; simpl; [done|].
    rewrite IH.
    - rewrite mapGet_mapSet. rewrite bool_decide_eq_false_2; [done|].
      intros E. apply Hq. rewrite fmap_cons, E. left.
    - intros H. apply Hq. rewrite fmap_cons. by right. }
  rewrite Hkeep, mapGet_mapSet. by rewrite bool_decide_eq_true_2.
Qed.

Lemma accumulate_allInnings (data : Data) :
  accumulate data
  = foldl (λ stats mk, scoreInnings data mk.1 mk.2 stats)
          (initialStats (players data)) (allInnings data).
Proof.
  unfold accumulate, allInnings. generalize (initialStats (players data)).
  induction (matches data) as [|m ms IH]; intros st; simpl; [done|].
  by rewrite IH.
Qed.

Lemma foldl_scoreInnings_lookup data k l stats :
  NoDup (id <$> players data) → k ∈ id <$> players data →
  mapGet k (foldl (λ stats mk, scoreInnings data mk.1 mk.2 stats) stats l)
  = foldl (λ o mk, contribution data mk.1 mk.2 k <$> o) (mapGet k stats) l.
Proof.
  intros Hnd Hk. revert stats.
  induction l as [|mk l IH]; intros stats; simpl; [done|].
  by rewrite IH, scoreInnings_lookup.
Qed.

Lemma foldl_fmap_Some {X} (f : X → Stat → Stat) (l : list X) (r : Stat) :
  foldl (λ o x, f x <$> o) (Some r) l = Some (foldl (λ r x, f x r) r l).
Proof. revert r. induction l as [|x l IH]; intros r; simpl; [done|apply IH]. Qed.

Lemma accumulate_lookup (data : Data) (p : Player) :
  NoDup (id <$> players data) → p ∈ players data →
  mapGet (id p) (accumulate data)
  = Some (foldl (λ row mk, contribution data mk.1 mk.2 (id p) row)
                (initStat p) (allInnings data)).
Proof.
  intros Hnd Hp. rewrite accumulate_allInnings.
  rewrite foldl_scoreInnings_lookup by (done || by apply list_elem_of_fmap_2).
  rewrite initialStats_lookup by done. apply foldl_fmap_Some.
Qed.

Lemma contribution_playerId data m k pid row :
  playerId (contribution data m k pid row) = playerId row.
Proof. unfold contribution. by repeat case_match. Qed.

Lemma foldl_contribution_playerId data pid (l : list (Match * InningsKey)) row :
  playerId (foldl (λ row mk, contribution data mk.1 mk.2 pid row) row l)
  = playerId row.
Proof.
  revert row. induction l as [|mk l IH]; intros row; simpl; [done|].
  by rewrite IH, contribution_playerId.
Qed.

(** *** Rooms in which several players carry one id *)

Lemma iter_commute {A} (f g : A → A) n x :
  (∀ y, f (g y) = g (f y)) → Nat.iter n f (g x) = g (Nat.iter n f x).
Proof. intros H. induction n as [|n IH]; simpl; [done|]. by rewrite IH, H. Qed.

Lemma iter_ext {A} (f g : A → A) n x :
  (∀ y, f y = g y) → Nat.iter n f x = Nat.iter n g x.
Proof. intros H. induction n as [|n IH]; simpl; [done|]. by rewrite IH, H. Qed.

Lemma iter_fixed {A} (f : A → A) n x : (∀ y, f y = y) → Nat.iter n f x = x.
Proof. intros H. induction n as [|n IH]; simpl; [done|]. by rewrite IH, H. Qed.

Lemma iter_fmap {A} (f : A → A) n (o : option A) :
  Nat.iter n (fmap f) o = Nat.iter n f <$> o.
Proof.
  induction n as [|n IH]; simpl; [by destruct o|].
  rewrite IH. by destruct o.
Qed.

(** A fold over the entries that acts on the entries of key [k] acts once
    for every listed player with the id [k], when [k] has a prediction. *)
Lemma foldl_entries_count {B} (G : Z → B → B) sc preds ps k (o : B) :
  foldl (λ o e, if bool_decide (e.1 = k) then G e.2 o else o) o
        (entries sc preds ps)
  = match preds !! k with
    | Some v => Nat.iter (length (playersWithId k ps)) (G (Z.abs (v - sc))) o
    | None => o
    end.
Proof.
  revert o. induction ps as [|p ps IH]; intros o.
  - cbn. by destruct (preds !! k).
  - rewrite entries_cons. unfold playersWithId in *. rewrite filter_cons.
    destruct (decide (id p = k)) as [E|Hne].
    + subst k. destruct (preds !! id p) as [v|] eqn:Ev; cbn [foldl fst snd].
      * rewrite bool_decide_eq_true_2 by done. rewrite IH.
        cbn [length]. by rewrite Nat.iter_succ_r.
      * by rewrite IH.
    + destruct (preds !! id p) as [v|] eqn:Ev; cbn [foldl fst snd].
      * rewrite bool_decide_eq_false_2 by done. apply IH.
      * apply IH.
Qed.

Lemma addWin_addDiff_iter bonus d n r :
  Nat.iter n (addWin bonus d) (Nat.iter n (addDiff d) r)
  = Nat.iter n (λ r, addWin bonus d (addDiff d r)) r.
Proof.
  induction n as [|n IH]; simpl; [done|].
  rewrite (iter_commute (addWin bonus d) (addDiff d)); [by rewrite IH|].
  intros y. by apply Stat_eq.
Qed.

(** One innings: the row of the id [k] gets the contribution of the innings
    once for every player with that id. *)
Lemma scoreInnings_lookup_count data m key k stats :
  mapGet k (scoreInnings data m key stats)
  = Nat.iter (length (playersWithId k (players data)))
             (contribution data m key k) <$> mapGet k stats.
Proof.
  unfold scoreInnings.
  destruct (scoredScore key m) as [sc|] eqn:Hsc.
  2:{ destruct (mapGet k stats) as [r|]; [|done]. cbn. f_equal. symmetry.
      apply iter_fixed. intros y. unfold contribution. by rewrite Hsc. }
  rewrite diffLoop_entries, winLoop_lookup, diffLoop_lookup.
  rewrite (foldl_entries_count
             (λ d o, if bool_decide (k ∈ winnerSetFor data m key sc)
                     then addWin (bonusExact (settings data)) d <$> o else o)).
  rewrite (foldl_entries_count (λ d o, addDiff d <$> o)).
  destruct (default ∅ (predictionsOf key m) !! k) as [v|] eqn:Hv.
  2:{ destruct (mapGet k stats) as [r|]; [|done]. cbn. f_equal. symmetry.
      apply iter_fixed. intros y. unfold contribution. by rewrite Hsc, Hv. }
  set (n := length (playersWithId k (players data))).
  set (d := Z.abs (v - sc)).
  rewrite (iter_fmap (addDiff d)).
  destruct (mapGet k stats) as [r|]; cbn [fmap option_fmap option_map].
  2:{ destruct (bool_decide (k ∈ winnerSetFor data m key sc)).
      - by rewrite (iter_fmap (addWin (bonusExact (settings data)) d)).
      - by apply iter_fixed. }
  destruct (bool_decide (k ∈ winnerSetFor data m key sc)) eqn:Hw.
  - rewrite (iter_fmap (addWin (bonusExact (settings data)) d)).
    cbn [fmap option_fmap option_map]. f_equal.
    rewrite addWin_addDiff_iter. apply iter_ext. intros y.
    unfold contribution. rewrite Hsc, Hv, Hw. fold d.
    apply Stat_eq; cbn; try reflexivity; try lia.
    destruct (decide (d = 0)) as [E|E].
    + rewrite (bool_decide_eq_true_2 _ E).
      destruct (decide (0 < bonusExact (settings data))) as [Hb|Hb].
      * rewrite (bool_decide_eq_true_2 _ Hb). cbn.
        rewrite bool_decide_eq_true_2 by done. lia.
      * rewrite (bool_decide_eq_false_2 _ Hb). cbn.
        rewrite bool_decide_eq_false_2 by (by intros [_ ?]). lia.
    + rewrite (bool_decide_eq_false_2 _ E). cbn.
      rewrite bool_decide_eq_false_2 by (by intros [? _]). lia.
  - rewrite (iter_fixed (λ o : option Stat, o)) by done. f_equal.
    apply iter_ext. intros y. unfold contribution. rewrite Hsc, Hv, Hw.
    fold d. apply Stat_eq; cbn; try reflexivity; lia.
Qed.

(** The row [stats.set] leaves under an id is the one of the last player
    with that id. *)
Lemma initialStats_lookup_last (ps : list Player) k :
  mapGet k (initialStats ps) = initStat <$> last (playersWithId k ps).
Proof.
  unfold initialStats.
  enough (H : ∀ st,
    mapGet k (foldl (λ stats player,
                       mapSet (id player) (initStat player) stats) st ps)
    = match last (playersWithId k ps) with
      | Some q => Some (initStat q)
      | None => mapGet k st
      end).
  { rewrite H. by destruct (last _). }
  induction ps as [|p ps IH]; intros st; [done|].
  cbn [foldl]. rewrite IH. unfold playersWithId in *. rewrite filter_cons.
  rewrite mapGet_mapSet.
  destruct (decide (id p = k)) as [E|Hne].
  - rewrite last_cons, (bool_decide_eq_true_2 _ E).
    by destruct (last (filter _ ps)).
  - rewrite (bool_decide_eq_false_2 _ Hne). done.
Qed.

Lemma foldl_scoreInnings_lookup_count data k l stats :
  mapGet k (foldl (λ stats mk, scoreInnings data mk.1 mk.2 stats) stats l)
  = foldl (λ o mk, Nat.iter (length (playersWithId k (players data)))
                            (contribution data mk.1 mk.2 k) <$> o)
          (mapGet k stats) l.
Proof.
  revert stats. induction l as [|mk l IH]; intros stats; simpl; [done|].
  by rewrite IH, scoreInnings_lookup_count.
Qed.

Lemma accumulate_lookup_count (data : Data) k :
  mapGet k (accumulate data)
  = (λ q, foldl (λ row mk,
                   Nat.iter (length (playersWithId k (players data)))
                            (contribution data mk.1 mk.2 k) row)
                (initStat q) (allInnings data))
    <$> last (playersWithId k (players data)).
Proof.
  rewrite accumulate_allInnings, foldl_scoreInnings_lookup_count.
  rewrite initialStats_lookup_last.
  destruct (last _) as [q|]; cbn [fmap option_fmap option_map].
  - apply (foldl_fmap_Some
             (λ mk, Nat.iter (length (playersWithId k (players data)))
                             (contribution data mk.1 mk.2 k))).
  - induction (allInnings data) as [|mk l IH]; [done|]. exact IH.
Qed.

Lemma playersWithId_NoDup (ps : list Player) (p : Player) :
  NoDup (id <$> ps) → p ∈ ps → playersWithId (id p) ps = [p].
Proof.
  unfold playersWithId. induction ps as [|q ps IH]; intros Hnd Hp.
  - by apply elem_of_nil in Hp.
  - rewrite fmap_cons in Hnd. apply NoDup_cons in Hnd as [Hq Hnd].
    rewrite filter_cons. apply elem_of_cons in Hp as [->|Hp].
    + rewrite decide_True by done. f_equal.
      clear IH Hnd. induction ps as [|x ps IH]; [done|].
      rewrite fmap_cons, not_elem_of_cons in Hq. destruct Hq as [Hx Hq].
      rewrite filter_cons, decide_False by done. by apply IH.
    + rewrite decide_False; [by apply IH|].
      intros E. apply Hq. rewrite E. by apply list_elem_of_fmap_2.
Qed.

(** *** The words of the specification *)

(** The winners [computeInningsResult] names are listed players with a
    prediction. *)
Lemma computeInningsResult_winners sc preds ps r pid :
  computeInningsResult (Some sc) preds ps = Some r → pid ∈ winners r →
  ∃ p v, p ∈ ps ∧ id p = pid ∧ preds !! pid = Some v.
Proof.
  unfold computeInningsResult.
  destruct (entries sc preds ps) as [|e es] eqn:E; intros [= <-]; simpl.
  - by intros ?%elem_of_nil.
  - intros ([pid' d] & -> & Hin)%list_elem_of_fmap.
    apply list_elem_of_filter in Hin as [_ Hin]. rewrite <- E in Hin.
    apply elem_of_entries in Hin as (p & v & ? & ? & ? & _). eauto.
Qed.

(** In a room whose stored winners predicted, every id of the winner set of
    a scored innings has a prediction for it, the winners being computed
    where none are stored. *)
Lemma winnerSetFor_predicted data m k sc pid :
  storedWinnersPredicted data → m ∈ matches data →
  scoredScore k m = Some sc → pid ∈ winnerSetFor data m k sc →
  is_Some (default ∅ (predictionsOf k m) !! pid).
Proof.
  intros Hs Hm Hsc. unfold winnerSetFor, resultFor.
  rewrite elem_of_list_to_set.
  destruct (resultOf k m) as [r|] eqn:Hr.
  - intros Hin. by apply (Hs m k sc r pid).
  - destruct (computeInningsResult _ _ _) as [r|] eqn:Hc;
      [|by intros ?%elem_of_nil].
    intros Hin.
    destruct (computeInningsResult_winners _ _ _ _ _ Hc Hin)
      as (_ & v & _ & _ & Hv).
    by exists v.
Qed.

(** For an id whose membership in the winner set comes with a prediction,
    the words of the specification and the loops of the code add the same
    to a row. *)
Lemma claimedContribution_contribution data m k pid row :
  (∀ sc, scoredScore k m = Some sc → pid ∈ winnerSetFor data m k sc →
         is_Some (default ∅ (predictionsOf k m) !! pid)) →
  claimedContribution data m k pid row = contribution data m k pid row.
Proof.
  intros H. unfold claimedContribution, contribution.
  destruct (scoredScore k m) as [sc|]; [|done]. specialize (H sc eq_refl).
  destruct (default ∅ (predictionsOf k m) !! pid) as [v|] eqn:Hv;
    cbn [fmap option_fmap option_map default].
  - apply Stat_eq; cbn; try reflexivity.
    + f_equal. apply (f_equal (λ b : bool, if b then 1 else 0)).
      apply bool_decide_ext. split; [by intros [= ->]|by intros ->].
    + f_equal. destruct (bool_decide (pid ∈ _)); [|done]. f_equal.
      apply (f_equal (λ b : bool, if b then _ else 0)).
      apply bool_decide_ext.
      split; [by intros [[= ->] ?]|by intros [-> ?]].
  - rewrite bool_decide_eq_false_2.
    + rewrite (bool_decide_eq_false_2 (None = Some 0)) by done.
      apply Stat_eq; cbn; try reflexivity; lia.
    + intros Hin. by destruct (H Hin).
Qed.

Lemma allInnings_match data m k : (m, k) ∈ allInnings data → m ∈ matches data.
Proof.
  unfold allInnings. rewrite list_elem_of_bind.
  intros (m' & Hin & Hm'). apply elem_of_cons in Hin as [[= -> _]|Hin]; [done|].
  by apply list_elem_of_singleton in Hin as [= -> _].
Qed.

Lemma foldl_iter_claimed data pid n (l : list (Match * InningsKey)) row :
  storedWinnersPredicted data →
  (∀ mk, mk ∈ l → mk.1 ∈ matches data) →
  foldl (λ row mk, Nat.iter n (claimedContribution data mk.1 mk.2 pid) row) row l
  = foldl (λ row mk, Nat.iter n (contribution data mk.1 mk.2 pid) row) row l.
Proof.
  intros Hs. revert row. induction l as [|mk l IH]; intros row Hl; [done|].
  cbn [foldl]. rewrite IH by (intros; apply Hl; by right). f_equal.
  apply iter_ext. intros y. apply claimedContribution_contribution.
  intros sc Hsc. apply (winnerSetFor_predicted data mk.1 mk.2 sc pid Hs);
    [|done]. apply Hl. left.
Qed.

Lemma foldl_iter_one {A B} (f : B → A → A) (l : list B) (x : A) :
  foldl (λ x b, Nat.iter 1 (f b) x) x l = foldl (λ x b, f b x) x l.
Proof. revert x. induction l as [|b l IH]; intros x; [done|apply IH]. Qed.

Lemma iter_contribution_name data m k pid n row :
  playerId (Nat.iter n (contribution data m k pid) row) = playerId row
  ∧ s_name (Nat.iter n (contribution data m k pid) row) = s_name row.
Proof.
  induction n as [|n [IH1 IH2]]; [done|]. cbn [Nat.iter].
  rewrite <- IH1, <- IH2. unfold contribution. by repeat case_match.
Qed.

Lemma foldl_iter_contribution_name data pid n
    (l : list (Match * InningsKey)) row :
  playerId (foldl (λ row mk, Nat.iter n (contribution data mk.1 mk.2 pid) row)
                  row l) = playerId row
  ∧ s_name (foldl (λ row mk, Nat.iter n (contribution data mk.1 mk.2 pid) row)
                  row l) = s_name row.
Proof.
  revert row. induction l as [|mk l IH]; intros row; [done|]. cbn [foldl].
  destruct (IH (Nat.iter n (contribution data mk.1 mk.2 pid) row)) as [-> ->].
  apply iter_contribution_name.
Qed.

Section Accumulation.
Variable localeCompare : string → string → Z.

(** C2. In a room whose stored results name winners that predicted (as the
    results the engine stores do), the row of a player on the scoreboard is
    the initial row, all counters 0, to which every innings of every match
    has added what the specification says: nothing for an innings that is
    not scored or has no score; otherwise, for a player with a prediction,
    the distance [|prediction - score|] to [totalDiff], 1 to the prediction
    count and 1 to [exactHits] on distance 0, and for a player of the winner
    set 1 to [wins] and 1 to [points], plus [bonusExact] when the distance
    of that player is 0 and [bonusExact] is positive. Rows are kept by id:
    players that share an id share a row, which carries the name of the
    last of them and gets the addition once for each of them; with pairwise
    distinct ids every player has a row of their own. *)
Theorem buildScoreboard_accumulates (data : Data) (p : Player) :
  storedWinnersPredicted data → p ∈ players data →
  let same := playersWithId (id p) (players data) in
  ∃ (row : Row) (q : Player),
    row ∈ buildScoreboard localeCompare data
    ∧ last same = Some q
    ∧ playerId row = id p ∧ s_name row = name q
    ∧ stat row
      = foldl (λ row mk,
                 Nat.iter (length same)
                          (claimedContribution data mk.1 mk.2 (id p)) row)
              (initStat q) (allInnings data)
    ∧ (NoDup (id <$> players data) →
       q = p
       ∧ stat row
         = foldl (λ row mk, claimedContribution data mk.1 mk.2 (id p) row)
                 (initStat p) (allInnings data)).
Proof.
  intros Hs Hp same.
  pose proof (accumulate_lookup_count data (id p)) as H. fold same in H.
  assert (Hne : same ≠ []).
  { intros E. assert (Hin : p ∈ same)
      by (apply list_elem_of_filter; by split).
    rewrite E in Hin. by apply elem_of_nil in Hin. }
  destruct (last same) as [q|] eqn:Hq;
    [|apply last_None in Hq; contradiction].
  cbn [fmap option_fmap option_map] in H. apply mapGet_elem_of in H.
  set (r := foldl (λ row mk,
                     Nat.iter (length same) (contribution data mk.1 mk.2 (id p))
                              row) (initStat q) (allInnings data)) in *.
  assert (Hr : r = foldl (λ row mk,
                            Nat.iter (length same)
                              (claimedContribution data mk.1 mk.2 (id p)) row)
                         (initStat q) (allInnings data)).
  { unfold r. symmetry. apply foldl_iter_claimed; [done|].
    intros [m k] Hmk. by apply (allInnings_match data m k). }
  pose proof (foldl_iter_contribution_name data (id p) (length same)
                (allInnings data) (initStat q)) as Hfix.
  assert (Hid : id q = id p).
  { apply last_Some_elem_of in Hq.
    by apply list_elem_of_filter in Hq as [? _]. }
  exists {| stat := r; avgDiff := avgDiffOf r |}, q.
  split; [|split; [reflexivity|]]; [|split_and!].
  - unfold buildScoreboard. rewrite arraySort_Permutation.
    apply list_elem_of_fmap. exists (id p, r). split; [reflexivity|exact H].
  - cbn [stat]. unfold r. by rewrite (proj1 Hfix).
  - cbn [stat]. unfold r. by rewrite (proj2 Hfix).
  - exact Hr.
  - intros Hnd. pose proof (playersWithId_NoDup _ p Hnd Hp) as Hone.
    fold same in Hone. rewrite Hone in Hq. injection Hq as <-.
    split; [done|]. cbn [stat]. rewrite Hr, Hone. apply foldl_iter_one.
Qed.

End Accumulation.

(** The theorem at the sample room with both innings scored: the row of
    [p1], who won the first innings with an exact prediction. *)
Lemma buildScoreboard_accumulates_witness :
  storedWinnersPredicted (roomOf scoredMatch)
  ∧ mkPlayer "p1" "Asha" ∈ players (roomOf scoredMatch)
  ∧ ∃ row : Row,
      row ∈ buildScoreboard codeUnitCompare (roomOf scoredMatch)
      ∧ stat row
        = {| playerId := "p1"; s_name := "Asha"; wins := 1; exactHits := 1;
             points := 3; totalDiff := 15; s_predictions := 2;
             scoredMatches := 2 |}.
Proof.
  assert (Hs : storedWinnersPredicted (roomOf scoredMatch)).
  { intros m k sc r pid Hm _ Hr Hin.
    apply list_elem_of_singleton in Hm as ->.
    destruct k; injection Hr as <-;
      apply list_elem_of_singleton in Hin as ->; by eexists. }
  assert (Hp : mkPlayer "p1" "Asha" ∈ players (roomOf scoredMatch)) by left.
  split; [exact Hs|]. split; [exact Hp|].
  destruct (buildScoreboard_accumulates codeUnitCompare (roomOf scoredMatch)
              (mkPlayer "p1" "Asha") Hs Hp)
    as (row & q & Hin & Hq & _ & _ & Hst & _).
  injection Hq as <-.
  exists row. split; [exact Hin|].
  rewrite Hst. vm_compute. reflexivity.
Defined.

(** The prediction count of a row never goes below 0. *)
Lemma mapUpdate_Forall (P : Stat → Prop) k f (m : list (string * Stat)) :
  (∀ v, P v → P (f v)) →
  Forall (λ kv, P kv.2) m → Forall (λ kv, P kv.2) (mapUpdate k f m).
Proof.
  intros Hf. induction 1 as [|[k0 v0] m Hv Hm IH]; simpl; [constructor|].
  case_bool_decide; constructor; simpl in *; auto.
Qed.

Lemma mapSet_Forall (P : Stat → Prop) k v (m : list (string * Stat)) :
  P v → Forall (λ kv, P kv.2) m → Forall (λ kv, P kv.2) (mapSet k v m).
Proof.
  intros Hv. induction 1 as [|[k0 v0] m Hv0 Hm IH]; simpl.
  - by repeat constructor.
  - case_bool_decide; constructor; simpl in *; auto.
Qed.

Lemma diffLoop_predictions_nonneg (es : list (string * Z)) stats :
  Forall (λ kv, 0 ≤ s_predictions kv.2) stats →
  Forall (λ kv, 0 ≤ s_predictions kv.2)
    (foldl (λ st e, mapUpdate e.1 (addDiff e.2) st) stats es).
Proof.
  revert stats. induction es as [|e es IH]; intros stats H; simpl; [done|].
  apply IH. apply (mapUpdate_Forall (λ v, 0 ≤ s_predictions v)); [|done].
  intros v Hv. simpl. lia.
Qed.

Lemma winLoop_predictions_nonneg bonus ws (es : list (string * Z)) stats :
  Forall (λ kv, 0 ≤ s_predictions kv.2) stats →
  Forall (λ kv, 0 ≤ s_predictions kv.2) (winLoop bonus ws es stats).
Proof.
  unfold winLoop. revert stats.
  induction es as [|e es IH]; intros stats H; simpl; [done|].
  apply IH. destruct (bool_decide (e.1 ∈ ws)); [|done].
  by apply (mapUpdate_Forall (λ v, 0 ≤ s_predictions v)).
Qed.

Lemma scoreInnings_predictions_nonneg data m k stats :
  Forall (λ kv, 0 ≤ s_predictions kv.2) stats →
  Forall (λ kv, 0 ≤ s_predictions kv.2) (scoreInnings data m k stats).
Proof.
  intros H. unfold scoreInnings. destruct (scoredScore k m) as [sc|]; [|done].
  rewrite diffLoop_entries.
  by apply winLoop_predictions_nonneg, diffLoop_predictions_nonneg.
Qed.

Lemma accumulate_predictions_nonneg (data : Data) :
  Forall (λ kv, 0 ≤ s_predictions kv.2) (accumulate data).
Proof.
  rewrite accumulate_allInnings.
  assert (H0 : Forall (λ kv, 0 ≤ s_predictions kv.2)
                 (initialStats (players data))).
  { unfold initialStats.
    assert (Hnil : Forall (λ kv : string * Stat, 0 ≤ s_predictions kv.2) [])
      by constructor.
    revert Hnil. generalize (@nil (string * Stat)).
    induction (players data) as [|q ps IH]; intros st Hst; simpl; [done|].
    apply IH. by apply (mapSet_Forall (λ v, 0 ≤ s_predictions v)). }
  revert H0. generalize (initialStats (players data)).
  induction (allInnings data) as [|mk l IH]; intros st Hst; simpl; [done|].
  apply IH. by apply scoreInnings_predictions_nonneg.
Qed.

(** The total of the distances of a row never goes below 0. *)
Lemma entries_nonneg sc preds ps : Forall (λ e, 0 ≤ e.2) (entries sc preds ps).
Proof.
  apply Forall_forall. intros [pid d] Hin.
  apply elem_of_entries in Hin as (_ & v & _ & _ & _ & <-). cbn. lia.
Qed.

Lemma accumulate_totalDiff_nonneg (data : Data) :
  Forall (λ kv, 0 ≤ totalDiff kv.2) (accumulate data).
Proof.
  rewrite accumulate_allInnings.
  assert (H0 : Forall (λ kv, 0 ≤ totalDiff kv.2) (initialStats (players data))).
  { unfold initialStats.
    assert (Hnil : Forall (λ kv : string * Stat, 0 ≤ totalDiff kv.2) [])
      by constructor.
    revert Hnil. generalize (@nil (string * Stat)).
    induction (players data) as [|q ps IH]; intros st Hst; simpl; [done|].
    apply IH. by apply (mapSet_Forall (λ v, 0 ≤ totalDiff v)). }
  revert H0. generalize (initialStats (players data)).
  induction (allInnings data) as [|mk l IH]; intros st Hst; simpl; [done|].
  apply IH. unfold scoreInnings.
  destruct (scoredScore mk.2 mk.1) as [sc|]; [|done].
  rewrite diffLoop_entries.
  assert (Hd : Forall (λ kv, 0 ≤ totalDiff kv.2)
                 (foldl (λ st e, mapUpdate e.1 (addDiff e.2) st) st
                    (entries sc (default ∅ (predictionsOf mk.2 mk.1))
                       (players data)))).
  { pose proof (entries_nonneg sc (default ∅ (predictionsOf mk.2 mk.1))
                  (players data)) as He.
    revert st Hst. induction He as [|e es He _ IHe]; intros st Hst; [done|].
    cbn [foldl]. apply IHe.
    apply (mapUpdate_Forall (λ v, 0 ≤ totalDiff v)); [|done].
    intros v Hv. cbn. lia. }
  revert Hd. generalize (foldl (λ st e, mapUpdate e.1 (addDiff e.2) st) st
                           (entries sc (default ∅ (predictionsOf mk.2 mk.1))
                              (players data))).
  unfold winLoop.
  induction (entries sc (default ∅ (predictionsOf mk.2 mk.1)) (players data))
    as [|e es IHe]; intros st' Hst'; [done|].
  cbn [foldl]. apply IHe. destruct (bool_decide (e.1 ∈ _)); [|done].
  by apply (mapUpdate_Forall (λ v, 0 ≤ totalDiff v)).
Qed.

(** ** Properties of the scoreboard order *)

Lemma roundHalfEven_bound (a b : Z) :
  0 < b → - b ≤ 2 * (roundHalfEven a b * b - a) ≤ b.
Proof.
  intros Hb. unfold roundHalfEven.
  pose proof (Z.div_mod a b ltac:(lia)) as Hd.
  pose proof (Z.mod_pos_bound a b Hb) as Hm.
  destruct (Z.ltb_spec (2 * (a `mod` b)) b);
    [|destruct (Z.ltb_spec b (2 * (a `mod` b)));
      [|destruct (Z.even (a `div` b))]]; nia.
Qed.

(** The double nearest to [p / q] is within half a unit of the last place,
    which is at most [p / q] over [2 ^ 53]. *)
Lemma divDouble_error (p q : Z) :
  0 < p → 0 < q →
  let '(x, s) := divDouble p q in
  0 < 2 ^ s
  ∧ 2 ^ 53 * Z.abs (x * q - p * 2 ^ s) ≤ p * 2 ^ s.
Proof.
  intros Hp Hq. unfold divDouble.
  set (s := Z.log2 q + 54). set (S := 2 ^ s).
  set (t := (p * S) `div` q). set (L := Z.log2 t).
  set (u := 2 ^ (L - 52)).
  pose proof (Z.log2_nonneg q) as Hlq.
  assert (HS : 0 < S) by (apply Z.pow_pos_nonneg; lia).
  split; [exact HS|].
  assert (HqS : 2 ^ 53 * q < S).
  { destruct (Z.log2_spec q Hq) as [_ Hlt].
    unfold S, s. replace (Z.log2 q + 54) with (53 + Z.succ (Z.log2 q)) by lia.
    rewrite Z.pow_add_r by lia. nia. }
  assert (Ht : 2 ^ 53 ≤ t).
  { unfold t. apply Z.div_le_lower_bound; [lia|]. nia. }
  assert (Htq : t * q ≤ p * S).
  { unfold t. pose proof (Z.mul_div_le (p * S) q Hq). lia. }
  assert (HL : 53 ≤ L).
  { unfold L. change 53 with (Z.log2 (2 ^ 53)) at 1.
    by apply Z.log2_le_mono. }
  destruct (Z.log2_spec t ltac:(lia)) as [HLt _]. fold L in HLt.
  assert (Hu : 0 < u) by (apply Z.pow_pos_nonneg; lia).
  assert (HuL : 2 ^ 52 * u = 2 ^ L).
  { unfold u. rewrite <- Z.pow_add_r by lia. f_equal. lia. }
  pose proof (roundHalfEven_bound (p * S) (q * u) ltac:(nia)) as Hr.
  set (m := roundHalfEven (p * S) (q * u)) in *.
  assert (Hqu : 2 ^ 52 * (q * u) ≤ p * S) by nia.
  replace (m * u * q - p * S) with (m * (q * u) - p * S) by ring.
  lia.
Qed.

(** With [200 * total] below [2 ^ 53], the result is a hundredth nearest to
    the quotient (at a tie either neighbour, as the double falls). *)
Lemma toFixed2_nearest (total count : Z) :
  0 ≤ total → 0 < count → 200 * total < 2 ^ 53 →
  2 * count * toFixed2 total count - count ≤ 200 * total
  ≤ 2 * count * toFixed2 total count + count.
Proof.
  intros Ht Hc Hb. unfold toFixed2.
  destruct (Z.eqb_spec total 0) as [->|Hne]; [lia|].
  pose proof (divDouble_error total count ltac:(lia) Hc) as He.
  destruct (divDouble total count) as [x s]. destruct He as [HS He].
  assert (Hs : 0 ≤ s).
  { destruct (Z.le_gt_cases 0 s); [done|].
    rewrite Z.pow_neg_r in HS by lia. lia. }
  rewrite Z.pow_add_r by lia. change (2 ^ 1) with 2.
  set (S := 2 ^ s) in *. rewrite (Z.mul_comm S 2).
  pose proof (Z.div_mod (200 * x + S) (2 * S) ltac:(lia)) as Hd.
  pose proof (Z.mod_pos_bound (200 * x + S) (2 * S) ltac:(lia)) as Hm.
  set (n := (200 * x + S) `div` (2 * S)) in *.
  set (E := x * count - total * S) in *.
  assert (HE : 2 ^ 53 * Z.abs E ≤ total * S) by exact He.
  assert (HG : (2 * count * n - 200 * total) * S
               = count * (2 * S * n - 200 * x) + 200 * E)
    by (unfold E; ring).
  assert (HF : - S < 2 * S * n - 200 * x ≤ S) by lia.
  assert (H200 : 200 * Z.abs E < S).
  { assert (2 ^ 53 * (200 * Z.abs E) < 2 ^ 53 * S) by nia. lia. }
  split.
  - apply Z.le_sub_le_add_r. 
    assert ((2 * count * n - 200 * total) * S < (count + 1) * S) by nia.
    assert (2 * count * n - 200 * total < count + 1) by nia. lia.
  - assert (- (count + 1) * S < (2 * count * n - 200 * total) * S) by nia.
    assert (- (count + 1) < 2 * count * n - 200 * total) by nia. lia.
Qed.

(** Where the double of the quotient falls short of a tie, the lower
    hundredth is given; where the quotient is a double, a tie goes up. *)
Lemma toFixed2_ties :
  toFixed2 3 40 = 7 ∧ toFixed2 1 200 = 1 ∧ toFixed2 1 8 = 13
  ∧ toFixed2 15 2 = 750.
Proof. by vm_compute. Qed.

Section ScoreboardOrder.
Variable localeCompare : string → string → Z.

(** [localeCompare] is taken as a comparator of a total preorder of the
    names: exchanging the arguments flips the sign, and "not after" is
    transitive. *)
Hypothesis localeCompare_antisym :
  ∀ a b, Z.sgn (localeCompare b a) = - Z.sgn (localeCompare a b).
Hypothesis localeCompare_trans :
  ∀ a b c, localeCompare a b ≤ 0 → localeCompare b c ≤ 0 → localeCompare a c ≤ 0.

Lemma localeCompare_flip a b :
  (0 < localeCompare a b → localeCompare b a < 0)
  ∧ (localeCompare a b < 0 → 0 < localeCompare b a)
  ∧ (localeCompare a b = 0 → localeCompare b a = 0).
Proof.
  pose proof (localeCompare_antisym a b) as H.
  destruct (Z.sgn_spec (localeCompare a b)) as [[? E]|[[? E]|[? E]]];
    destruct (Z.sgn_spec (localeCompare b a)) as [[? E']|[[? E']|[? E']]];
    rewrite E, E' in H; lia.
Qed.

(** The comparator reads as the lexicographic order on points (descending),
    [avgDiff] with [null] counted as 0 (ascending), and name. *)
Lemma compareRows_le (a b : Row) :
  compareRows localeCompare a b ≤ 0 ↔
  points b < points a
  ∨ (points a = points b
     ∧ (toNumber (avgDiff a) < toNumber (avgDiff b)
        ∨ (toNumber (avgDiff a) = toNumber (avgDiff b)
           ∧ localeCompare (s_name a) (s_name b) ≤ 0))).
Proof.
  unfold compareRows.
  destruct (Z.eqb_spec (points b - points a) 0) as [E1|E1]; cbn [negb];
    [|lia].
  destruct (Z.eqb_spec (toNumber (avgDiff a) - toNumber (avgDiff b)) 0)
    as [E2|E2]; cbn [negb]; lia.
Qed.

Lemma compareRows_total (a b : Row) :
  0 < compareRows localeCompare a b → compareRows localeCompare b a ≤ 0.
Proof.
  intros H. apply compareRows_le.
  assert (Hn : ¬ compareRows localeCompare a b ≤ 0) by lia.
  rewrite compareRows_le in Hn.
  destruct (localeCompare_flip (s_name a) (s_name b)) as (Hf & _ & _).
  lia.
Qed.

Lemma compareRows_trans (a b c : Row) :
  compareRows localeCompare a b ≤ 0 → compareRows localeCompare b c ≤ 0 →
  compareRows localeCompare a c ≤ 0.
Proof.
  rewrite !compareRows_le.
  pose proof (localeCompare_trans (s_name a) (s_name b) (s_name c)).
  lia.
Qed.

Lemma buildScoreboard_StronglySorted (data : Data) :
  StronglySorted (mayPrecede (compareRows localeCompare))
    (buildScoreboard localeCompare data).
Proof.
  apply arraySort_sorted; [apply compareRows_total | apply compareRows_trans].
Qed.

Lemma buildScoreboard_avgDiff (data : Data) (row : Row) :
  row ∈ buildScoreboard localeCompare data →
  avgDiff row = avgDiffOf row ∧ 0 ≤ s_predictions row.
Proof.
  unfold buildScoreboard. rewrite arraySort_Permutation.
  intros ([k s] & -> & Hin)%list_elem_of_fmap. split; [reflexivity|].
  pose proof (accumulate_predictions_nonneg data) as H.
  rewrite Forall_forall in H. apply (H _ Hin).
Qed.

Lemma buildScoreboard_totalDiff (data : Data) (row : Row) :
  row ∈ buildScoreboard localeCompare data → 0 ≤ totalDiff row.
Proof.
  unfold buildScoreboard. rewrite arraySort_Permutation.
  intros ([k s] & -> & Hin)%list_elem_of_fmap.
  pose proof (accumulate_totalDiff_nonneg data) as H.
  rewrite Forall_forall in H. apply (H _ Hin).
Qed.

(** Rows at two positions of a sorted list of rows: the comparator is not
    positive from the earlier to the later. *)
Lemma buildScoreboard_lookup_lt (data : Data) i j (a b : Row) :
  (i < j)%nat →
  buildScoreboard localeCompare data !! i = Some a →
  buildScoreboard localeCompare data !! j = Some b →
  compareRows localeCompare a b ≤ 0.
Proof.
  intros. by eapply (StronglySorted_lookup_lt _ _ _ _ _ _
                       (buildScoreboard_StronglySorted data)).
Qed.

(** A row that must stand before another one does. *)
Lemma buildScoreboard_before (data : Data) i j (a b : Row) :
  buildScoreboard localeCompare data !! i = Some a →
  buildScoreboard localeCompare data !! j = Some b →
  0 < compareRows localeCompare b a → (i < j)%nat.
Proof.
  intros Hi Hj Hlt. destruct (decide (i < j)%nat) as [|Hn]; [done|]. exfalso.
  destruct (decide (i = j)) as [->|Hne].
  - rewrite Hi in Hj. injection Hj as <-.
    assert (Hn' : ¬ compareRows localeCompare a a ≤ 0) by lia.
    rewrite compareRows_le in Hn'.
    destruct (localeCompare_flip (s_name a) (s_name a)) as (? & ? & ?). lia.
  - pose proof (buildScoreboard_lookup_lt data j i b a ltac:(lia) Hj Hi). lia.
Qed.

Lemma compareRows_pos (a b : Row) :
  0 < compareRows localeCompare b a ↔
  points b < points a
  ∨ (points a = points b
     ∧ (toNumber (avgDiff a) < toNumber (avgDiff b)
        ∨ (toNumber (avgDiff a) = toNumber (avgDiff b)
           ∧ localeCompare (s_name a) (s_name b) < 0))).
Proof.
  assert (H : 0 < compareRows localeCompare b a
              ↔ ¬ compareRows localeCompare b a ≤ 0) by lia.
  rewrite H, compareRows_le.
  destruct (localeCompare_flip (s_name a) (s_name b)) as (? & ? & ?).
  destruct (localeCompare_flip (s_name b) (s_name a)) as (? & ? & ?).
  lia.
Qed.

(** C3. The rows [buildScoreboard] returns are in the order of points
    descending, then [avgDiff] ascending, then name ascending. [avgDiff] is
    [null] for a row without predictions and otherwise what [toFixed(2)]
    makes of the double [totalDiff / predictions]: as long as
    [200 * totalDiff] is below [2 ^ 53], a hundredth nearest to the
    quotient. Of two rows, the one with more points stands first; on equal
    points and with both [avgDiff] numbers, the one with the lower [avgDiff]
    stands first; on equal points and equal [avgDiff], the one whose name
    sorts first in [localeCompare] stands first. Conversely the earlier of two rows never
    has fewer points, nor on equal points a higher [avgDiff], nor on equal
    points and [avgDiff] a name that sorts after. *)
Theorem buildScoreboard_sorted (data : Data) :
  let board := buildScoreboard localeCompare data in
  (∀ row : Row, row ∈ board →
     (s_predictions row = 0 ∧ avgDiff row = None)
     ∨ (0 < s_predictions row ∧ 0 ≤ totalDiff row
        ∧ ∃ h, avgDiff row = Some h
               ∧ h = toFixed2 (totalDiff row) (s_predictions row)
               ∧ (200 * totalDiff row < 2 ^ 53 →
                  2 * s_predictions row * h - s_predictions row
                  ≤ 200 * totalDiff row
                  ≤ 2 * s_predictions row * h + s_predictions row)))
  ∧ (∀ i j (a b : Row), board !! i = Some a → board !! j = Some b →
       ((i < j)%nat → points b ≤ points a)
       ∧ (points b < points a → (i < j)%nat)
       ∧ (points a = points b →
          ∀ x y, avgDiff a = Some x → avgDiff b = Some y →
                 ((i < j)%nat → x ≤ y) ∧ (x < y → (i < j)%nat))
       ∧ (points a = points b → avgDiff a = avgDiff b →
          ((i < j)%nat → localeCompare (s_name a) (s_name b) ≤ 0)
          ∧ (localeCompare (s_name a) (s_name b) < 0 → (i < j)%nat))).
Proof.
  intros board. split.
  - intros row Hrow.
    destruct (buildScoreboard_avgDiff data row Hrow) as [Hav Hnn].
    unfold avgDiffOf in Hav. case_bool_decide as E; [by left|]. right.
    assert (Hpos : 0 < s_predictions row) by lia. split; [done|].
    pose proof (buildScoreboard_totalDiff data row Hrow) as Ht.
    split; [done|]. eexists. split; [exact Hav|]. split; [reflexivity|].
    intros Hb. by apply toFixed2_nearest.
  - intros i j a b Ha Hb.
    assert (Hle : (i < j)%nat →
              points b < points a
              ∨ (points a = points b
                 ∧ (toNumber (avgDiff a) < toNumber (avgDiff b)
                    ∨ (toNumber (avgDiff a) = toNumber (avgDiff b)
                       ∧ localeCompare (s_name a) (s_name b) ≤ 0)))).
    { intros Hij. rewrite <- compareRows_le.
      by apply (buildScoreboard_lookup_lt data i j). }
    assert (Hlt : points b < points a
              ∨ (points a = points b
                 ∧ (toNumber (avgDiff a) < toNumber (avgDiff b)
                    ∨ (toNumber (avgDiff a) = toNumber (avgDiff b)
                       ∧ localeCompare (s_name a) (s_name b) < 0)))
              → (i < j)%nat).
    { intros H. apply (buildScoreboard_before data i j a b Ha Hb).
      by apply compareRows_pos. }
    split; [|split; [|split]].
    + intros Hij. specialize (Hle Hij). lia.
    + intros Hp. apply Hlt. by left.
    + intros Hp x y Hx Hy. rewrite Hx, Hy in Hle, Hlt. simpl in Hle, Hlt.
      split.
      * intros Hij. specialize (Hle Hij). lia.
      * intros Hxy. apply Hlt. right. split; [done|]. by left.
    + intros Hp Hav. rewrite Hav in Hle, Hlt. split.
      * intros Hij. specialize (Hle Hij). lia.
      * intros Hn. apply Hlt. right. split; [done|]. right. by split.
Qed.

(** C10. In the comparator of the final sort a row whose [avgDiff] is
    [null] compares as the same row with [avgDiff] 0. So, among rows of the
    scoreboard with equal points, a row without predictions stands before
    every row with a positive [avgDiff], and against a row whose [avgDiff]
    is exactly 0 the order of the names decides. *)
Theorem null_avgDiff_compares_as_zero (data : Data) :
  let board := buildScoreboard localeCompare data in
  (∀ a b : Row, avgDiff a = None →
     compareRows localeCompare a b
     = compareRows localeCompare {| stat := a; avgDiff := Some 0 |} b
     ∧ compareRows localeCompare b a
       = compareRows localeCompare b {| stat := a; avgDiff := Some 0 |})
  ∧ (∀ i j (a b : Row), board !! i = Some a → board !! j = Some b →
       points a = points b → avgDiff a = None →
       (∀ d, avgDiff b = Some d → 0 < d → (i < j)%nat)
       ∧ (avgDiff b = Some 0 →
            compareRows localeCompare a b = localeCompare (s_name a) (s_name b)
            ∧ (localeCompare (s_name a) (s_name b) < 0 → (i < j)%nat)
            ∧ (0 < localeCompare (s_name a) (s_name b) → (j < i)%nat))).
Proof.
  intros board. split.
  - intros a b Ha. unfold compareRows. rewrite Ha. done.
  - intros i j a b Hi Hj Hp Ha.
    destruct (localeCompare_flip (s_name a) (s_name b)) as (Hf1 & Hf2 & Hf3).
    split.
    + intros d Hd Hpos. apply (buildScoreboard_before data i j a b Hi Hj).
      apply compareRows_pos. rewrite Ha, Hd. simpl. lia.
    + intros Hb. split; [|split].
      * unfold compareRows. rewrite Ha, Hb, Hp. simpl.
        by rewrite Z.sub_diag.
      * intros Hlt. apply (buildScoreboard_before data i j a b Hi Hj).
        apply compareRows_pos. rewrite Ha, Hb. simpl. lia.
      * intros Hgt. apply (buildScoreboard_before data j i b a Hj Hi).
        apply compareRows_pos. rewrite Ha, Hb. simpl. lia.
Qed.

End ScoreboardOrder.

Lemma codeUnitCompare_antisym (a b : string) :
  Z.sgn (codeUnitCompare b a) = - Z.sgn (codeUnitCompare a b).
Proof.
  unfold codeUnitCompare. rewrite (String.compare_antisym a b).
  by destruct (String.compare b a).
Qed.

Lemma codeUnitCompare_le (a b : string) :
  codeUnitCompare a b ≤ 0 ↔ String.le a b.
Proof.
  unfold String.le, String.leb, codeUnitCompare.
  destruct (String.compare a b); simpl; split; intros; try done; lia.
Qed.

Lemma codeUnitCompare_trans (a b c : string) :
  codeUnitCompare a b ≤ 0 → codeUnitCompare b c ≤ 0 → codeUnitCompare a c ≤ 0.
Proof. rewrite !codeUnitCompare_le. apply transitivity. Qed.

(** The theorem at the sample room with both innings scored, names compared
    by code units. *)
Lemma buildScoreboard_sorted_witness :
  ∃ a b : Row,
    buildScoreboard codeUnitCompare (roomOf scoredMatch) !! 0%nat = Some a
    ∧ buildScoreboard codeUnitCompare (roomOf scoredMatch) !! 1%nat = Some b
    ∧ s_name a = "Asha" ∧ s_name b = "Bilal"
    ∧ points b ≤ points a
    ∧ totalDiff a = 15 ∧ s_predictions a = 2 ∧ avgDiff a = Some 750
    ∧ ∃ h, avgDiff a = Some h ∧ 2 * 2 * h - 2 ≤ 200 * 15 ≤ 2 * 2 * h + 2.
Proof.
  destruct (buildScoreboard_sorted codeUnitCompare codeUnitCompare_antisym
              codeUnitCompare_trans (roomOf scoredMatch)) as [H1 H].
  eexists _, _. split; [vm_compute; reflexivity|].
  split; [vm_compute; reflexivity|].
  split; [reflexivity|]. split; [reflexivity|].
  split; [refine (proj1 (H 0%nat 1%nat _ _ _ _) _); [reflexivity.. | lia]|].
  split; [reflexivity|]. split; [reflexivity|]. split; [reflexivity|].
  match goal with
  | |- ∃ h, avgDiff ?a = Some h ∧ _ =>
      destruct (H1 a) as [[E _]|(_ & _ & h & Hh & _ & Hb)];
        [by apply (list_elem_of_lookup_2 _ 0%nat) | discriminate E |]
  end.
  exists h. split; [exact Hh|]. apply Hb. reflexivity.
Defined.

(** The theorem at the sample room with one innings scored: the row of the
    player without predictions and the row with [avgDiff] 30. *)
Lemma null_avgDiff_compares_as_zero_witness :
  ∃ a b : Row,
    buildScoreboard codeUnitCompare (roomOf firstInningsScored) !! 1%nat = Some a
    ∧ buildScoreboard codeUnitCompare (roomOf firstInningsScored) !! 2%nat = Some b
    ∧ s_name a = "Chen" ∧ avgDiff a = None
    ∧ s_name b = "Bilal" ∧ avgDiff b = Some 3000
    ∧ points a = points b
    ∧ compareRows codeUnitCompare a b
      = compareRows codeUnitCompare {| stat := a; avgDiff := Some 0 |} b.
Proof.
  destruct (null_avgDiff_compares_as_zero codeUnitCompare codeUnitCompare_antisym
              codeUnitCompare_trans (roomOf firstInningsScored)) as [H _].
  eexists _, _. split; [vm_compute; reflexivity|].
  split; [vm_compute; reflexivity|].
  repeat (split; [reflexivity|]).
  refine (proj1 (H _ _ _)). reflexivity.
Defined.

(** ** Lemmas shared by the handlers *)

Lemma normalizeMatch_m_id now st m : m_id (normalizeMatch now st m) = m_id m.
Proof. reflexivity. Qed.

(** The match found under an id is found again, at the same place, after it
    has been replaced by a match of the same id. *)
Lemma findMatch_insert matchId data ix m0 m' :
  findMatch matchId data = Some (ix, m0) → m_id m' = m_id m0 →
  findMatch matchId (withMatches (<[ix := m']> (matches data)) data)
  = Some (ix, m').
Proof.
  unfold findMatch. rewrite !list_find_Some. intros (Hix & Hid & Hleast) Hm'.
  cbn [matches withMatches]. split; [|split].
  - apply list_lookup_insert_eq. by eapply lookup_lt_Some.
  - congruence.
  - intros j y Hj Hlt. rewrite list_lookup_insert_ne in Hj by lia. eauto.
Qed.

(** A match that has both innings, a mapping for each, no pending second
    innings behind a scored first one and no innings open past its lock
    time is left as it is by the normalizer. *)
Lemma normalizeMatch_fixed now st m i1 i2 p1 p2 f :
  innings1 m = Some i1 → innings2 m = Some i2 →
  predictions m
  = Some {| p_innings1 := Some p1; p_innings2 := Some p2; p_flat := f |} →
  ¬ (status i1 = scored ∧ status i2 = pending) →
  autoLock now i1 = i1 → autoLock now i2 = i2 →
  normalizeMatch now st m = m.
Proof.
  intros H1 H2 Hp Hn Ha1 Ha2. apply Match_eq; try reflexivity.
  - rewrite normalizeMatch_innings1. unfold legacyInnings1.
    by rewrite H1, Ha1.
  - rewrite normalizeMatch_innings2. unfold legacyInnings1, legacyInnings2.
    rewrite H1, H2. by rewrite promoteInnings2_id, Ha2.
  - rewrite normalizeMatch_predictions. by rewrite Hp.
Qed.

Lemma autoLock_fixed now i :
  status i ≠ open ∨ lockPassed now (lockTime i) = false → autoLock now i = i.
Proof.
  unfold autoLock. intros [H|H].
  - by rewrite (bool_decide_eq_false_2 _ H).
  - rewrite H. by rewrite andb_false_r.
Qed.

Lemma normalizeMatch_is_Some now st m k :
  is_Some (inningsOf k (normalizeMatch now st m)).
Proof.
  destruct k; cbn [inningsOf];
    [rewrite normalizeMatch_innings1 | rewrite normalizeMatch_innings2]; eauto.
Qed.

Lemma withInningsOf_inningsOf k i m k' :
  inningsOf k' (withInningsOf k i m)
  = if bool_decide (k' = k) then Some i else inningsOf k' m.
Proof. by destruct k, k'. Qed.

(** A prediction for an innings stored as locked or scored is refused,
    whenever it is sent, and nothing is saved. *)
Lemma predict_closed_status now now' data matchId body ix m0 i :
  findMatch matchId data = Some (ix, m0) →
  inningsOf (inningsKeyOf (b_innings body)) m0 = Some i →
  status i = locked ∨ status i = scored →
  predict now now' data matchId body = (TossNotSet, data)
  ∨ predict now now' data matchId body = (InningsNotOpen, data).
Proof.
  intros Hf Hi Hs. unfold predict. rewrite Hf.
  destruct (getBattingTeams _); [right|by left].
  set (key := inningsKeyOf (b_innings body)) in *.
  assert (Ht : targetInnings key m0 = i).
  { destruct key; cbn [targetInnings inningsOf] in *;
      unfold legacyInnings1, legacyInnings2; by rewrite Hi. }
  rewrite normalizeMatch_inningsOf
    by (rewrite Ht; destruct Hs as [-> | ->]; done).
  rewrite Ht, autoLock_fixed by (left; destruct Hs as [-> | ->]; done).
  rewrite bool_decide_eq_false_2 by (destruct Hs as [-> | ->]; done).
  reflexivity.
Qed.

(** An innings stored as locked or scored is not touched by the
    normalizer. *)
Lemma predict_closed_status_toss now now' data matchId body ix m0 i :
  findMatch matchId data = Some (ix, m0) →
  inningsOf (inningsKeyOf (b_innings body)) m0 = Some i →
  status i = locked ∨ status i = scored →
  (getBattingTeams m0 = None →
   predict now now' data matchId body = (TossNotSet, data))
  ∧ (is_Some (getBattingTeams m0) →
     predict now now' data matchId body = (InningsNotOpen, data)).
Proof.
  intros Hf Hi Hs.
  assert (Hg : getBattingTeams (normalizeMatch now (settings data) m0)
               = getBattingTeams m0) by reflexivity.
  set (key := inningsKeyOf (b_innings body)) in *.
  assert (Ht : targetInnings key m0 = i).
  { destruct key; cbn [targetInnings inningsOf] in *;
      unfold legacyInnings1, legacyInnings2; by rewrite Hi. }
  split.
  - intros Hn. unfold predict. by rewrite Hf, Hg, Hn.
  - intros [bt Hbt]. unfold predict. rewrite Hf, Hg, Hbt. fold key.
    rewrite normalizeMatch_inningsOf
      by (rewrite Ht; destruct Hs as [-> | ->]; done).
    rewrite Ht, autoLock_fixed by (left; destruct Hs as [-> | ->]; done).
    rewrite bool_decide_eq_false_2 by (destruct Hs as [-> | ->]; done).
    reflexivity.
Qed.

Lemma normalizeMatch_closed_innings now st m k i :
  inningsOf k m = Some i → status i = locked ∨ status i = scored →
  inningsOf k (normalizeMatch now st m) = Some i.
Proof.
  intros Hi Hs.
  assert (Ht : targetInnings k m = i).
  { destruct k; cbn [targetInnings inningsOf] in *;
      unfold legacyInnings1, legacyInnings2; by rewrite Hi. }
  rewrite normalizeMatch_inningsOf
    by (rewrite Ht; destruct Hs as [-> | ->]; done).
  rewrite Ht. f_equal. apply autoLock_fixed. left.
  destruct Hs as [-> | ->]; done.
Qed.

(** ** Properties of the lock route *)

Section LockRoute.
Variable hashPin : string → string.

Lemma lockRoute_Ok now data matchId body ix m0 :
  findMatch matchId data = Some (ix, m0) →
  ensureAdmin hashPin data (adminPin body) = true →
  ∃ i, inningsOf (inningsKeyOf (rb_innings body))
         (normalizeMatch now (settings data) m0) = Some i
       ∧ lockRoute hashPin now data matchId body
         = (ReplyOk,
            withMatches
              (<[ix := withInningsOf (inningsKeyOf (rb_innings body))
                         (setStatus locked i)
                         (normalizeMatch now (settings data) m0)]>
                 (matches data)) data).
Proof.
  intros Hf Ha. unfold lockRoute. rewrite Hf, Ha. cbn [negb].
  destruct (normalizeMatch_is_Some now (settings data) m0
              (inningsKeyOf (rb_innings body))) as [i Hi].
  exists i. by rewrite Hi.
Qed.

(** X1. A lock request of an admin on an existing match is answered ok
    whatever the status of the innings (pending and scored included): the
    innings saved is [locked] with the lock time and the score it had, the
    other innings, the predictions, the result and the toss are those of the
    normalized match. *)
Theorem lockRoute_locks
    (now : Z) (data : Data) (matchId : string) (body : ReopenBody)
    (ix : nat) (m0 : Match) :
  findMatch matchId data = Some (ix, m0) →
  ensureAdmin hashPin data (adminPin body) = true →
  let m := normalizeMatch now (settings data) m0 in
  let key := inningsKeyOf (rb_innings body) in
  ∃ i m',
    inningsOf key m = Some i
    ∧ lockRoute hashPin now data matchId body
      = (ReplyOk, withMatches (<[ix := m']> (matches data)) data)
    ∧ inningsOf key m'
      = Some {| status := locked; lockTime := lockTime i; score := score i |}
    ∧ (∀ k', k' ≠ key → inningsOf k' m' = inningsOf k' m)
    ∧ predictions m' = predictions m
    ∧ result m' = result m0
    ∧ toss m' = toss m0
    ∧ m_id m' = m_id m0.
Proof.
  intros Hf Ha m key.
  destruct (lockRoute_Ok now data matchId body ix m0 Hf Ha) as (i & Hi & Hr).
  fold m key in Hi, Hr. exists i, (withInningsOf key (setStatus locked i) m).
  split; [done|]. split; [done|]. split.
  { rewrite withInningsOf_inningsOf. by rewrite bool_decide_eq_true_2. }
  split.
  { intros k' Hk. rewrite withInningsOf_inningsOf.
    by rewrite bool_decide_eq_false_2. }
  by destruct key.
Qed.

(** X2. Locking is idempotent: a second lock request for the same innings,
    sent at the same time, is answered ok and saves the room the first one
    saved. *)
Theorem lockRoute_idempotent
    (now : Z) (data : Data) (matchId : string) (body : ReopenBody)
    (ix : nat) (m0 : Match) :
  findMatch matchId data = Some (ix, m0) →
  ensureAdmin hashPin data (adminPin body) = true →
  let data' := (lockRoute hashPin now data matchId body).2 in
  lockRoute hashPin now data' matchId body = (ReplyOk, data').
Proof.
  intros Hf Ha data'.
  destruct (lockRoute_Ok now data matchId body ix m0 Hf Ha) as (i & Hi & Hr).
  set (key := inningsKeyOf (rb_innings body)) in *.
  set (m := normalizeMatch now (settings data) m0) in *.
  set (m' := withInningsOf key (setStatus locked i) m) in *.
  assert (Hd : data' = withMatches (<[ix := m']> (matches data)) data)
    by (unfold data'; by rewrite Hr).
  assert (Hf' : findMatch matchId data' = Some (ix, m')).
  { rewrite Hd. apply (findMatch_insert matchId data ix m0 m' Hf).
    by destruct key. }
  assert (Ha' : ensureAdmin hashPin data' (adminPin body) = true)
    by (by rewrite Hd).
  destruct (lockRoute_Ok now data' matchId body ix m' Hf' Ha')
    as (i' & Hi' & Hr').
  rewrite Hr'. f_equal.
  assert (Hfix : normalizeMatch now (settings data') m' = m').
  { pose proof (normalizeMatch_innings1 now (settings data) m0) as H1.
    pose proof (normalizeMatch_innings2 now (settings data) m0) as H2.
    pose proof (normalizeMatch_promoted now (settings data) m0 _ _ H1 H2) as Hp.
    fold m in H1, H2.
    destruct key; cbn [inningsOf] in Hi; rewrite Hi in *.
    - injection H1 as H1.
      eapply normalizeMatch_fixed; [reflexivity| exact H2 | reflexivity | ..].
      + by intros [? _].
      + by apply autoLock_fixed; left.
      + apply autoLock_idem.
    - injection H2 as H2.
      eapply normalizeMatch_fixed; [exact H1 | reflexivity | reflexivity | ..].
      + by intros [_ ?].
      + apply autoLock_idem.
      + by apply autoLock_fixed; left. }
  fold key in Hi', Hr'. rewrite Hfix in Hi' |- *.
  assert (Hi'' : i' = setStatus locked i).
  { unfold m' in Hi'. rewrite withInningsOf_inningsOf in Hi'.
    rewrite bool_decide_eq_true_2 in Hi' by done. congruence. }
  subst i'. rewrite Hd. unfold withMatches. cbn [matches settings players].
  f_equal. rewrite list_insert_insert_eq. f_equal.
  unfold m', key. by destruct (inningsKeyOf (rb_innings body)).
Qed.

(** X3. Once an innings has been locked by an admin, a prediction for it is
    refused whenever it is sent, before the lock time too: with the toss
    answer when the toss of the match does not resolve the batting order,
    and with "Predictions are not open for this innings." when it does; the
    room saved by the lock request stays as it is. *)
Theorem lockRoute_closes_predictions
    (now t t' : Z) (data : Data) (matchId : string) (body : ReopenBody)
    (pbody : PredictBody) (ix : nat) (m0 : Match) :
  findMatch matchId data = Some (ix, m0) →
  ensureAdmin hashPin data (adminPin body) = true →
  inningsKeyOf (b_innings pbody) = inningsKeyOf (rb_innings body) →
  let data' := (lockRoute hashPin now data matchId body).2 in
  (getBattingTeams m0 = None →
   predict t t' data' matchId pbody = (TossNotSet, data'))
  ∧ (is_Some (getBattingTeams m0) →
     predict t t' data' matchId pbody = (InningsNotOpen, data')).
Proof.
  intros Hf Ha Hk data'.
  destruct (lockRoute_Ok now data matchId body ix m0 Hf Ha) as (i & Hi & Hr).
  set (m' := withInningsOf (inningsKeyOf (rb_innings body)) (setStatus locked i)
               (normalizeMatch now (settings data) m0)) in *.
  assert (Hd : data' = withMatches (<[ix := m']> (matches data)) data)
    by (unfold data'; by rewrite Hr).
  assert (Hf' : findMatch matchId data' = Some (ix, m')).
  { rewrite Hd. apply (findMatch_insert matchId data ix m0 m' Hf).
    unfold m'. by destruct (inningsKeyOf (rb_innings body)). }
  assert (Hg : getBattingTeams m' = getBattingTeams m0).
  { unfold m'. by destruct (inningsKeyOf (rb_innings body)). }
  rewrite <- Hg.
  apply (predict_closed_status_toss t t' data' matchId pbody ix m'
           (setStatus locked i) Hf').
  - rewrite Hk. unfold m'. rewrite withInningsOf_inningsOf.
    by rewrite bool_decide_eq_true_2.
  - by left.
Qed.

(** X4. The lock route does not look at the status: locking an innings that
    is scored is answered ok and leaves its score and its stored result in
    place, but the innings is [locked] from then on, so the scoreboard, which
    counts scored innings only, no longer counts it. *)
Theorem lockRoute_scored_innings
    (now : Z) (data : Data) (matchId : string) (body : ReopenBody)
    (ix : nat) (m0 : Match) (i : Innings) (sc : Z) :
  findMatch matchId data = Some (ix, m0) →
  ensureAdmin hashPin data (adminPin body) = true →
  let key := inningsKeyOf (rb_innings body) in
  inningsOf key m0 = Some i → status i = scored → score i = Some sc →
  ∃ m',
    lockRoute hashPin now data matchId body
    = (ReplyOk, withMatches (<[ix := m']> (matches data)) data)
    ∧ inningsOf key m'
      = Some {| status := locked; lockTime := lockTime i; score := Some sc |}
    ∧ resultOf key m' = resultOf key m0
    ∧ scoredScore key m0 = Some sc
    ∧ scoredScore key m' = None
    ∧ (∀ d pid row, contribution d m' key pid row = row).
Proof.
  intros Hf Ha key Hi Hs Hsc.
  destruct (lockRoute_Ok now data matchId body ix m0 Hf Ha) as (i' & Hi' & Hr).
  fold key in Hi', Hr.
  rewrite (normalizeMatch_closed_innings now (settings data) m0 key i Hi)
    in Hi' by (by right).
  injection Hi' as <-. eexists. split; [exact Hr|].
  assert (Hin : inningsOf key
                  (withInningsOf key (setStatus locked i)
                     (normalizeMatch now (settings data) m0))
                = Some {| status := locked; lockTime := lockTime i;
                          score := Some sc |}).
  { rewrite withInningsOf_inningsOf, bool_decide_eq_true_2 by done.
    unfold setStatus. by rewrite Hsc. }
  split; [exact Hin|]. split; [by destruct key|]. split.
  { unfold scoredScore. rewrite Hi. by rewrite bool_decide_eq_true_2. }
  assert (Hss : scoredScore key
                  (withInningsOf key (setStatus locked i)
                     (normalizeMatch now (settings data) m0)) = None).
  { unfold scoredScore. by rewrite Hin. }
  split; [exact Hss|]. intros d pid row. unfold contribution. by rewrite Hss.
Qed.

End LockRoute.

(** ** Properties of the score route *)

Lemma resultOfScore_normalized now st m0 k i sc ps :
  resultOfScore k sc ps (withInningsOf k i (normalizeMatch now st m0))
  = Some (computeInningsResult (Some sc) (predictionMap k m0) ps).
Proof.
  unfold resultOfScore.
  assert (Hp : predictions (withInningsOf k i (normalizeMatch now st m0))
               = Some (normalizePredictions (predictions m0)))
    by (by destruct k).
  rewrite Hp. unfold predictionMap, normalizePredictions.
  destruct k; reflexivity.
Qed.

Lemma openInnings2_frame st k start m m2 :
  openInnings2 st k start m = inl m2 →
  innings1 m2 = innings1 m ∧ predictions m2 = predictions m
  ∧ result m2 = result m ∧ toss m2 = toss m ∧ m_id m2 = m_id m
  ∧ teamA m2 = teamA m ∧ teamB m2 = teamB m
  ∧ (k = Innings2 → m2 = m).
Proof.
  unfold openInnings2. destruct k.
  - destruct (innings2 m) as [i2|]; [|done].
    destruct (negb (bool_decide (status i2 = pending))); [by intros [= <-]|].
    destruct (negb (lockTruthy start)); [by intros [= <-]|].
    destruct (toISOString start) as [ms|]; [|done].
    destruct (computeLockTime _ _); [|done]. by intros [= <-].
  - by intros [= <-].
Qed.

Lemma openInnings2_innings2 st start m m2 i2 :
  openInnings2 st Innings1 start m = inl m2 → innings2 m = Some i2 →
  (status i2 ≠ pending → innings2 m2 = Some i2)
  ∧ (status i2 = pending → start = LockAbsent →
       innings2 m2 = Some (setStatus open i2))
  ∧ (status i2 = pending → start ≠ LockAbsent →
       ∃ ms, start = LockAt ms
             ∧ innings2 m2
               = Some {| status := open;
                         lockTime := LockAt (ms - lockMinutesBeforeStart st
                                                  * 60 * 1000);
                         score := score i2 |}).
Proof.
  unfold openInnings2. intros H Hi2. rewrite Hi2 in H.
  destruct (decide (status i2 = pending)) as [Hs|Hs].
  - rewrite (bool_decide_eq_true_2 _ Hs) in H. cbn [negb] in H.
    split; [done|]. split.
    + intros _ ->. cbn in H. by injection H as <-.
    + intros _ Hne. destruct start as [| |ms]; [done|done|].
      cbn [lockTruthy negb toISOString] in H.
      destruct (validTime ms) eqn:Hv; [|done].
      unfold computeLockTime in H. rewrite Hv in H. cbn [negb] in H.
      destruct (validTime (ms - _)); [|done]. injection H as <-.
      by exists ms.
  - rewrite (bool_decide_eq_false_2 _ Hs) in H. cbn [negb] in H.
    injection H as <-. split; [done|]. split; intros; done.
Qed.

Section ScoreRoute.
Variable hashPin : string → string.

(** The score route past its checks: the innings is scored, its result
    stored, and the answer depends on the opening of the second innings. *)
Lemma scoreRoute_checked now data matchId body ix m0 q i :
  findMatch matchId data = Some (ix, m0) →
  ensureAdmin hashPin data (s_adminPin body) = true →
  s_actualScore body = Fin q →
  (inject_Z (minScore (settings data)) <= q)%Q →
  (q <= inject_Z (maxScore (settings data)))%Q →
  let m := normalizeMatch now (settings data) m0 in
  let key := inningsKeyOf (s_innings body) in
  inningsOf key m = Some i →
  ¬ (key = Innings2 ∧ status i = pending) →
  scoreRoute hashPin now data matchId body
  = match openInnings2 (settings data) key (s_innings2StartTime body)
            (storeResult key
               (computeInningsResult (Some (mathRound q))
                  (predictionMap key m0) (players data))
               (withInningsOf key
                  (setStatus scored (setScore (Some (mathRound q)) i)) m)) with
    | inr e => (ReplyThrown e, data)
    | inl m2 => (ReplyOk, withMatches (<[ix := m2]> (matches data)) data)
    end.
Proof.
  intros Hf Ha Hq Hlo Hhi m key Hi Hnp. unfold scoreRoute.
  rewrite Hf, Ha, Hq. cbn [negb].
  rewrite (proj2 (ltZ_false _ _) Hlo), (proj2 (gtZ_false _ _) Hhi). cbn [orb].
  fold m key. rewrite Hi.
  assert (Hc : bool_decide (key = Innings2) && bool_decide (status i = pending)
               = false).
  { apply andb_false_iff.
    destruct (decide (key = Innings2)) as [Hk|Hk];
      [right | left]; apply bool_decide_eq_false_2; tauto. }
  rewrite Hc. unfold m. by rewrite resultOfScore_normalized.
Qed.

(** What an ok answer of the score route implies. *)
Lemma scoreRoute_Ok_inv now data matchId body data' :
  scoreRoute hashPin now data matchId body = (ReplyOk, data') →
  ∃ ix m0 q i m2,
    findMatch matchId data = Some (ix, m0)
    ∧ ensureAdmin hashPin data (s_adminPin body) = true
    ∧ s_actualScore body = Fin q
    ∧ (inject_Z (minScore (settings data)) <= q)%Q
    ∧ (q <= inject_Z (maxScore (settings data)))%Q
    ∧ inningsOf (inningsKeyOf (s_innings body))
        (normalizeMatch now (settings data) m0) = Some i
    ∧ ¬ (inningsKeyOf (s_innings body) = Innings2 ∧ status i = pending)
    ∧ openInnings2 (settings data) (inningsKeyOf (s_innings body))
        (s_innings2StartTime body)
        (storeResult (inningsKeyOf (s_innings body))
           (computeInningsResult (Some (mathRound q))
              (predictionMap (inningsKeyOf (s_innings body)) m0) (players data))
           (withInningsOf (inningsKeyOf (s_innings body))
              (setStatus scored (setScore (Some (mathRound q)) i))
              (normalizeMatch now (settings data) m0))) = inl m2
    ∧ data' = withMatches (<[ix := m2]> (matches data)) data.
Proof.
  intros H.
  destruct (findMatch matchId data) as [[ix m0]|] eqn:Hf;
    [|by unfold scoreRoute in H; rewrite Hf in H].
  destruct (ensureAdmin hashPin data (s_adminPin body)) eqn:Ha;
    [|by unfold scoreRoute in H; rewrite Hf, Ha in H].
  destruct (s_actualScore body) as [| | |q] eqn:Hq;
    try (by unfold scoreRoute in H; rewrite Hf, Ha, Hq in H).
  destruct (ltZ q (minScore (settings data))) eqn:Hlo;
    [by unfold scoreRoute in H; rewrite Hf, Ha, Hq, Hlo in H|].
  destruct (gtZ q (maxScore (settings data))) eqn:Hhi;
    [by unfold scoreRoute in H; rewrite Hf, Ha, Hq, Hlo, Hhi in H|].
  apply ltZ_false in Hlo. apply gtZ_false in Hhi.
  destruct (normalizeMatch_is_Some now (settings data) m0
              (inningsKeyOf (s_innings body))) as [i Hi].
  destruct (decide (inningsKeyOf (s_innings body) = Innings2
                    ∧ status i = pending)) as [[Hk Hs]|Hnp].
  { unfold scoreRoute in H. rewrite Hf, Ha, Hq in H. cbn [negb] in H.
    rewrite (proj2 (ltZ_false _ _) Hlo), (proj2 (gtZ_false _ _) Hhi) in H.
    cbn [orb] in H. rewrite Hi in H.
    rewrite (bool_decide_eq_true_2 _ Hk), (bool_decide_eq_true_2 _ Hs) in H.
    done. }
  rewrite (scoreRoute_checked now data matchId body ix m0 q i
             Hf Ha Hq Hlo Hhi Hi Hnp) in H.
  destruct (openInnings2 _ _ _ _) as [m2|e] eqn:Ho; [|done].
  injection H as <-. exists ix, m0, q, i, m2. repeat split; try done.
Qed.

(** The match the score route saves. *)
Lemma scoreRoute_saved now data matchId body data' :
  scoreRoute hashPin now data matchId body = (ReplyOk, data') →
  let key := inningsKeyOf (s_innings body) in
  ∃ ix m0 m' q i,
    findMatch matchId data = Some (ix, m0)
    ∧ data' = withMatches (<[ix := m']> (matches data)) data
    ∧ s_actualScore body = Fin q
    ∧ (inject_Z (minScore (settings data)) <= q)%Q
    ∧ (q <= inject_Z (maxScore (settings data)))%Q
    ∧ inningsOf key (normalizeMatch now (settings data) m0) = Some i
    ∧ inningsOf key m'
      = Some {| status := scored; lockTime := lockTime i;
                score := Some (mathRound q) |}
    ∧ result m'
      = result (storeResult key
                  (computeInningsResult (Some (mathRound q))
                     (predictionMap key m0) (players data)) m0)
    ∧ predictions m' = Some (normalizePredictions (predictions m0))
    ∧ toss m' = toss m0
    ∧ m_id m' = m_id m0.
Proof.
  intros H key.
  destruct (scoreRoute_Ok_inv now data matchId body data' H)
    as (ix & m0 & q & i & m2 & Hf & Ha & Hq & Hlo & Hhi & Hi & Hnp & Ho & Hd).
  fold key in Hi, Hnp, Ho.
  exists ix, m0, m2, q, i.
  destruct (openInnings2_frame _ _ _ _ _ Ho)
    as (Hi1 & Hp & Hres & Ht & Hid & _ & _ & Hk2).
  repeat split; try done.
  - destruct key eqn:Ek.
    + cbn [inningsOf]. rewrite Hi1. reflexivity.
    + rewrite (Hk2 eq_refl). reflexivity.
  - rewrite Hres. by destruct key.
  - rewrite Hp. by destruct key.
  - rewrite Ht. by destruct key.
  - rewrite Hid. by destruct key.
Qed.

Lemma computeInningsResult_is_Some sc preds ps :
  is_Some (computeInningsResult (Some sc) preds ps).
Proof. unfold computeInningsResult. destruct (entries _ _ _); eauto. Qed.

(** X5. When a score request is answered ok, the score sent is a finite
    number within [minScore] and [maxScore], and the match saved has the
    innings [scored] with its lock time kept and with the score sent,
    rounded to the nearest integer, a half going up; the result stored for
    the innings is the one [computeInningsResult] gives for that score, the
    predictions of the innings and the players of the room; the result
    stored for the other innings, the predictions of both innings and the
    toss are untouched. The status the innings had does not matter, an
    [open] innings can be scored. *)
Theorem scoreRoute_scores
    (now : Z) (data : Data) (matchId : string) (body : ScoreBody)
    (data' : Data) :
  scoreRoute hashPin now data matchId body = (ReplyOk, data') →
  let key := inningsKeyOf (s_innings body) in
  ∃ ix m0 m' q i r,
    findMatch matchId data = Some (ix, m0)
    ∧ data' = withMatches (<[ix := m']> (matches data)) data
    ∧ s_actualScore body = Fin q
    ∧ (inject_Z (minScore (settings data)) <= q)%Q
    ∧ (q <= inject_Z (maxScore (settings data)))%Q
    ∧ inningsOf key (normalizeMatch now (settings data) m0) = Some i
    ∧ inningsOf key m'
      = Some {| status := scored; lockTime := lockTime i;
                score := Some (mathRound q) |}
    ∧ (inject_Z (mathRound q) - (1 # 2) <= q)%Q
    ∧ (q < inject_Z (mathRound q) + (1 # 2))%Q
    ∧ computeInningsResult (Some (mathRound q)) (predictionMap key m0)
        (players data) = Some r
    ∧ resultOf key m' = Some r
    ∧ (∀ k', k' ≠ key → resultOf k' m' = resultOf k' m0)
    ∧ (∀ k', predictionsOf k' m' = Some (predictionMap k' m0))
    ∧ toss m' = toss m0.
Proof.
  intros H key.
  destruct (scoreRoute_saved now data matchId body data' H)
    as (ix & m0 & m' & q & i & Hf & Hd & Hq & Hlo & Hhi & Hi & Hi' & Hres & Hp
        & Ht & Hid).
  fold key in Hi, Hi', Hres.
  destruct (computeInningsResult_is_Some (mathRound q) (predictionMap key m0)
              (players data)) as [r Hr].
  destruct (mathRound_nearest q) as [Hn1 Hn2].
  exists ix, m0, m', q, i, r. split_and!; try done.
  - unfold resultOf. rewrite Hres, Hr. by destruct key.
  - intros k' Hk. unfold resultOf. rewrite Hres.
    destruct key, k'; try done; cbn; by destruct (result m0).
  - intros k'. unfold predictionsOf. rewrite Hp.
    rewrite <- (normalizeMatch_predictionsOf now (settings data) m0 k').
    reflexivity.
Qed.

(** X6. Scoring the first innings opens a second innings that is
    [pending]: with the lock time it had when no start time is sent, and
    otherwise with the start time minus [lockMinutesBeforeStart] minutes as
    lock time; a second innings that is not [pending] (opened before, or
    locked by an admin while it was pending) is left as it is. Scoring the
    second innings leaves the first as it is. *)
Theorem scoreRoute_opens_innings2
    (now : Z) (data : Data) (matchId : string) (body : ScoreBody)
    (data' : Data) :
  scoreRoute hashPin now data matchId body = (ReplyOk, data') →
  ∃ ix m0 m' i1 i2,
    findMatch matchId data = Some (ix, m0)
    ∧ data' = withMatches (<[ix := m']> (matches data)) data
    ∧ innings1 (normalizeMatch now (settings data) m0) = Some i1
    ∧ innings2 (normalizeMatch now (settings data) m0) = Some i2
    ∧ (inningsKeyOf (s_innings body) = Innings2 → innings1 m' = Some i1)
    ∧ (inningsKeyOf (s_innings body) = Innings1 →
       (status i2 ≠ pending → innings2 m' = Some i2)
       ∧ (status i2 = pending → s_innings2StartTime body = LockAbsent →
            innings2 m' = Some (setStatus open i2))
       ∧ (status i2 = pending → s_innings2StartTime body ≠ LockAbsent →
            ∃ ms, s_innings2StartTime body = LockAt ms
                  ∧ innings2 m'
                    = Some {| status := open;
                              lockTime :=
                                LockAt (ms - lockMinutesBeforeStart (settings data)
                                             * 60 * 1000);
                              score := score i2 |})).
Proof.
  intros H.
  destruct (scoreRoute_Ok_inv now data matchId body data' H)
    as (ix & m0 & q & i & m2 & Hf & Ha & Hq & Hlo & Hhi & Hi & Hnp & Ho & Hd).
  pose proof (normalizeMatch_innings1 now (settings data) m0) as H1.
  pose proof (normalizeMatch_innings2 now (settings data) m0) as H2.
  eexists ix, m0, m2, _, _. split; [done|]. split; [done|].
  split; [exact H1|]. split; [exact H2|]. split.
  - intros Hk. rewrite Hk in Ho.
    destruct (openInnings2_frame _ _ _ _ _ Ho) as (Hi1 & _).
    rewrite Hi1. cbn. exact H1.
  - intros Hk. rewrite Hk in Ho.
    apply (openInnings2_innings2 _ _ _ _ _ Ho). cbn. exact H2.
Qed.

(** X7. What the score route refuses, for an admin and an existing match:
    a score that is not finite or lies outside [minScore] and [maxScore];
    a score for a second innings that is still [pending], which is the
    case only while the first innings is not scored; and, when the first
    innings is scored while the second is pending, a start time of the
    second innings that is not a date, on which the handler throws. In all
    three cases nothing is saved, so in the last one the score is lost. *)
Theorem scoreRoute_refusals
    (now : Z) (data : Data) (matchId : string) (body : ScoreBody)
    (ix : nat) (m0 : Match) :
  findMatch matchId data = Some (ix, m0) →
  ensureAdmin hashPin data (s_adminPin body) = true →
  let m := normalizeMatch now (settings data) m0 in
  let key := inningsKeyOf (s_innings body) in
  let lo := minScore (settings data) in
  let hi := maxScore (settings data) in
  let r := scoreRoute hashPin now data matchId body in
  (isFinite (s_actualScore body) = false → r = (ReplyScoreRange lo hi, data))
  ∧ (∀ q, s_actualScore body = Fin q →
       ((q < inject_Z lo)%Q ∨ (inject_Z hi < q)%Q →
          r = (ReplyScoreRange lo hi, data))
       ∧ ((inject_Z lo <= q)%Q → (q <= inject_Z hi)%Q →
          ∀ i2, innings2 m = Some i2 → status i2 = pending →
            status (legacyInnings1 m0) ≠ scored
            ∧ (key = Innings2 →
                 r = (ReplyError 400 "Innings 2 is not open yet.", data))
            ∧ (key = Innings1 → s_innings2StartTime body = LockInvalid →
                 r = (ReplyThrown RangeErr, data))))
  ∧ r.1 ≠ ReplyThrown TypeErr
  ∧ (r.1 ≠ ReplyOk → r.2 = data).
Proof.
  intros Hf Ha m key lo hi r.
  assert (Hstart : ∀ q, s_actualScore body = Fin q →
            r = if ltZ q lo || gtZ q hi then (ReplyScoreRange lo hi, data)
                else match inningsOf key m with
                     | None => (ReplyThrown TypeErr, data)
                     | Some inningsData =>
                         if bool_decide (key = Innings2)
                            && bool_decide (status inningsData = pending)
                         then (ReplyError 400 "Innings 2 is not open yet.", data)
                         else scoreRoute hashPin now data matchId body
                     end).
  { intros q Hq. unfold r, scoreRoute. rewrite Hf, Ha, Hq. cbn [negb].
    fold lo hi m key. destruct (ltZ q lo || gtZ q hi); [done|].
    destruct (inningsOf key m) as [i|]; [|done].
    by destruct (bool_decide (key = Innings2)
                 && bool_decide (status i = pending)). }
  split; [|split; [|split]].
  - intros Hfin. unfold r, scoreRoute. rewrite Hf, Ha. cbn [negb].
    by destruct (s_actualScore body).
  - intros q Hq. split.
    + intros Hout. rewrite (Hstart q Hq).
      destruct Hout as [H|H].
      * by rewrite (proj2 (ltZ_true _ _) H).
      * by rewrite (proj2 (gtZ_true _ _) H), orb_true_r.
    + intros Hlo Hhi i2 Hi2 Hs. split; [|split].
      * intros H1.
        apply (normalizeMatch_promoted now (settings data) m0 _ i2
                 (normalizeMatch_innings1 _ _ _) Hi2).
        split; [|done]. rewrite autoLock_status, H1. done.
      * intros Hk. rewrite (Hstart q Hq).
        rewrite (proj2 (ltZ_false _ _) Hlo), (proj2 (gtZ_false _ _) Hhi).
        cbn [orb]. rewrite Hk. cbn [inningsOf]. rewrite Hi2.
        by rewrite (bool_decide_eq_true_2 _ Hs).
      * intros Hk Hinv.
        destruct (normalizeMatch_is_Some now (settings data) m0 key) as [i Hi].
        fold m in Hi. unfold r.
        rewrite (scoreRoute_checked now data matchId body ix m0 q i
                   Hf Ha Hq Hlo Hhi Hi)
          by (intros [Hk' _]; fold key in Hk'; congruence).
        fold m key. rewrite Hk, Hinv. unfold openInnings2.
        assert (Hi2' : innings2
                  (storeResult Innings1
                     (computeInningsResult (Some (mathRound q))
                        (predictionMap Innings1 m0) (players data))
                     (withInningsOf Innings1
                        (setStatus scored (setScore (Some (mathRound q)) i)) m))
                  = Some i2) by exact Hi2.
        rewrite Hi2', (bool_decide_eq_true_2 _ Hs). reflexivity.
  - unfold r. destruct (s_actualScore body) as [| | |q] eqn:Hq;
      try (unfold scoreRoute; rewrite Hf, Ha, Hq; cbn [negb]; discriminate).
    destruct (ltZ q lo || gtZ q hi) eqn:Hr;
      [fold r; rewrite (Hstart q eq_refl), Hr; discriminate|].
    apply orb_false_iff in Hr as [Hlo Hhi].
    apply ltZ_false in Hlo. apply gtZ_false in Hhi.
    destruct (normalizeMatch_is_Some now (settings data) m0 key) as [i Hi].
    fold m in Hi.
    destruct (decide (key = Innings2 ∧ status i = pending)) as [[Hk Hs]|Hnp].
    { fold r. rewrite (Hstart q eq_refl).
      rewrite (proj2 (ltZ_false _ _) Hlo), (proj2 (gtZ_false _ _) Hhi).
      cbn [orb]. rewrite Hi.
      rewrite (bool_decide_eq_true_2 _ Hk), (bool_decide_eq_true_2 _ Hs).
      discriminate. }
    rewrite (scoreRoute_checked now data matchId body ix m0 q i
               Hf Ha Hq Hlo Hhi Hi Hnp).
    fold m key.
    destruct (openInnings2 _ _ _ _) as [m2|e] eqn:Ho; [discriminate|].
    cbn [fst]. intros [= ->]. revert Ho. unfold openInnings2.
    destruct key; [|done].
    assert (Hi2' : ∀ x y, innings2 (storeResult Innings1 x
                                     (withInningsOf Innings1 y m))
                          = innings2 m) by done.
    rewrite Hi2'. unfold m. rewrite normalizeMatch_innings2.
    repeat case_match; done.
  - unfold r, scoreRoute. repeat case_match; cbn [fst snd]; done.
Qed.

(** X8. After a score request is answered ok the scoreboard works with the
    result just stored, which is the one it would compute itself, and every
    winner in it is a player of the room with a prediction for the innings:
    on a room as the score route leaves it, every player in the winner set
    of the innings gets the win. *)
Theorem scoreRoute_result_consistent
    (now : Z) (data : Data) (matchId : string) (body : ScoreBody)
    (data' : Data) :
  scoreRoute hashPin now data matchId body = (ReplyOk, data') →
  let key := inningsKeyOf (s_innings body) in
  ∃ ix m' sc,
    matches data' !! ix = Some m'
    ∧ scoredScore key m' = Some sc
    ∧ resultFor data' m' key sc
      = computeInningsResult (Some sc) (default ∅ (predictionsOf key m'))
          (players data')
    ∧ (∀ pid, pid ∈ winnerSetFor data' m' key sc →
         ∃ p v, p ∈ players data' ∧ id p = pid
                ∧ default ∅ (predictionsOf key m') !! pid = Some v).
Proof.
  intros H key.
  destruct (scoreRoute_saved now data matchId body data' H)
    as (ix & m0 & m' & q & i & Hf & Hd & Hq & _ & _ & Hi & Hi' & Hres & Hp
        & _ & _).
  fold key in Hi, Hi', Hres.
  destruct (computeInningsResult_is_Some (mathRound q) (predictionMap key m0)
              (players data)) as [r Hr].
  assert (Hpo : predictionsOf key m' = Some (predictionMap key m0)).
  { unfold predictionsOf. rewrite Hp.
    rewrite <- (normalizeMatch_predictionsOf now (settings data) m0 key).
    reflexivity. }
  assert (Hro : resultOf key m' = Some r).
  { unfold resultOf. rewrite Hres, Hr. by destruct key. }
  exists ix, m', (mathRound q).
  assert (Hss : scoredScore key m' = Some (mathRound q)).
  { unfold scoredScore. by rewrite Hi'. }
  assert (Hrf : resultFor data' m' key (mathRound q) = Some r).
  { unfold resultFor. by rewrite Hro. }
  split; [|split; [done|split]].
  - rewrite Hd. cbn [matches withMatches]. apply list_lookup_insert_eq.
    apply findMatch_Some in Hf as [Hf _]. by eapply lookup_lt_Some.
  - rewrite Hrf, Hpo, Hd. symmetry. exact Hr.
  - intros pid. unfold winnerSetFor. rewrite Hrf, Hpo.
    rewrite elem_of_list_to_set. intros Hw. rewrite Hd.
    exact (computeInningsResult_winners _ _ _ _ _ Hr Hw).
Qed.

(** X9. Once an innings is scored, a prediction for it is refused whenever
    it is sent, and the room stays as the score request saved it. *)
Theorem scoreRoute_closes_predictions
    (now t t' : Z) (data : Data) (matchId : string) (body : ScoreBody)
    (pbody : PredictBody) (data' : Data) :
  scoreRoute hashPin now data matchId body = (ReplyOk, data') →
  inningsKeyOf (b_innings pbody) = inningsKeyOf (s_innings body) →
  predict t t' data' matchId pbody = (TossNotSet, data')
  ∨ predict t t' data' matchId pbody = (InningsNotOpen, data').
Proof.
  intros H Hk.
  destruct (scoreRoute_saved now data matchId body data' H)
    as (ix & m0 & m' & q & i & Hf & Hd & _ & _ & _ & _ & Hi' & _ & _ & _ & Hid).
  assert (Hf' : findMatch matchId data' = Some (ix, m')).
  { rewrite Hd. by apply (findMatch_insert matchId data ix m0 m' Hf). }
  eapply (predict_closed_status t t' data' matchId pbody ix m' _ Hf').
  - rewrite Hk. exact Hi'.
  - by right.
Qed.

End ScoreRoute.

(** ** Properties of the toss route *)

(** A prediction for an innings that the stored match shows as locked, at
    the time the match is normalized, is refused and nothing is saved. *)
Lemma predict_locked_innings t t' data matchId body ix m0 :
  findMatch matchId data = Some (ix, m0) →
  isInningsLocked t (Some (targetInnings (inningsKeyOf (b_innings body)) m0))
  = true →
  predict t t' data matchId body = (TossNotSet, data)
  ∨ predict t t' data matchId body = (InningsNotOpen, data).
Proof.
  intros Hf Hl. unfold predict. rewrite Hf.
  destruct (getBattingTeams _); [right|by left].
  set (key := inningsKeyOf (b_innings body)) in *.
  rewrite normalizeMatch_inningsOf
    by (by apply (isInningsLocked_not_pending t)).
  assert (Hs : status (autoLock t (targetInnings key m0)) ≠ open).
  { rewrite autoLock_status. revert Hl. unfold isInningsLocked.
    destruct (targetInnings key m0) as [s lt sc]; simpl.
    destruct s; simpl; try done. destruct lt; simpl; try done.
    by intros ->. }
  by rewrite (bool_decide_eq_false_2 _ Hs).
Qed.

Section TossRoute.
Variable hashPin : string → string.

(** X10. A toss request of an admin that names one of the two teams and
    "bat" or "field" is answered ok and stores the toss; the match is
    otherwise as it was stored. When the winner's name is not empty the
    batting order is resolved from then on and the two teams of the match
    bat once each, the winner first on "bat" and second on "field"; when a
    team has the empty name and wins, the toss is stored all the same but
    the batting order stays unresolved. *)
Theorem tossRoute_sets_toss
    (data : Data) (matchId : string) (body : TossBody) (ix : nat) (m0 : Match) :
  findMatch matchId data = Some (ix, m0) →
  ensureAdmin hashPin data (t_adminPin body) = true →
  t_winner body = teamA m0 ∨ t_winner body = teamB m0 →
  t_decision body = "bat" ∨ t_decision body = "field" →
  ∃ m',
    tossRoute hashPin data matchId body
    = (ReplyOk, withMatches (<[ix := m']> (matches data)) data)
    ∧ toss m' = Some {| winner := Some (t_winner body);
                        decision := Some (t_decision body) |}
    ∧ innings1 m' = innings1 m0 ∧ innings2 m' = innings2 m0
    ∧ predictions m' = predictions m0 ∧ result m' = result m0
    ∧ (t_winner body = "" → getBattingTeams m' = None)
    ∧ (t_winner body ≠ "" →
       ∃ bt, getBattingTeams m' = Some bt
             ∧ (t_decision body = "bat" → bat_innings1 bt = t_winner body)
             ∧ (t_decision body = "field" → bat_innings2 bt = t_winner body)
             ∧ (bat_innings1 bt = teamA m0 ∧ bat_innings2 bt = teamB m0
                ∨ bat_innings1 bt = teamB m0 ∧ bat_innings2 bt = teamA m0)).
Proof.
  intros Hf Ha Hw Hd. eexists. split.
  { unfold tossRoute. rewrite Hf, Ha. cbn [negb].
    by rewrite (bool_decide_eq_true_2 _ Hw), (bool_decide_eq_true_2 _ Hd). }
  repeat split; try reflexivity.
  - intros He. unfold getBattingTeams. cbn. by rewrite He.
  - intros Hne.
    set (other_team := if bool_decide (t_winner body = teamA m0)
                       then teamB m0 else teamA m0).
    assert (Ho : t_winner body = teamA m0 ∧ other_team = teamB m0
                 ∨ t_winner body = teamB m0 ∧ other_team = teamA m0).
    { unfold other_team. case_bool_decide; [by left|right].
      split; [|done]. by destruct Hw. }
    unfold getBattingTeams.
    cbn [toss withToss winner decision teamA teamB].
    rewrite (truthy_Some _ Hne). cbn [negb orb]. fold other_team.
    destruct Hd as [Hd|Hd]; rewrite Hd.
    + exists {| bat_innings1 := t_winner body; bat_innings2 := other_team |}.
      split; [reflexivity|]. cbn [bat_innings1 bat_innings2].
      split; [done|]. split; [done|].
      destruct Ho as [[-> ->]|[-> ->]]; auto.
    + exists {| bat_innings1 := other_team; bat_innings2 := t_winner body |}.
      split; [reflexivity|]. cbn [bat_innings1 bat_innings2].
      split; [done|]. split; [done|].
      destruct Ho as [[-> ->]|[-> ->]]; auto.
Qed.

(** X11. The toss route refuses a winner that is neither team of the match
    and, the winner being one of them, a decision that is neither "bat" nor
    "field"; in both cases nothing is saved, a toss stored before stays. *)
Theorem tossRoute_refusals
    (data : Data) (matchId : string) (body : TossBody) (ix : nat) (m0 : Match) :
  findMatch matchId data = Some (ix, m0) →
  ensureAdmin hashPin data (t_adminPin body) = true →
  (t_winner body ≠ teamA m0 → t_winner body ≠ teamB m0 →
     tossRoute hashPin data matchId body
     = (ReplyError 400 "Toss winner must be Team A or Team B.", data))
  ∧ (t_winner body = teamA m0 ∨ t_winner body = teamB m0 →
     t_decision body ≠ "bat" → t_decision body ≠ "field" →
     tossRoute hashPin data matchId body
     = (ReplyError 400 "Decision must be bat or field.", data)).
Proof.
  intros Hf Ha. unfold tossRoute. rewrite Hf, Ha. cbn [negb]. split.
  - intros H1 H2. rewrite bool_decide_eq_false_2; [done|]. tauto.
  - intros Hw H1 H2. rewrite (bool_decide_eq_true_2 _ Hw). cbn [negb].
    rewrite bool_decide_eq_false_2; [done|]. tauto.
Qed.

(** X12. Setting the toss is what opens a match for predictions: after a
    toss request answered ok with a winner whose name is not empty, a
    prediction is never refused with "Set the toss before predictions.". *)
Theorem tossRoute_unblocks_predictions
    (t t' : Z) (data : Data) (matchId : string) (body : TossBody)
    (pbody : PredictBody) (data' : Data) :
  tossRoute hashPin data matchId body = (ReplyOk, data') →
  t_winner body ≠ "" →
  (predict t t' data' matchId pbody).1 ≠ TossNotSet.
Proof.
  intros H Hne. unfold tossRoute in H.
  destruct (findMatch matchId data) as [[ix m0]|] eqn:Hf; [|done].
  destruct (negb (ensureAdmin hashPin data (t_adminPin body))); [done|].
  destruct (bool_decide (t_winner body = teamA m0 ∨ t_winner body = teamB m0))
    eqn:Hw; [|done].
  destruct (bool_decide (t_decision body = "bat" ∨ t_decision body = "field"))
    eqn:Hd; [|done].
  cbn [negb] in H. injection H as <-.
  apply bool_decide_eq_true in Hd.
  set (m' := withToss _ m0).
  assert (Hf' : findMatch matchId
                  (withMatches (<[ix := m']> (matches data)) data)
                = Some (ix, m'))
    by (by apply (findMatch_insert matchId data ix m0 m' Hf)).
  unfold predict. rewrite Hf'.
  assert (Hbt : is_Some (getBattingTeams
                  (normalizeMatch t
                     (settings (withMatches (<[ix := m']> (matches data)) data))
                     m'))).
  { apply getBattingTeams_is_Some.
    exists (t_winner body), (t_decision body). by repeat split. }
  destruct Hbt as [bt ->]. repeat case_match; cbn [fst]; discriminate.
Qed.

End TossRoute.

(** ** Further properties of the reopen route *)

Section ReopenMore.
Variable hashPin : string → string.

(** X13. A reopen request of an admin whose [innings] is neither 1 nor 2
    (missing, 0, 3, ...) reopens the whole match: the first innings is
    [open] without score, with the lock time it had, the second is [pending]
    without score and without lock time, and the stored results of both
    innings are dropped while the predictions stay. Neither innings then
    counts for the scoreboard, and the second innings takes no prediction at
    any time. *)
Theorem reopen_whole_match
    (now t t' : Z) (data : Data) (matchId : string) (body : ReopenBody)
    (pbody : PredictBody) (ix : nat) (m0 : Match) :
  findMatch matchId data = Some (ix, m0) →
  ensureAdmin hashPin data (adminPin body) = true →
  rb_innings body ≠ Some 1 → rb_innings body ≠ Some 2 →
  let m := normalizeMatch now (settings data) m0 in
  ∃ m' i1,
    reopen hashPin now data matchId body
    = (Ok, withMatches (<[ix := m']> (matches data)) data)
    ∧ innings1 m = Some i1
    ∧ innings1 m'
      = Some {| status := open; lockTime := lockTime i1; score := None |}
    ∧ innings2 m'
      = Some {| status := pending; lockTime := LockAbsent; score := None |}
    ∧ result m' = None
    ∧ predictions m' = predictions m
    ∧ toss m' = toss m0
    ∧ (∀ k, scoredScore k m' = None)
    ∧ (inningsKeyOf (b_innings pbody) = Innings2 →
       let data' := withMatches (<[ix := m']> (matches data)) data in
       predict t t' data' matchId pbody = (TossNotSet, data')
       ∨ predict t t' data' matchId pbody = (InningsNotOpen, data')).
Proof.
  intros Hf Ha Hn1 Hn2 m.
  pose proof (normalizeMatch_innings1 now (settings data) m0) as H1.
  pose proof (normalizeMatch_innings2 now (settings data) m0) as H2.
  fold m in H1, H2.
  eexists _, _. split.
  { unfold reopen. rewrite Hf, Ha. cbn [negb]. fold m.
    rewrite bool_decide_eq_false_2.
    - rewrite H1, H2. reflexivity.
    - destruct (rb_innings body) as [n|]; [|by intros [|]].
      destruct (n =? 0); intros [|]; congruence. }
  split; [exact H1|]. repeat split; try reflexivity.
  - by intros [].
  - intros Hk data'.
    set (m' := withResult None _) in *.
    assert (Hf' : findMatch matchId data' = Some (ix, m'))
      by (by apply (findMatch_insert matchId data ix m0 m' Hf)).
    unfold predict. rewrite Hf', Hk.
    destruct (getBattingTeams _); [right|by left].
    cbn [inningsOf]. rewrite normalizeMatch_innings2.
    rewrite autoLock_status, promoteInnings2_status. reflexivity.
Qed.

(** X14. Reopening one innings does not move its lock time: when the lock
    time of the reopened innings is at or before the time of a later
    prediction request, the request is refused all the same (the innings,
    saved as [open], is locked again as soon as the match is normalized),
    and the room stays as the reopen request saved it. *)
Theorem reopen_keeps_lock_time
    (now t t' : Z) (data : Data) (matchId : string) (body : ReopenBody)
    (pbody : PredictBody) (ix : nat) (m0 : Match) (i : Innings) (lock : Z) :
  findMatch matchId data = Some (ix, m0) →
  ensureAdmin hashPin data (adminPin body) = true →
  rb_innings body = Some 1 ∨ rb_innings body = Some 2 →
  let key := inningsKeyOf (rb_innings body) in
  inningsOf key (normalizeMatch now (settings data) m0) = Some i →
  lockTime i = LockAt lock → lock ≤ t →
  inningsKeyOf (b_innings pbody) = key →
  let data' := (reopen hashPin now data matchId body).2 in
  (reopen hashPin now data matchId body).1 = Ok
  ∧ (∃ m', matches data' !! ix = Some m'
           ∧ inningsOf key m'
             = Some {| status := open; lockTime := LockAt lock; score := None |})
  ∧ (predict t t' data' matchId pbody = (TossNotSet, data')
     ∨ predict t t' data' matchId pbody = (InningsNotOpen, data')).
Proof.
  intros Hf Ha Hb key Hi Hl Hle Hk data'.
  set (m := normalizeMatch now (settings data) m0) in *.
  set (m' := clearResult key
               (withInningsOf key (setScore None (setStatus open i)) m)).
  assert (Hr : reopen hashPin now data matchId body
               = (Ok, withMatches (<[ix := m']> (matches data)) data)).
  { unfold reopen. rewrite Hf, Ha. cbn [negb]. fold m.
    assert (Hinn : match rb_innings body with
                   | Some n => if n =? 0 then None else Some n
                   | None => None
                   end = rb_innings body)
      by (destruct Hb as [-> | ->]; reflexivity).
    rewrite Hinn, (bool_decide_eq_true_2 _ Hb). fold key. by rewrite Hi. }
  assert (Hin : inningsOf key m'
                = Some {| status := open; lockTime := LockAt lock;
                          score := None |}).
  { unfold m'. destruct (clearResult_spec key
      (withInningsOf key (setScore None (setStatus open i)) m))
      as (_ & _ & Hc1 & Hc2 & _).
    clear Hr. destruct key; cbn [inningsOf]; [rewrite Hc1 | rewrite Hc2];
      cbn [withInningsOf withInnings innings1 innings2 setScore setStatus
           status lockTime score]; by rewrite <- Hl. }
  assert (Hd : data' = withMatches (<[ix := m']> (matches data)) data)
    by (unfold data'; by rewrite Hr).
  split; [by rewrite Hr|]. split.
  { exists m'. split; [|done]. rewrite Hd. cbn [matches withMatches].
    apply list_lookup_insert_eq.
    apply findMatch_Some in Hf as [Hf _]. by eapply lookup_lt_Some. }
  assert (Hid : m_id m' = m_id m0).
  { unfold m', clearResult. destruct (result _); by destruct key. }
  assert (Hf' : findMatch matchId data' = Some (ix, m'))
    by (rewrite Hd; by apply (findMatch_insert matchId data ix m0 m' Hf)).
  apply (predict_locked_innings t t' data' matchId pbody ix m' Hf').
  rewrite Hk.
  assert (Ht : targetInnings key m'
               = {| status := open; lockTime := LockAt lock; score := None |}).
  { destruct key; cbn [targetInnings inningsOf] in *;
      unfold legacyInnings1, legacyInnings2; by rewrite Hin. }
  rewrite Ht. unfold isInningsLocked. cbn.
  rewrite (bool_decide_eq_true_2 (lock ≤ t) Hle).
  rewrite (bool_decide_eq_true_2 (open = open) eq_refl).
  by rewrite !bool_decide_eq_false_2.
Qed.

End ReopenMore.

(** ** The admin PIN *)

Section AdminGate.
Variable hashPin : string → string.

Lemma ensureAdmin_false data pin :
  ensureAdmin hashPin data pin = false →
  usePin (settings data) = true
  ∧ (pin = None ∨ pin = Some ""
     ∨ Some (hashPin (default "" pin)) ≠ adminPinHash (settings data)).
Proof.
  unfold ensureAdmin. destruct (usePin _); [|done]. cbn [negb].
  destruct pin as [s|]; [|by auto]. cbn [truthy].
  destruct (bool_decide (s = "")) eqn:Es; cbn [negb].
  - apply bool_decide_eq_true in Es as ->. by auto.
  - intros H%bool_decide_eq_false. by auto.
Qed.

(** X15. Without admin permission no admin route changes the room: when the
    PIN of the request does not pass [ensureAdmin] (which needs the room to
    use a PIN, and the PIN to be missing, empty, or of another hash than the
    stored one), the lock, toss, score and reopen routes answer 404 when the
    match is unknown and 403 otherwise, the route that creates a match
    answers 403, and each of them leaves the room as it was. *)
Theorem admin_routes_guarded
    (now : Z) (data : Data) (matchId newId : string) (pin : option string)
    (lb : ReopenBody) (tb : TossBody) (sb : ScoreBody) (cb : CreateBody) :
  ensureAdmin hashPin data pin = false →
  adminPin lb = pin → t_adminPin tb = pin → s_adminPin sb = pin →
  c_adminPin cb = pin →
  let refused (r : Reply * Data) :=
    match findMatch matchId data with
    | Some _ => r = (ReplyError 403 "Invalid admin PIN.", data)
    | None => r = (ReplyError 404 "Match not found.", data)
    end in
  usePin (settings data) = true
  ∧ (pin = None ∨ pin = Some ""
     ∨ Some (hashPin (default "" pin)) ≠ adminPinHash (settings data))
  ∧ refused (lockRoute hashPin now data matchId lb)
  ∧ refused (tossRoute hashPin data matchId tb)
  ∧ refused (scoreRoute hashPin now data matchId sb)
  ∧ reopen hashPin now data matchId lb
    = (match findMatch matchId data with
       | Some _ => InvalidAdminPin
       | None => MatchNotFound
       end, data)
  ∧ createMatchRoute hashPin newId data cb
    = (ReplyError 403 "Invalid admin PIN.", data).
Proof.
  intros Ha Hl Ht Hs Hc refused.
  destruct (ensureAdmin_false data pin Ha) as [Hu Hp].
  unfold refused, lockRoute, tossRoute, scoreRoute, reopen, createMatchRoute.
  rewrite Hl, Ht, Hs, Hc, Ha. cbn [negb].
  by destruct (findMatch matchId data) as [[ix m0]|].
Qed.

End AdminGate.

(** ** Creating a match *)

Lemma scoreInnings_ext data data' m m' k stats :
  players data = players data' → settings data = settings data' →
  scoredScore k m = scoredScore k m' →
  predictionsOf k m = predictionsOf k m' →
  resultOf k m = resultOf k m' →
  scoreInnings data m k stats = scoreInnings data' m' k stats.
Proof.
  intros Hp Hs Hsc Hpr Hr.
  unfold scoreInnings, winnerSetFor, resultFor.
  by rewrite Hp, Hs, Hsc, Hpr, Hr.
Qed.

Lemma scoreInnings_unscored data m k stats :
  scoredScore k m = None → scoreInnings data m k stats = stats.
Proof. intros H. unfold scoreInnings. by rewrite H. Qed.

Lemma accumulate_matches data ms ms' :
  Forall2 (λ m m', ∀ k, scoredScore k m = scoredScore k m'
                        ∧ predictionsOf k m = predictionsOf k m'
                        ∧ resultOf k m = resultOf k m') ms ms' →
  accumulate (withMatches ms data) = accumulate (withMatches ms' data).
Proof.
  unfold accumulate. cbn [players matches withMatches].
  generalize (initialStats (players data)).
  intros stats H. revert stats.
  induction H as [|m m' ms ms' Hm _ IH]; intros stats; [done|].
  cbn [foldl]. rewrite <- IH. f_equal.
  destruct (Hm Innings1) as (? & ? & ?), (Hm Innings2) as (? & ? & ?).
  rewrite (scoreInnings_ext (withMatches (m :: ms) data)
             (withMatches (m' :: ms') data) m m' Innings1) by done.
  by apply scoreInnings_ext.
Qed.

Lemma accumulate_unscored data ms m :
  (∀ k, scoredScore k m = None) →
  accumulate (withMatches (ms ++ [m]) data) = accumulate (withMatches ms data).
Proof.
  intros Hm. unfold accumulate. cbn [players matches withMatches].
  rewrite foldl_app. cbn [foldl].
  rewrite !(scoreInnings_unscored _ m) by done.
  generalize (initialStats (players data)). intros stats.
  reflexivity.
Qed.

Lemma withMatches_id data : withMatches (matches data) data = data.
Proof. by destruct data. Qed.

Lemma findMatch_app_fresh matchId data m :
  (∀ m0, m0 ∈ matches data → m_id m0 ≠ m_id m) →
  findMatch (m_id m) (withMatches (matches data ++ [m]) data)
  = Some (length (matches data), m)
  ∧ (matchId ≠ m_id m →
     findMatch matchId (withMatches (matches data ++ [m]) data)
     = findMatch matchId data).
Proof.
  intros Hfresh. unfold findMatch. cbn [matches withMatches]. split.
  - apply list_find_Some. split; [|split; [done|]].
    + rewrite lookup_app_r by done. by rewrite Nat.sub_diag.
    + intros j y Hj Hlt. rewrite lookup_app_l in Hj by done.
      apply Hfresh. by eapply list_elem_of_lookup_2.
  - intros Hne.
    destruct (list_find (λ m0, m_id m0 = matchId) (matches data))
      as [[ix m0]|] eqn:E.
    + by apply list_find_app_l.
    + rewrite list_find_app_r by done.
      cbn. by rewrite decide_False by done.
Qed.

Section CreateMatch.
Variable hashPin : string → string.
Variable localeCompare : string → string → Z.

Lemma createMatchRoute_Ok_inv newId data body data' :
  createMatchRoute hashPin newId data body = (ReplyOk, data') →
  ensureAdmin hashPin data (c_adminPin body) = true
  ∧ c_teamA body ≠ "" ∧ c_teamB body ≠ ""
  ∧ ∃ t,
      data' = withMatches
                (matches data ++
                   [{| m_id := newId;
                       teamA := c_teamA body; teamB := c_teamB body;
                       toss := None;
                       innings1 := Some {| status := open; lockTime := t;
                                           score := None |};
                       innings2 := Some {| status := pending;
                                           lockTime := LockAbsent;
                                           score := None |};
                       predictions := emptyPredictions;
                       result := None;
                       m_status := None; m_lockTime := LockAbsent;
                       actualScore := None;
                       innings2LockTime := LockAbsent;
                       innings2Score := None |}]) data
      ∧ (∀ ms, c_lockTime body = LockAt ms → t = LockAt ms ∧ validTime ms = true)
      ∧ (c_lockTime body = LockAbsent →
         ∀ ms, c_matchDate body = LockAt ms →
           t = LockAt (ms - lockMinutesBeforeStart (settings data) * 60 * 1000)
           ∧ validTime ms = true)
      ∧ (c_lockTime body = LockAbsent → c_matchDate body = LockAbsent →
         t = LockAbsent).
Proof.
  unfold createMatchRoute.
  destruct (ensureAdmin _ _ _); [|done]. cbn [negb].
  destruct (bool_decide (c_teamA body = "")) eqn:Ea; [done|].
  destruct (bool_decide (c_teamB body = "")) eqn:Eb; [done|].
  apply bool_decide_eq_false in Ea, Eb. cbn [orb].
  destruct (c_matchDate body) as [| |md];
    cbn [lockTruthy toISOString fmap option_fmap option_map]; [|done|].
  - destruct (c_lockTime body) as [| |lt];
      cbn [lockTruthy toISOString computeLockTime fmap option_fmap option_map];
      [|done|].
    + intros [= <-]. split_and!; [done..|]. eexists.
      split_and!; [done|..]; intros; by simplify_eq.
    + destruct (validTime lt) eqn:El; [|done].
      cbn [fmap option_fmap option_map].
      intros [= <-]. split_and!; [done..|]. eexists.
      split_and!; [done|..]; intros; by simplify_eq.
  - destruct (validTime md) eqn:Em; [|done].
    cbn [fmap option_fmap option_map].
    destruct (c_lockTime body) as [| |lt];
      cbn [lockTruthy toISOString computeLockTime fmap option_fmap option_map];
      [|done|].
    + rewrite Em. cbn [negb].
      destruct (validTime (md - _)) eqn:El; [|done].
      intros [= <-]. split_and!; [done..|]. eexists.
      split_and!; [done|..]; intros; by simplify_eq.
    + destruct (validTime lt) eqn:El; [|done].
      cbn [fmap option_fmap option_map].
      intros [= <-]. split_and!; [done..|]. eexists.
      split_and!; [done|..]; intros; by simplify_eq.
Qed.

(** X16. A match created by an admin waits for its toss and counts for
    nothing yet. When the route answers [ok] and the new id is not the id of
    a stored match, the room is the old one with one match appended; the new
    match is the one found under the new id, every other id finds what it
    found before; the new match is left as it is by the normalizer as long
    as the lock time of its first innings has not passed; a prediction for
    it is refused with "toss not set" at any time; and the scoreboard is the
    one of the old room. *)
Theorem createMatchRoute_adds_match
    (newId : string) (data data' : Data) (body : CreateBody) :
  createMatchRoute hashPin newId data body = (ReplyOk, data') →
  (∀ m0, m0 ∈ matches data → m_id m0 ≠ newId) →
  ∃ m',
    data' = withMatches (matches data ++ [m']) data
    ∧ findMatch newId data' = Some (length (matches data), m')
    ∧ (∀ matchId, matchId ≠ newId →
         findMatch matchId data' = findMatch matchId data)
    ∧ teamA m' = c_teamA body ∧ teamB m' = c_teamB body
    ∧ (∀ now i1, innings1 m' = Some i1 →
         lockPassed now (lockTime i1) = false →
         normalizeMatch now (settings data) m' = m')
    ∧ (∀ t t' pbody, predict t t' data' newId pbody = (TossNotSet, data'))
    ∧ buildScoreboard localeCompare data' = buildScoreboard localeCompare data.
Proof.
  intros Hc Hfresh.
  destruct (createMatchRoute_Ok_inv _ _ _ _ Hc)
    as (_ & _ & _ & t & -> & _).
  set (m' := mkMatch newId _ _ _ _ _ _ _ _ _ _ _ _).
  exists m'.
  destruct (findMatch_app_fresh newId data m' Hfresh) as [Hf _].
  split; [done|]. split; [exact Hf|]. split.
  { intros matchId Hne.
    by apply (findMatch_app_fresh matchId data m' Hfresh). }
  split; [done|]. split; [done|]. split.
  { intros now i1 [= <-] Hl.
    eapply normalizeMatch_fixed; try reflexivity.
    - by intros [[=] _].
    - apply autoLock_fixed. by right. }
  split.
  { intros t0 t' pbody. unfold predict.
    cbn [m_id m'] in Hf. rewrite Hf. reflexivity. }
  unfold buildScoreboard. rewrite accumulate_unscored.
  - by rewrite withMatches_id.
  - by intros [].
Qed.

(** X17. The lock time of the first innings of a created match: the lock
    time of the request when it has one, else the match date less
    [lockMinutesBeforeStart] minutes when it has a match date, else none;
    the dates used are valid ones. A date of the request that cannot be
    parsed makes the handler throw a [RangeError] and leaves the room as it
    was. *)
Theorem createMatchRoute_lock_time
    (newId : string) (data : Data) (body : CreateBody) :
  ensureAdmin hashPin data (c_adminPin body) = true →
  c_teamA body ≠ "" → c_teamB body ≠ "" →
  let r := createMatchRoute hashPin newId data body in
  let minutes := lockMinutesBeforeStart (settings data) in
  (c_matchDate body = LockInvalid ∨ c_lockTime body = LockInvalid →
   r = (ReplyThrown RangeErr, data))
  ∧ (r.1 = ReplyOk ∨ r = (ReplyThrown RangeErr, data))
  ∧ (r.1 = ReplyOk →
     ∃ m' i1,
       last (matches r.2) = Some m' ∧ innings1 m' = Some i1
       ∧ length (matches r.2) = S (length (matches data))
       ∧ match c_lockTime body, c_matchDate body with
         | LockAt lt, _ => lockTime i1 = LockAt lt ∧ validTime lt = true
         | _, LockAt md =>
             lockTime i1 = LockAt (md - minutes * 60 * 1000)
             ∧ validTime md = true
         | _, _ => lockTime i1 = LockAbsent
         end).
Proof.
  intros Ha HA HB r minutes. subst r.
  assert (Hthrow : c_matchDate body = LockInvalid
                   ∨ c_lockTime body = LockInvalid →
                   createMatchRoute hashPin newId data body
                   = (ReplyThrown RangeErr, data)).
  { intros Hinv. unfold createMatchRoute. rewrite Ha. cbn [negb].
    rewrite !bool_decide_eq_false_2 by done. cbn [orb].
    destruct (c_matchDate body) as [| |md] eqn:Em;
      cbn [lockTruthy toISOString fmap option_fmap option_map]; [|done|].
    + destruct Hinv as [[=] | ->]. reflexivity.
    + destruct (validTime md); [|done]. cbn [fmap option_fmap option_map].
      destruct Hinv as [[=] | ->]. reflexivity. }
  split; [exact Hthrow|]. split.
  { unfold createMatchRoute. rewrite Ha. cbn [negb].
    rewrite !bool_decide_eq_false_2 by done. cbn [orb].
    destruct (if lockTruthy (c_matchDate body) then _ else _); [|by right].
    destruct (if lockTruthy (c_lockTime body) then _ else _); by auto. }
  intros Hok.
  destruct (createMatchRoute hashPin newId data body) as [rep data'] eqn:Er.
  cbn [fst] in Hok. subst rep.
  destruct (createMatchRoute_Ok_inv _ _ _ _ Er)
    as (_ & _ & _ & t & -> & Hlt & Hmd & Hnone).
  eexists _, _. cbn [snd matches withMatches].
  split; [apply last_snoc|]. split; [reflexivity|].
  split; [rewrite length_app; cbn; lia|]. cbn [lockTime].
  destruct (c_lockTime body) as [| |lt] eqn:El.
  - destruct (c_matchDate body) as [| |md] eqn:Em.
    + by apply Hnone.
    + by specialize (Hthrow (or_introl eq_refl)).
    + by apply Hmd.
  - by specialize (Hthrow (or_intror eq_refl)).
  - by destruct (Hlt lt eq_refl) as [-> ?].
Qed.

End CreateMatch.

(** ** The state route *)

Lemma autoLock_mono now now' i :
  now ≤ now' → autoLock now' (autoLock now i) = autoLock now' i.
Proof.
  intros Hle. destruct i as [s l sc]. unfold autoLock. cbn [status lockTime].
  destruct (bool_decide (s = open)) eqn:Eo; cbn [andb];
    [|cbn [status]; by rewrite Eo].
  destruct (lockPassed now l) eqn:El; cbn [status lockTime setStatus];
    [|by rewrite Eo].
  destruct l as [| |lock]; try done.
  cbn in El |- *. apply bool_decide_eq_true in El.
  rewrite (bool_decide_eq_true_2 (lock ≤ now')) by lia.
  by rewrite bool_decide_eq_false_2.
Qed.

Lemma normalizeMatch_mono now now' st st' m :
  now ≤ now' →
  normalizeMatch now' st' (normalizeMatch now st m) = normalizeMatch now' st m.
Proof.
  intros Hle.
  rewrite normalizeMatch_canonical_autoLock by (by eexists _, _, _).
  apply Match_eq; try reflexivity; cbn [withInnings innings1 innings2].
  - rewrite !normalizeMatch_innings1. cbn. by rewrite autoLock_mono.
  - rewrite !normalizeMatch_innings2. cbn. by rewrite autoLock_mono.
Qed.

Lemma autoLock_scored now i :
  bool_decide (status (autoLock now i) = scored)
  = bool_decide (status i = scored).
Proof.
  rewrite autoLock_status.
  destruct (bool_decide (status i = open)) eqn:Eo; [|done].
  apply bool_decide_eq_true in Eo. rewrite Eo.
  by destruct (lockPassed now (lockTime i)).
Qed.

Lemma scoredScore_normalizeMatch now now' st m k :
  scoredScore k (normalizeMatch now st m)
  = scoredScore k (normalizeMatch now' st m).
Proof.
  unfold scoredScore.
  destruct k; cbn [inningsOf];
    rewrite ?normalizeMatch_innings1, ?normalizeMatch_innings2;
    by rewrite !autoLock_scored, !autoLock_score.
Qed.

Lemma scoredScore_normalizeMatch_canonical now now' st st' m k :
  scoredScore k (normalizeMatch now' st' (normalizeMatch now st m))
  = scoredScore k (normalizeMatch now st m).
Proof.
  rewrite normalizeMatch_canonical_autoLock by (by eexists _, _, _).
  unfold scoredScore.
  destruct k; cbn [inningsOf withInnings innings1 innings2];
    rewrite ?normalizeMatch_innings1, ?normalizeMatch_innings2; cbn;
    by rewrite !autoLock_scored, !autoLock_score.
Qed.

Lemma predictionsOf_normalizeMatch_twice now now' st st' m k :
  predictionsOf k (normalizeMatch now' st' (normalizeMatch now st m))
  = predictionsOf k (normalizeMatch now st m).
Proof.
  by rewrite !normalizeMatch_predictionsOf, predictionMap_normalizeMatch.
Qed.

(** X18. The scoreboard sent by the state route does not depend on the time
    of the request: normalizing at another time gives the same rows in the
    same order, and so does a later request, made at any time, on the room
    an earlier request has saved. *)
Theorem stateRoute_scoreboard_time_independent
    (localeCompare : string → string → Z) (now now' : Z) (data : Data) :
  (stateRoute localeCompare now data).1
  = (stateRoute localeCompare now' data).1
  ∧ (stateRoute localeCompare now' (stateRoute localeCompare now data).2).1
    = (stateRoute localeCompare now data).1.
Proof.
  unfold stateRoute. cbn [fst snd settings withMatches matches].
  unfold buildScoreboard. split.
  - f_equal. f_equal. apply accumulate_matches.
    apply Forall2_fmap, Forall_Forall2_diag, Forall_forall.
    intros m _ k. split; [apply scoredScore_normalizeMatch|]. split.
    + by rewrite !normalizeMatch_predictionsOf.
    + reflexivity.
  - f_equal. f_equal.
    apply (accumulate_matches data).
    apply Forall2_fmap_l, Forall2_fmap, Forall_Forall2_diag, Forall_forall.
    intros m _ k. split; [apply scoredScore_normalizeMatch_canonical|]. split.
    + apply predictionsOf_normalizeMatch_twice.
    + reflexivity.
Qed.

(** X19. Two state requests in a row, the second not earlier than the
    first, answer and save what the second alone would have: the matches
    normalized at the later time, with their scoreboard. In particular a
    repeated request at the same time changes nothing. *)
Theorem stateRoute_twice
    (localeCompare : string → string → Z) (now now' : Z) (data : Data) :
  now ≤ now' →
  stateRoute localeCompare now' (stateRoute localeCompare now data).2
  = stateRoute localeCompare now' data
  ∧ stateRoute localeCompare now (stateRoute localeCompare now data).2
    = stateRoute localeCompare now data.
Proof.
  intros Hle.
  assert (H : ∀ t t', t ≤ t' →
            stateRoute localeCompare t' (stateRoute localeCompare t data).2
            = stateRoute localeCompare t' data).
  { intros t t' Ht. unfold stateRoute.
    cbn [fst snd settings withMatches matches players].
    assert (Hm : normalizeMatch t' (settings data)
                 <$> (normalizeMatch t (settings data) <$> matches data)
                 = normalizeMatch t' (settings data) <$> matches data).
    { rewrite <- list_fmap_compose. apply list_fmap_ext.
      intros i m _. by apply normalizeMatch_mono. }
    unfold withMatches at 1 3. cbn [settings players].
    rewrite Hm. reflexivity. }
  split; apply H; lia.
Qed.

(** ** Stored predictions *)

Lemma predictionMap_predictions m m' k :
  predictions m = predictions m' → predictionMap k m = predictionMap k m'.
Proof. unfold predictionMap. by intros ->. Qed.

Lemma predictionMap_of_predictionsOf m k a b :
  predictionsOf Innings1 m = Some a → predictionsOf Innings2 m = Some b →
  predictionMap k m = match k with Innings1 => a | Innings2 => b end.
Proof.
  unfold predictionsOf, predictionMap, normalizePredictions.
  destruct (predictions m) as [[p1 p2 f]|]; [|done]. cbn.
  intros -> ->. by destruct k.
Qed.

Lemma predictionMap_insert data ix m0 m' k :
  matches data !! ix = Some m0 →
  predictionMap k m' = predictionMap k m0 →
  predictionMap k <$> <[ix := m']> (matches data)
  = predictionMap k <$> matches data.
Proof.
  intros Hl Hp. rewrite list_fmap_insert, Hp.
  apply list_insert_id. by rewrite list_lookup_fmap, Hl.
Qed.

Lemma predict_cases now now' data matchId body :
  let r := predict now now' data matchId body in
  let key := inningsKeyOf (b_innings body) in
  r.2 = data
  ∨ (∃ ix m0,
       findMatch matchId data = Some (ix, m0)
       ∧ r.2 = withMatches
                 (<[ix := normalizeMatch now (settings data) m0]> (matches data))
                 data)
  ∨ (∃ ix m0 m' q p,
       findMatch matchId data = Some (ix, m0)
       ∧ r = (Ok, withMatches (<[ix := m']> (matches data)) data)
       ∧ b_score body = Fin q
       ∧ (inject_Z (minScore (settings data)) <= q)%Q
       ∧ (q <= inject_Z (maxScore (settings data)))%Q
       ∧ p ∈ players data ∧ id p = b_playerId body
       ∧ predictionsOf key m'
         = Some (<[b_playerId body := mathRound q]> (predictionMap key m0))
       ∧ (∀ k', k' ≠ key → predictionsOf k' m' = Some (predictionMap k' m0))
       ∧ innings1 m' = innings1 (normalizeMatch now (settings data) m0)
       ∧ innings2 m' = innings2 (normalizeMatch now (settings data) m0)
       ∧ result m' = result m0
       ∧ ∃ i, inningsOf key (normalizeMatch now (settings data) m0) = Some i
              ∧ status i = open).
Proof.
  intros r key. unfold r, predict. fold key.
  destruct (findMatch matchId data) as [[ix m0]|] eqn:Hf; [|by left].
  destruct (getBattingTeams _); [|by left].
  destruct (inningsOf key _) as [i|] eqn:Hi; [|by left].
  destruct (bool_decide (status i = open)) eqn:Eo; cbn [negb]; [|by left].
  apply bool_decide_eq_true in Eo.
  destruct (isInningsLocked now' (Some i)); [right; left; by eauto|].
  destruct (bool_decide (Exists _ _)) eqn:Ex; cbn [negb]; [|by left].
  apply bool_decide_eq_true in Ex. apply Exists_exists in Ex as (p & Hp & Hid).
  destruct (b_score body) as [| | |q] eqn:Hq; try by left.
  destruct (ltZ q _) eqn:El; [by left|].
  destruct (gtZ q _) eqn:Eg; [by left|]. cbn [orb].
  apply ltZ_false in El. apply gtZ_false in Eg.
  destruct (storePrediction_Some key (b_playerId body) (mathRound q)
              (normalizeMatch now (settings data) m0) (predictionMap key m0))
    as (m' & -> & Hp1 & Hp2 & H1 & H2 & Hr & _);
    [apply normalizeMatch_predictionsOf|].
  right; right. exists ix, m0, m', q, p. split_and!; try done.
  - intros k' Hk'. rewrite Hp2 by done. apply normalizeMatch_predictionsOf.
  - by exists i.
Qed.

(** X20. The prediction route stores predictions of players only: when
    every stored prediction of the room stands under the id of a player of
    the room, the same holds of the room after any prediction request,
    whatever its answer. *)
Theorem predict_keeps_predictions_by_players
    (now now' : Z) (data : Data) (matchId : string) (body : PredictBody) :
  predictionsByPlayers data →
  predictionsByPlayers (predict now now' data matchId body).2.
Proof.
  intros Hv.
  destruct (predict_cases now now' data matchId body)
    as [-> | [(ix & m0 & Hf & ->) | (ix & m0 & m' & q & p & Hf & -> & Hq & Hlo
                                     & Hhi & Hp & Hid & Hk & Hk' & _)]];
    [done|..].
  - apply findMatch_Some in Hf as [Hl _].
    intros m k pid v Hm Hpv. cbn [matches withMatches players settings] in *.
    apply list_elem_of_lookup in Hm as [j Hj].
    destruct (decide (ix = j)) as [<-|Hne].
    + rewrite list_lookup_insert_eq in Hj by (by eapply lookup_lt_Some).
      injection Hj as <-. rewrite predictionMap_normalizeMatch in Hpv.
      eapply Hv; [|done]. by eapply list_elem_of_lookup_2.
    + rewrite list_lookup_insert_ne in Hj by done.
      eapply Hv; [|done]. by eapply list_elem_of_lookup_2.
  - apply findMatch_Some in Hf as [Hl _].
    intros m k pid v Hm Hpv. cbn [snd matches withMatches players settings] in *.
    apply list_elem_of_lookup in Hm as [j Hj].
    destruct (decide (ix = j)) as [<-|Hne].
    + rewrite list_lookup_insert_eq in Hj by (by eapply lookup_lt_Some).
      injection Hj as <-.
      set (key := inningsKeyOf (b_innings body)) in *.
      assert (Hin : m0 ∈ matches data) by (by eapply list_elem_of_lookup_2).
      assert (Hpm : predictionMap k m'
                    = if bool_decide (k = key)
                      then <[b_playerId body := mathRound q]> (predictionMap k m0)
                      else predictionMap k m0).
      { destruct key eqn:Ek, k; cbn.
        - eapply (predictionMap_of_predictionsOf m' Innings1); [done|].
          by apply Hk'.
        - eapply (predictionMap_of_predictionsOf m' Innings2); [done|].
          by apply Hk'.
        - eapply (predictionMap_of_predictionsOf m' Innings1); [|done].
          by apply Hk'.
        - eapply (predictionMap_of_predictionsOf m' Innings2); [|done].
          by apply Hk'. }
      rewrite Hpm in Hpv. case_bool_decide as Ekey; [|by eapply Hv].
      destruct (decide (pid = b_playerId body)) as [->|Hpid].
      * by eauto.
      * rewrite lookup_insert_ne in Hpv by done. by eapply Hv.
    + rewrite list_lookup_insert_ne in Hj by done.
      eapply Hv; [|done]. by eapply list_elem_of_lookup_2.
Qed.

Section PredictionsFrame.
Variable hashPin : string → string.

Lemma scoreRoute_refused now data matchId body :
  (scoreRoute hashPin now data matchId body).1 ≠ ReplyOk →
  (scoreRoute hashPin now data matchId body).2 = data.
Proof. unfold scoreRoute. by repeat case_match. Qed.

(** X21. No admin route touches a stored prediction: whatever the lock,
    toss, score and reopen routes answer, the prediction maps of the matches
    of the room are afterwards what they were, match by match; a created
    match comes with empty maps, after the stored ones. *)
Theorem admin_routes_keep_predictions
    (now : Z) (data : Data) (matchId newId : string)
    (lb : ReopenBody) (tb : TossBody) (sb : ScoreBody) (cb : CreateBody)
    (k : InningsKey) :
  let maps (d : Data) := predictionMap k <$> matches d in
  maps (lockRoute hashPin now data matchId lb).2 = maps data
  ∧ maps (tossRoute hashPin data matchId tb).2 = maps data
  ∧ maps (scoreRoute hashPin now data matchId sb).2 = maps data
  ∧ maps (reopen hashPin now data matchId lb).2 = maps data
  ∧ maps (createMatchRoute hashPin newId data cb).2
    = maps data
      ++ (if bool_decide ((createMatchRoute hashPin newId data cb).1 = ReplyOk)
          then [∅] else []).
Proof.
  intros maps. unfold maps.
  assert (Hnorm : ∀ m m0, predictions m
                          = predictions (normalizeMatch now (settings data) m0) →
                          predictionMap k m = predictionMap k m0).
  { intros m m0 Hp.
    rewrite <- (predictionMap_normalizeMatch now (settings data) m0).
    by apply predictionMap_predictions. }
  split_and!.
  - unfold lockRoute.
    destruct (findMatch matchId data) as [[ix m0]|] eqn:Hf; [|done].
    apply findMatch_Some in Hf as [Hl _].
    destruct (ensureAdmin _ _ _); [|done]. cbn [negb].
    destruct (inningsOf _ _) as [i|]; [|done].
    cbn [snd matches withMatches].
    apply (predictionMap_insert data ix m0 _ k Hl), Hnorm.
    by destruct (inningsKeyOf _).
  - unfold tossRoute.
    destruct (findMatch matchId data) as [[ix m0]|] eqn:Hf; [|done].
    apply findMatch_Some in Hf as [Hl _].
    repeat case_match; try done.
    cbn [snd matches withMatches].
    by apply (predictionMap_insert data ix m0 _ k Hl), predictionMap_predictions.
  - destruct (scoreRoute hashPin now data matchId sb) as [rep d] eqn:E.
    destruct (decide (rep = ReplyOk)) as [->|Hne].
    + destruct (scoreRoute_saved hashPin _ _ _ _ _ E)
        as (ix & m0 & m' & q & i & Hf & -> & _ & _ & _ & _ & _ & _ & Hp & _).
      apply findMatch_Some in Hf as [Hl _].
      cbn [snd matches withMatches].
      by apply (predictionMap_insert data ix m0 _ k Hl), Hnorm.
    + pose proof (scoreRoute_refused now data matchId sb) as Hr.
      rewrite E in Hr. cbn [fst snd] in *. by rewrite Hr.
  - unfold reopen.
    destruct (findMatch matchId data) as [[ix m0]|] eqn:Hf; [|done].
    apply findMatch_Some in Hf as [Hl _].
    destruct (ensureAdmin _ _ _); [|done]. cbn [negb].
    case_match.
    + destruct (inningsOf _ _) as [i|]; [|done].
      cbn [snd matches withMatches].
      apply (predictionMap_insert data ix m0 _ k Hl), Hnorm.
      destruct (clearResult_spec (inningsKeyOf
                  match rb_innings lb with
                  | Some n => if n =? 0 then None else Some n
                  | None => None
                  end)
                  (withInningsOf (inningsKeyOf
                     match rb_innings lb with
                     | Some n => if n =? 0 then None else Some n
                     | None => None
                     end) (setScore None (setStatus open i))
                     (normalizeMatch now (settings data) m0)))
        as (_ & _ & _ & _ & -> & _).
      by destruct (inningsKeyOf _).
    + destruct (innings1 _) as [i1|]; [|done].
      destruct (innings2 _) as [i2|]; [|done].
      cbn [snd matches withMatches].
      by apply (predictionMap_insert data ix m0 _ k Hl), Hnorm.
  - unfold createMatchRoute.
    destruct (negb (ensureAdmin _ _ _)); [cbn; by rewrite app_nil_r|].
    destruct (_ || _); [cbn; by rewrite app_nil_r|].
    destruct (if lockTruthy (c_matchDate cb) then _ else _);
      [|cbn; by rewrite app_nil_r].
    destruct (if lockTruthy (c_lockTime cb) then _ else _);
      [|cbn; by rewrite app_nil_r].
    cbn [fst snd matches withMatches]. rewrite fmap_app.
    by destruct k.
Qed.

End PredictionsFrame.

(** ** Locks and time *)

(** X22. Time only closes an innings. An innings that counts as locked at
    one time counts as locked at every later time, and an innings the
    normalizer leaves closed (not [open]) at one time is left closed at
    every later time. *)
Theorem isInningsLocked_monotone
    (now now' : Z) (st : Settings) (m : Match) (innings : option Innings) :
  now ≤ now' →
  (isInningsLocked now innings = true → isInningsLocked now' innings = true)
  ∧ (∀ k i i',
       inningsOf k (normalizeMatch now st m) = Some i →
       inningsOf k (normalizeMatch now' st m) = Some i' →
       (status i ≠ open → status i' ≠ open)
       ∧ (isInningsLocked now (Some i) = true →
          isInningsLocked now' (Some i') = true)
       ∧ lockTime i' = lockTime i ∧ score i' = score i).
Proof.
  intros Hle.
  assert (Hmono : ∀ t, lockPassed now t = true → lockPassed now' t = true).
  { intros [| |lock]; cbn; try done.
    intros H%bool_decide_eq_true. apply bool_decide_eq_true. lia. }
  assert (Hlocked : ∀ i, isInningsLocked now (Some i) = true →
                         isInningsLocked now' (Some i) = true).
  { intros i. unfold isInningsLocked.
    destruct (_ || _); [done|].
    destruct (_ && _); [apply Hmono|done]. }
  split.
  { destruct innings as [i|]; [apply Hlocked|done]. }
  intros k i i' Hi Hi'.
  assert (Hx : ∃ x, i = autoLock now x ∧ i' = autoLock now' x).
  { destruct k; cbn [inningsOf] in Hi, Hi'.
    - rewrite normalizeMatch_innings1 in Hi, Hi'.
      injection Hi as <-. injection Hi' as <-. by eexists.
    - rewrite normalizeMatch_innings2 in Hi, Hi'.
      injection Hi as <-. injection Hi' as <-. by eexists. }
  destruct Hx as (x & -> & ->).
  rewrite !autoLock_lockTime, !autoLock_score.
  assert (Hst : status (autoLock now x) ≠ open → status (autoLock now' x) ≠ open).
  { rewrite !autoLock_status.
    destruct (bool_decide (status x = open)) eqn:Eo; cbn [andb]; [|done].
    destruct (lockPassed now (lockTime x)) eqn:El.
    - by rewrite (Hmono _ El).
    - apply bool_decide_eq_true in Eo. by rewrite Eo. }
  split_and!; try done.
  intros Hl.
  destruct (decide (status x = open ∧ lockPassed now' (lockTime x) = true))
    as [[Eo El']|Hn].
  - unfold autoLock. rewrite (bool_decide_eq_true_2 _ Eo), El'. cbn [andb].
    unfold isInningsLocked. cbn [status setStatus].
    by rewrite (bool_decide_eq_true_2 (locked = locked)).
  - assert (Hx' : autoLock now' x = x).
    { apply autoLock_fixed. destruct (decide (status x = open)); [right|by left].
      destruct (lockPassed now' (lockTime x)); [|done]. exfalso. by apply Hn. }
    assert (Hx : autoLock now x = x).
    { apply autoLock_fixed. destruct (decide (status x = open)); [right|by left].
      destruct (lockPassed now (lockTime x)) eqn:El; [|done].
      exfalso. apply Hn. split; [done|]. by apply Hmono. }
    rewrite Hx in Hl. rewrite Hx'. by apply Hlocked.
Qed.

(** ** The rows of the scoreboard *)

Lemma mapUpdate_keys k f (m : list (string * Stat)) :
  (mapUpdate k f m).*1 = m.*1.
Proof.
  induction m as [|[k' v'] m IH]; [done|]. cbn.
  case_bool_decide; cbn; by rewrite ?IH.
Qed.

Lemma diffLoop_keys sc preds ps stats :
  (diffLoop sc preds ps stats).1.*1 = stats.*1.
Proof.
  unfold diffLoop.
  assert (H : ∀ acc : list (string * Stat) * list (string * Z),
            (foldl (λ acc player,
                      match preds !! id player with
                      | None => acc
                      | Some prediction =>
                          let diff := Z.abs (prediction - sc) in
                          (mapUpdate (id player) (addDiff diff) acc.1,
                           acc.2 ++ [(id player, diff)])
                      end) acc ps).1.*1 = acc.1.*1).
  { induction ps as [|p ps IH]; intros acc; [done|]. cbn [foldl].
    rewrite IH. destruct (preds !! id p); [|done]. apply mapUpdate_keys. }
  apply H.
Qed.

Lemma winLoop_keys bonus ws ds stats :
  (winLoop bonus ws ds stats).*1 = stats.*1.
Proof.
  unfold winLoop. revert stats.
  induction ds as [|d ds IH]; intros stats; [done|]. cbn [foldl].
  rewrite IH. case_bool_decide; [apply mapUpdate_keys|done].
Qed.

Lemma scoreInnings_keys data m k stats :
  (scoreInnings data m k stats).*1 = stats.*1.
Proof.
  unfold scoreInnings. destruct (scoredScore k m) as [sc|]; [|done].
  pose proof (diffLoop_keys sc (default ∅ (predictionsOf k m))
                (players data) stats) as Hd.
  destruct (diffLoop _ _ _ _) as [stats' ds]. cbn [fst] in Hd.
  by rewrite winLoop_keys.
Qed.

Lemma accumulate_keys data :
  (accumulate data).*1 = (initialStats (players data)).*1.
Proof.
  rewrite accumulate_allInnings. generalize (initialStats (players data)).
  induction (allInnings data) as [|mk l IH]; intros stats; [done|].
  cbn [foldl]. rewrite IH. apply scoreInnings_keys.
Qed.

Lemma mapSet_keys k v (m : list (string * Stat)) :
  (NoDup m.*1 → NoDup (mapSet k v m).*1)
  ∧ (∀ k', k' ∈ (mapSet k v m).*1 → k' = k ∨ k' ∈ m.*1).
Proof.
  induction m as [|[k0 v0] m [IH1 IH2]]; cbn.
  - split; [intros _; apply NoDup_singleton|].
    intros k' Hk'%list_elem_of_singleton. by left.
  - case_bool_decide as E; cbn.
    + subst k0. split; [done|]. intros k' Hk'. by right.
    + split.
      * intros [Hn Hd]%NoDup_cons. apply NoDup_cons. split; [|by apply IH1].
        intros Hin. destruct (IH2 _ Hin); [by subst|done].
      * intros k' [->|Hin]%elem_of_cons; [right; left|].
        destruct (IH2 _ Hin); [by left|right; by right].
Qed.

Lemma initialStats_keys ps :
  NoDup (initialStats ps).*1
  ∧ (∀ k, k ∈ (initialStats ps).*1 → ∃ p, p ∈ ps ∧ id p = k).
Proof.
  unfold initialStats.
  assert (H : ∀ (stats : list (string * Stat)) (qs : list Player),
            NoDup stats.*1 →
            (∀ k, k ∈ stats.*1 → ∃ p, p ∈ qs ++ ps ∧ id p = k) →
            NoDup (foldl (λ stats player,
                            mapSet (id player) (initStat player) stats)
                         stats ps).*1
            ∧ (∀ k, k ∈ (foldl (λ stats player,
                                  mapSet (id player) (initStat player) stats)
                               stats ps).*1 →
                    ∃ p, p ∈ qs ++ ps ∧ id p = k)).
  { induction ps as [|p ps IH]; intros stats qs Hn Hk; [done|].
    cbn [foldl].
    destruct (mapSet_keys (id p) (initStat p) stats) as [H1 H2].
    destruct (IH (mapSet (id p) (initStat p) stats) (qs ++ [p])) as [H3 H4].
    - by apply H1.
    - intros k Hin. rewrite <- app_assoc. cbn.
      destruct (H2 _ Hin) as [->|Hin']; [|by apply Hk].
      exists p. split; [|done]. rewrite elem_of_app, elem_of_cons. by auto.
    - split; [done|]. intros k Hin. rewrite <- app_assoc in H4.
      by apply H4. }
  destruct (H [] []) as [H1 H2]; [constructor|by intros k ?%elem_of_nil|].
  by split.
Qed.

Lemma mapGet_elem (m : list (string * Stat)) k v :
  NoDup m.*1 → (k, v) ∈ m → mapGet k m = Some v.
Proof.
  induction m as [|[k0 v0] m IH]; [by intros _ ?%elem_of_nil|].
  cbn. intros [Hn Hd]%NoDup_cons [[= -> ->]|Hin]%elem_of_cons.
  - by rewrite bool_decide_eq_true_2.
  - rewrite bool_decide_eq_false_2; [by apply IH|].
    intros ->. apply Hn. apply list_elem_of_fmap. by exists (k, v).
Qed.

Lemma accumulate_entry (data : Data) k v :
  NoDup (id <$> players data) → (k, v) ∈ accumulate data →
  ∃ p, p ∈ players data ∧ id p = k
       ∧ v = foldl (λ row mk, contribution data mk.1 mk.2 (id p) row)
                   (initStat p) (allInnings data).
Proof.
  intros Hnd Hin.
  destruct (initialStats_keys (players data)) as [Hn Hk].
  rewrite <- accumulate_keys in Hn, Hk.
  destruct (Hk k) as (p & Hp & <-).
  { apply list_elem_of_fmap. by exists (k, v). }
  exists p. split; [done|]. split; [done|].
  pose proof (mapGet_elem _ _ _ Hn Hin) as Hg.
  rewrite (accumulate_lookup data p Hnd Hp) in Hg. by injection Hg.
Qed.

Lemma contribution_invariant (data : Data) m k pid (row : Stat) :
  soundRow (bonusExact (settings data)) row →
  soundRow (bonusExact (settings data)) (contribution data m k pid row)
  ∧ s_predictions row ≤ s_predictions (contribution data m k pid row)
    ≤ s_predictions row + 1
  ∧ playerId (contribution data m k pid row) = playerId row
  ∧ s_name (contribution data m k pid row) = s_name row.
Proof.
  unfold soundRow. set (B := Z.max 0 (bonusExact (settings data))).
  intros (H1 & H2 & H3 & H4 & H5). unfold contribution.
  destruct (scoredScore k m) as [sc|]; [|split_and!; try done; lia].
  destruct (default ∅ (predictionsOf k m) !! pid) as [v|];
    [|split_and!; try done; lia].
  cbn.
  assert (HB : 0 ≤ B ∧ bonusExact (settings data) ≤ B) by (unfold B; lia).
  clearbody B.
  destruct (bool_decide (pid ∈ winnerSetFor data m k sc));
    repeat case_bool_decide;
    rewrite ?Z.mul_add_distr_l, ?Z.mul_1_r, ?Z.mul_0_r;
    split_and!; try reflexivity; lia.
Qed.

Lemma contributions_invariant (data : Data) pid l (row : Stat) :
  soundRow (bonusExact (settings data)) row →
  let r := foldl (λ row (mk : Match * InningsKey),
                    contribution data mk.1 mk.2 pid row) row l in
  soundRow (bonusExact (settings data)) r
  ∧ s_predictions row ≤ s_predictions r ≤ s_predictions row + Z.of_nat (length l)
  ∧ playerId r = playerId row ∧ s_name r = s_name row.
Proof.
  revert row. induction l as [|mk l IH]; intros row Hrow; cbn [foldl].
  - split_and!; try done; cbn; lia.
  - destruct (contribution_invariant data mk.1 mk.2 pid row Hrow)
      as (Hs & Hp & Hi & Hn).
    destruct (IH _ Hs) as (Hs' & Hp' & Hi' & Hn').
    split_and!; [done| | |congruence|congruence]; cbn [length]; lia.
Qed.

Lemma mapSet_keys_fresh k v (m : list (string * Stat)) :
  k ∉ m.*1 → (mapSet k v m).*1 = m.*1 ++ [k].
Proof.
  induction m as [|[k0 v0] m IH]; [done|]. cbn.
  intros Hn. rewrite not_elem_of_cons in Hn. destruct Hn as [Hne Hn].
  rewrite bool_decide_eq_false_2 by done. cbn. by rewrite IH.
Qed.

Lemma initialStats_keys_NoDup ps :
  NoDup (id <$> ps) → (initialStats ps).*1 = id <$> ps.
Proof.
  unfold initialStats.
  assert (H : ∀ stats : list (string * Stat),
            NoDup (stats.*1 ++ (id <$> ps)) →
            (foldl (λ stats player,
                      mapSet (id player) (initStat player) stats) stats ps).*1
            = stats.*1 ++ (id <$> ps)).
  { induction ps as [|p ps IH]; intros stats Hn; cbn [foldl].
    - by rewrite app_nil_r.
    - cbn in Hn. apply NoDup_app in Hn as (Hn1 & Hn2 & Hn3).
      apply NoDup_cons in Hn3 as [Hp Hn3].
      assert (Hfresh : id p ∉ stats.*1).
      { intros Hin. apply (Hn2 _ Hin). by left. }
      rewrite IH; rewrite mapSet_keys_fresh by done.
      + by rewrite <- app_assoc.
      + rewrite <- app_assoc. cbn. apply NoDup_app. split_and!; [done| |].
        * intros x Hx. apply Hn2. done.
        * by apply NoDup_cons. }
  intros Hn. by apply (H []).
Qed.

Section ScoreboardRows.
Variable localeCompare : string → string → Z.

(** X23. The rows of the scoreboard of a room whose players have distinct
    ids: there is one row for each player (the ids of the rows are the ids
    of the players, up to the order), each row carries the id and the name
    of its player, its two counters of predictions are equal and at most
    two for each match, its exact hits and its wins are at most its
    predictions, and its points are at least its wins and at most the wins
    plus the bonus for each exact hit. *)
Theorem buildScoreboard_rows (data : Data) :
  NoDup (id <$> players data) →
  let board := buildScoreboard localeCompare data in
  (playerId <$> (stat <$> board)) ≡ₚ (id <$> players data)
  ∧ (∀ row : Row, row ∈ board →
       (∃ p, p ∈ players data ∧ playerId row = id p ∧ s_name row = name p)
       ∧ soundRow (bonusExact (settings data)) row
       ∧ s_predictions row ≤ 2 * Z.of_nat (length (matches data))).
Proof.
  intros Hnd board. unfold board, buildScoreboard.
  split.
  - rewrite arraySort_Permutation.
    rewrite <- initialStats_keys_NoDup by done.
    rewrite <- accumulate_keys.
    rewrite <- !list_fmap_compose.
    assert (Hk : ∀ kv, kv ∈ accumulate data → playerId kv.2 = kv.1).
    { intros [k v] Hin. cbn.
      destruct (accumulate_entry data k v Hnd Hin) as (p & _ & <- & ->).
      by destruct (contributions_invariant data (id p) (allInnings data)
                     (initStat p)) as (_ & _ & -> & _);
        [repeat split; cbn; lia|]. }
    apply reflexive_eq, Forall_fmap_ext, Forall_forall.
    intros kv Hin. cbn. by apply Hk.
  - intros row Hin. rewrite arraySort_Permutation in Hin.
    apply list_elem_of_fmap in Hin as ([k v] & -> & Hin). cbn [stat snd].
    destruct (accumulate_entry data k v Hnd Hin) as (p & Hp & <- & ->).
    destruct (contributions_invariant data (id p) (allInnings data)
                (initStat p)) as (Hs & Hc & Hi & Hn);
      [repeat split; cbn; lia|].
    split; [by exists p|]. split; [done|].
    cbn [s_predictions initStat] in Hc.
    assert (Hlen : length (allInnings data) = (2 * length (matches data))%nat).
    { unfold allInnings. induction (matches data) as [|m ms IH]; [done|].
      cbn. rewrite IH. lia. }
    lia.
Qed.

End ScoreboardRows.


(** ** Toss text *)

Section TossTextFacts.
Variable toLowerCase : string → string.

Lemma parseTossText_Some text a b t :
  parseTossText toLowerCase text a b = Some t →
  ∃ s w d,
    text = Some s ∧ s ≠ "" ∧ t = mkToss (Some w) (Some d) ∧ w ≠ ""
    ∧ List.find (λ team, includes (toLowerCase s) (toLowerCase team)) [a; b]
      = Some w
    ∧ d = (if existsb (includes (toLowerCase s)) fieldPhrases
           then "field" else "bat")
    ∧ (existsb (includes (toLowerCase s)) fieldPhrases = true
       ∨ existsb (includes (toLowerCase s)) batPhrases = true).
Proof.
  unfold parseTossText.
  destruct text as [s|]; [|done].
  change (default "" (Some s)) with s. cbn [truthy].
  destruct (bool_decide (s = "")) eqn:Es; [done|]. cbn [negb].
  apply bool_decide_eq_false in Es.
  destruct (List.find _ _) as [w|] eqn:Hw; [|done]. cbn [truthy].
  destruct (bool_decide (w = "")) eqn:Ew; [done|]. cbn [negb].
  apply bool_decide_eq_false in Ew.
  destruct (existsb _ fieldPhrases) eqn:Ef.
  - cbn [truthy negb]. rewrite (bool_decide_eq_false_2 ("field" = "")) by done.
    cbn [negb]. intros [= <-]. exists s, w, "field". rewrite Ef.
    split_and!; by auto.
  - destruct (existsb _ batPhrases) eqn:Eb; [|done].
    cbn [truthy negb]. rewrite (bool_decide_eq_false_2 ("bat" = "")) by done.
    cbn [negb]. intros [= <-]. exists s, w, "bat". rewrite Ef, Eb.
    split_and!; by auto.
Qed.

(** X24. A toss read from a text is one the engine can use: its winner is
    one of the two teams, is not the empty name and occurs in the text in
    lower case; its decision is [field] when one of the field or bowl
    phrases occurs in the text and [bat] otherwise, one of the bat phrases
    then occurring; and a match of these two teams with this toss has its
    batting order resolved, the winner batting first exactly on [bat]. *)
Theorem parseTossText_sound
    (text : option string) (m : Match) (t : Toss) :
  parseTossText toLowerCase text (teamA m) (teamB m) = Some t →
  ∃ s w d,
    text = Some s ∧ t = mkToss (Some w) (Some d)
    ∧ (w = teamA m ∨ w = teamB m) ∧ w ≠ ""
    ∧ includes (toLowerCase s) (toLowerCase w) = true
    ∧ (d = "field"
       ∧ existsb (includes (toLowerCase s)) fieldPhrases = true
       ∨ d = "bat"
         ∧ existsb (includes (toLowerCase s)) fieldPhrases = false
         ∧ existsb (includes (toLowerCase s)) batPhrases = true)
    ∧ ∃ bt, getBattingTeams (withToss (Some t) m) = Some bt
            ∧ (d = "bat" → bat_innings1 bt = w)
            ∧ (d = "field" → bat_innings2 bt = w)
            ∧ (teamA m ≠ teamB m →
               bat_innings1 bt ≠ bat_innings2 bt
               ∧ (bat_innings1 bt = teamA m ∨ bat_innings1 bt = teamB m)
               ∧ (bat_innings2 bt = teamA m ∨ bat_innings2 bt = teamB m)).
Proof.
  intros H. apply parseTossText_Some in H
    as (s & w & d & -> & Hs & -> & Hw & Hfind & Hd & Hph).
  exists s, w, d.
  assert (Hteam : (w = teamA m ∨ w = teamB m)
                  ∧ includes (toLowerCase s) (toLowerCase w) = true).
  { cbn in Hfind.
    destruct (includes _ (toLowerCase (teamA m))) eqn:Ea;
      [injection Hfind as <-; by auto|].
    destruct (includes _ (toLowerCase (teamB m))) eqn:Eb;
      [injection Hfind as <-; by auto|done]. }
  destruct Hteam as [Hab Hinc].
  assert (Hdec : d = "field"
                 ∧ existsb (includes (toLowerCase s)) fieldPhrases = true
                 ∨ d = "bat"
                   ∧ existsb (includes (toLowerCase s)) fieldPhrases = false
                   ∧ existsb (includes (toLowerCase s)) batPhrases = true).
  { destruct (existsb _ fieldPhrases); [by left|right].
    destruct Hph as [?|?]; by auto. }
  split_and!; try done.
  unfold getBattingTeams. cbn [toss withToss winner decision teamA teamB].
  rewrite (truthy_Some w Hw).
  destruct Hdec as [[-> _]|[-> _]]; cbn [truthy negb orb].
  - rewrite (bool_decide_eq_false_2 ("field" = "")) by done. cbn [negb].
    rewrite (bool_decide_eq_false_2 ("field" = "bat")) by done.
    rewrite (bool_decide_eq_true_2 ("field" = "field")) by done.
    eexists. split; [reflexivity|]. cbn [bat_innings1 bat_innings2].
    split_and!; try done.
    intros Hne. case_bool_decide; destruct Hab; subst; split_and!; auto;
      congruence.
  - rewrite (bool_decide_eq_false_2 ("bat" = "")) by done. cbn [negb].
    rewrite (bool_decide_eq_true_2 ("bat" = "bat")) by done.
    eexists. split; [reflexivity|]. cbn [bat_innings1 bat_innings2].
    split_and!; try done.
    intros Hne. case_bool_decide; destruct Hab; subst; split_and!; auto;
      congruence.
Qed.

(** X25. What the reading prefers. When the name of team A is not empty and
    occurs in the text, team A is the winner read, whether or not team B
    is named too, and wherever the names stand; when a field or bowl phrase
    occurs, the decision read is [field], whether or not a bat phrase
    occurs too. With neither kind of phrase, or with no text, nothing is
    read. *)
Theorem parseTossText_preference (s a b : string) :
  s ≠ "" →
  let lower := toLowerCase s in
  (a ≠ "" → includes lower (toLowerCase a) = true →
   existsb (includes lower) fieldPhrases = true →
   parseTossText toLowerCase (Some s) a b = Some (mkToss (Some a) (Some "field")))
  ∧ (a ≠ "" → includes lower (toLowerCase a) = true →
     existsb (includes lower) fieldPhrases = false →
     existsb (includes lower) batPhrases = true →
     parseTossText toLowerCase (Some s) a b = Some (mkToss (Some a) (Some "bat")))
  ∧ (existsb (includes lower) fieldPhrases = false →
     existsb (includes lower) batPhrases = false →
     parseTossText toLowerCase (Some s) a b = None)
  ∧ (includes lower (toLowerCase a) = true → a = "" →
     parseTossText toLowerCase (Some s) a b = None)
  ∧ parseTossText toLowerCase None a b = None
  ∧ parseTossText toLowerCase (Some "") a b = None.
Proof.
  intros Hs lower.
  assert (Hpre : ∀ P : option Toss → Prop,
            P (let winner :=
                 List.find (λ team, includes lower (toLowerCase team)) [a; b] in
               if negb (truthy winner) then None
               else
                 let decision :=
                   if existsb (includes lower) fieldPhrases then Some "field"
                   else if existsb (includes lower) batPhrases then Some "bat"
                   else None in
                 if negb (truthy decision) then None
                 else Some {| winner := winner; decision := decision |}) →
            P (parseTossText toLowerCase (Some s) a b)).
  { intros P HP. unfold parseTossText.
    change (default "" (Some s)) with s. cbn [truthy].
    by rewrite (bool_decide_eq_false_2 (s = "") Hs). }
  split_and!.
  - intros Ha Hin Hf. apply Hpre. cbn [List.find]. rewrite Hin, Hf.
    by rewrite (truthy_Some a Ha).
  - intros Ha Hin Hf Hb. apply Hpre. cbn [List.find]. rewrite Hin, Hf, Hb.
    by rewrite (truthy_Some a Ha).
  - intros Hf Hb. apply Hpre. cbn zeta. rewrite Hf, Hb.
    by destruct (negb (truthy _)).
  - intros Hin ->. apply Hpre. cbn [List.find]. by rewrite Hin.
  - reflexivity.
  - reflexivity.
Qed.

End TossTextFacts.

(** ** Setting up a room *)

Lemma mathMax_zero (v : JsNum) :
  v ≠ NaN →
  mathMax (Fin (inject_Z 0)) v ≠ NaN
  ∧ numLe (Fin (inject_Z 0)) (mathMax (Fin (inject_Z 0)) v) = true
  ∧ (v = Fin (inject_Z 0) → mathMax (Fin (inject_Z 0)) v = Fin (inject_Z 0)).
Proof.
  intros Hv. destruct v as [| | |q]; try done; cbn.
  destruct (Qle_bool (inject_Z 0) q) eqn:E; split_and!; try done.
Qed.

Lemma mathMax_le (a v : JsNum) :
  a ≠ NaN → v ≠ NaN →
  mathMax a v ≠ NaN ∧ numLe a (mathMax a v) = true.
Proof.
  intros Ha Hv. destruct a as [| | |p], v as [| | |q]; try done; cbn;
    try (split; [done|]; by apply Qle_bool_iff, Qle_refl).
  destruct (Qle_bool p q) eqn:E; (split; [done|]); [done|].
  apply Qle_bool_iff, Qle_refl.
Qed.

Section Setup.
Variable trim : string → string.
Variable hashPin : string → string.

(** X26. What the setup route saves when it answers [ok]. The room has at
    least four players, whose names are the names of the request after
    [trim], the empty ones left out, in their order. With [usePin] the PIN
    has three characters at least after [trim] and the hash stored is the
    one of the trimmed PIN: a later PIN passes the admin check exactly when
    it is not empty and has that hash, so the PIN as it was sent passes
    when [trim] leaves it as it is. Without [usePin] no hash is stored and
    every PIN passes. A number that is missing or falsy (the number 0
    among them) gives way to its default, 60 for the minimum and 15 for the
    lock minutes, while the string ["0"], which is truthy, gives 0. When no
    number sent is [NaN], no stored number is, the bonus, the minimum and
    the lock minutes are not negative and the minimum is at most the
    maximum; a minimum that is [NaN] makes the maximum [NaN] too. *)
Theorem setupRoute_sound
    (newId : nat → string) (body : SetupBody) (room : NewRoom) :
  setupRoute trim hashPin newId body = (ReplyOk, Some room) →
  let st := nr_settings room in
  let zero := Fin (inject_Z 0) in
  (4 ≤ length (nr_players room))%nat
  ∧ name <$> nr_players room
    = filter (λ n, n ≠ "") (trim <$> su_players body)
  ∧ (∀ i p, nr_players room !! i = Some p → id p = newId i ∧ name p ≠ "")
  ∧ rs_usePin st = su_usePin body
  ∧ (su_usePin body = true →
     (3 ≤ String.length (trim (su_adminPin body)))%nat
     ∧ rs_adminPinHash st = Some (hashPin (trim (su_adminPin body))))
  ∧ (su_usePin body = false → rs_adminPinHash st = None)
  ∧ (∀ (d : Data) (pin : option string),
       usePin (settings d) = rs_usePin st →
       adminPinHash (settings d) = rs_adminPinHash st →
       (ensureAdmin hashPin d pin = true ↔
        su_usePin body = false
        ∨ ∃ s, pin = Some s ∧ s ≠ ""
               ∧ hashPin s = hashPin (trim (su_adminPin body))))
  ∧ (su_minScore body = Falsy → rs_minScore st = Fin (inject_Z 60))
  ∧ (su_minScore body = Truthy zero → rs_minScore st = zero)
  ∧ (su_lockMinutesBeforeStart body = Falsy →
     rs_lockMinutesBeforeStart st = Fin (inject_Z 15))
  ∧ (su_lockMinutesBeforeStart body = Truthy zero →
     rs_lockMinutesBeforeStart st = zero)
  ∧ (su_bonusExact body ≠ Truthy NaN → su_minScore body ≠ Truthy NaN →
     su_maxScore body ≠ Truthy NaN →
     su_lockMinutesBeforeStart body ≠ Truthy NaN →
     numLe zero (rs_bonusExact st) = true
     ∧ numLe zero (rs_minScore st) = true
     ∧ numLe (rs_minScore st) (rs_maxScore st) = true
     ∧ numLe zero (rs_lockMinutesBeforeStart st) = true)
  ∧ (su_minScore body = Truthy NaN →
     rs_minScore st = NaN ∧ rs_maxScore st = NaN).
Proof.
  unfold setupRoute.
  case_bool_decide as Hlen; [done|].
  destruct (su_usePin body && _) eqn:Hpin; [done|].
  intros [= <-]. cbn [nr_settings nr_players rs_usePin rs_adminPinHash
                      rs_bonusExact rs_minScore rs_maxScore
                      rs_lockMinutesBeforeStart].
  assert (Hpinlen : su_usePin body = true →
                    (3 ≤ String.length (trim (su_adminPin body)))%nat).
  { intros Hu. rewrite Hu in Hpin. cbn in Hpin.
    apply bool_decide_eq_false in Hpin. lia. }
  assert (Hnum : ∀ x d, x ≠ Truthy NaN → orElse x d ≠ NaN).
  { intros [|v] d Hx; cbn; [done|]. by intros ->. }
  split_and!.
  - rewrite length_imap. lia.
  - apply list_eq. intros i. rewrite list_lookup_fmap, list_lookup_imap.
    by destruct (filter _ _ !! i).
  - intros i p. rewrite list_lookup_imap.
    destruct (filter _ _ !! i) as [n|] eqn:Hn; [|done].
    cbn. intros [= <-]. split; [done|]. cbn.
    apply list_elem_of_lookup_2, list_elem_of_filter in Hn. by destruct Hn.
  - done.
  - intros Hu. split; [by apply Hpinlen|]. by rewrite Hu.
  - by intros ->.
  - intros d pin Hup Hh. unfold ensureAdmin. rewrite Hup, Hh.
    destruct (su_usePin body) eqn:Hu; cbn [negb].
    + destruct pin as [s|]; cbn [truthy].
      * change (default "" (Some s)) with s.
        destruct (decide (s = "")) as [->|Hs].
        -- rewrite bool_decide_eq_true_2 by done. cbn [negb].
           split; [done|]. by intros [?|(s & [= <-] & ? & _)].
        -- rewrite (bool_decide_eq_false_2 (s = "")) by done. cbn [negb].
           rewrite bool_decide_eq_true. split.
           ++ intros [= E]. right. by exists s.
           ++ intros [?|(s' & [= <-] & _ & E)]; [done|]. by rewrite E.
      * split; [done|]. by intros [?|(s & ? & _)].
    + split; [by left|done].
  - by intros ->.
  - by intros ->.
  - by intros ->.
  - by intros ->.
  - intros Hb Hmin Hmax Hlock.
    destruct (mathMax_zero _ (Hnum _ 0 Hb)) as (_ & Hb' & _).
    destruct (mathMax_zero _ (Hnum _ 60 Hmin)) as (Hmin0 & Hmin' & _).
    destruct (mathMax_le _ _ Hmin0 (Hnum _ 300 Hmax)) as [_ Hmax'].
    destruct (mathMax_zero _ (Hnum _ 15 Hlock)) as (_ & Hlock' & _).
    done.
  - by intros ->.
Qed.

End Setup.

(** ** Locking and reopening *)

Lemma normalizeMatch_locked_innings now now' st m0 key i :
  now ≤ now' →
  inningsOf key (normalizeMatch now st m0) = Some i →
  normalizeMatch now' st
    (withInningsOf key (setStatus locked i) (normalizeMatch now st m0))
  = withInningsOf key (setStatus locked i) (normalizeMatch now' st m0).
Proof.
  intros Hle Hi.
  pose proof (normalizeMatch_innings1 now st m0) as H1.
  pose proof (normalizeMatch_innings2 now st m0) as H2.
  assert (Hl : ∀ t, autoLock t (setStatus locked i) = setStatus locked i)
    by (intros t; apply autoLock_fixed; by left).
  apply Match_eq; try (by destruct key).
  - rewrite normalizeMatch_innings1. unfold legacyInnings1.
    destruct key; cbn [withInningsOf withInnings innings1 innings2].
    + by rewrite Hl.
    + rewrite H1, normalizeMatch_innings1. by rewrite autoLock_mono.
  - rewrite normalizeMatch_innings2. unfold legacyInnings1, legacyInnings2.
    destruct key; cbn [withInningsOf withInnings innings1 innings2].
    + rewrite H2, normalizeMatch_innings2.
      rewrite promoteInnings2_id by (by intros [? _]).
      by rewrite autoLock_mono.
    + rewrite H1. rewrite promoteInnings2_id by (by intros [_ ?]).
      by rewrite Hl.
Qed.

Lemma clearResult_id k m : resultOf k m = None → clearResult k m = m.
Proof.
  unfold resultOf, clearResult. destruct m as [? ? ? ? ? ? ? [[r1 r2]|] ? ? ? ? ?];
    cbn; [|done].
  destruct k; by intros ->.
Qed.

Section LockReopen.
Variable hashPin : string → string.

(** X27. Locking an open innings and reopening it gives it back. When an
    innings of a match is open after normalization, without score and
    without stored result, a lock request for it followed by a reopen
    request for it, not earlier, is answered [ok] and saves the match as the
    normalizer leaves it at the time of the reopen request, with that
    innings open as it was; at the time of the lock request this is the
    normalized match itself. *)
Theorem lock_then_reopen
    (now now' : Z) (data : Data) (matchId : string) (body : ReopenBody)
    (ix : nat) (m0 : Match) (i : Innings) :
  findMatch matchId data = Some (ix, m0) →
  ensureAdmin hashPin data (adminPin body) = true →
  rb_innings body = Some 1 ∨ rb_innings body = Some 2 →
  let key := inningsKeyOf (rb_innings body) in
  inningsOf key (normalizeMatch now (settings data) m0) = Some i →
  status i = open → score i = None → resultOf key m0 = None →
  now ≤ now' →
  let data1 := (lockRoute hashPin now data matchId body).2 in
  reopen hashPin now' data1 matchId body
  = (Ok, withMatches
           (<[ix := withInningsOf key i
                      (normalizeMatch now' (settings data) m0)]>
              (matches data)) data)
  ∧ withInningsOf key i (normalizeMatch now (settings data) m0)
    = normalizeMatch now (settings data) m0.
Proof.
  intros Hf Ha Hb key Hi Hopen Hscore Hres Hle data1.
  destruct (lockRoute_Ok hashPin now data matchId body ix m0 Hf Ha)
    as (i0 & Hi0 & Hr).
  fold key in Hi0, Hr. rewrite Hi in Hi0. injection Hi0 as <-.
  set (m := normalizeMatch now (settings data) m0) in *.
  set (m1 := withInningsOf key (setStatus locked i) m) in *.
  assert (Hd : data1 = withMatches (<[ix := m1]> (matches data)) data)
    by (unfold data1; by rewrite Hr).
  assert (Hf1 : findMatch matchId data1 = Some (ix, m1)).
  { rewrite Hd. apply (findMatch_insert matchId data ix m0 m1 Hf).
    unfold m1. by destruct key. }
  split.
  - unfold reopen. rewrite Hf1.
    assert (Ha1 : ensureAdmin hashPin data1 (adminPin body) = true)
      by (by rewrite Hd).
    rewrite Ha1. cbn [negb].
    assert (Hinn : match rb_innings body with
                   | Some n => if n =? 0 then None else Some n
                   | None => None
                   end = rb_innings body)
      by (destruct Hb as [-> | ->]; reflexivity).
    rewrite Hinn, (bool_decide_eq_true_2 _ Hb). fold key.
    assert (Hs : settings data1 = settings data) by (by rewrite Hd).
    rewrite Hs. unfold m1, m.
    rewrite (normalizeMatch_locked_innings now now' (settings data) m0 key i
               Hle Hi).
    rewrite withInningsOf_inningsOf, bool_decide_eq_true_2 by done.
    rewrite Hd. unfold withMatches at 1 2. cbn [matches settings players].
    rewrite list_insert_insert_eq.
    assert (Hio : setScore None (setStatus open (setStatus locked i)) = i).
    { destruct i as [s l sc]. cbn in Hopen, Hscore. by subst. }
    rewrite Hio.
    assert (Hw : withInningsOf key i
                   (withInningsOf key (setStatus locked i)
                      (normalizeMatch now' (settings data) m0))
                 = withInningsOf key i (normalizeMatch now' (settings data) m0))
      by (by destruct key).
    rewrite Hw. rewrite clearResult_id; [by destruct data|].
    unfold resultOf in *. by destruct key.
  - fold m. destruct key; cbn [inningsOf withInningsOf] in *.
    + unfold withInnings. rewrite <- Hi. by destruct m.
    + unfold withInnings. rewrite <- Hi. by destruct m.
Qed.

End LockReopen.

(** ** What leaves the scoreboard alone *)

Lemma accumulate_matches_ext data ms ms' :
  Forall2 (λ m m', ∀ k stats,
             scoreInnings data m k stats = scoreInnings data m' k stats)
          ms ms' →
  accumulate (withMatches ms data) = accumulate (withMatches ms' data).
Proof.
  unfold accumulate. cbn [players matches withMatches].
  generalize (initialStats (players data)).
  intros stats H. revert stats.
  induction H as [|m m' ms ms' Hm _ IH]; intros stats; [done|].
  cbn [foldl]. rewrite <- IH. f_equal.
  change (scoreInnings data m Innings2 (scoreInnings data m Innings1 stats)
          = scoreInnings data m' Innings2 (scoreInnings data m' Innings1 stats)).
  by rewrite (Hm Innings1), (Hm Innings2).
Qed.

Lemma scoredScore_innings_ext t st m m' k :
  innings1 m' = innings1 m → innings2 m' = innings2 m →
  is_Some (innings1 m) → is_Some (innings2 m) →
  inningsOf k (normalizeMatch t st m') = inningsOf k (normalizeMatch t st m).
Proof.
  intros H1 H2 [i1 Hi1] [i2 Hi2].
  destruct k; cbn [inningsOf];
    rewrite ?normalizeMatch_innings1, ?normalizeMatch_innings2;
    unfold legacyInnings1, legacyInnings2; by rewrite ?H1, ?H2, ?Hi1, ?Hi2.
Qed.

Lemma stateRoute_scoreboard_ext localeCompare t data ms' :
  Forall2 (λ m m', ∀ k,
             let n := normalizeMatch t (settings data) m in
             let n' := normalizeMatch t (settings data) m' in
             scoredScore k n = None ∧ scoredScore k n' = None
             ∨ scoredScore k n = scoredScore k n'
               ∧ predictionsOf k n = predictionsOf k n'
               ∧ resultOf k n = resultOf k n')
          (matches data) ms' →
  (stateRoute localeCompare t (withMatches ms' data)).1
  = (stateRoute localeCompare t data).1.
Proof.
  intros H. unfold stateRoute. cbn [fst settings withMatches matches].
  unfold buildScoreboard. f_equal. f_equal. symmetry.
  apply (accumulate_matches_ext data).
  apply Forall2_fmap.
  eapply Forall2_impl; [exact H|].
  intros m m' Hm k stats. destruct (Hm k) as [[Hn Hn']|(Hs & Hp & Hr)].
  - by rewrite !scoreInnings_unscored.
  - by apply scoreInnings_ext.
Qed.

Section ScoreboardFrame.
Variable hashPin : string → string.
Variable localeCompare : string → string → Z.

(** X28. Predictions and the toss leave the scoreboard alone: whatever the
    prediction route or the toss route answers, the scoreboard that a state
    request sends afterwards is the one it would have sent before, at any
    time of the three requests. (A prediction is stored only for an innings
    that is open, and such an innings is not counted.) *)
Theorem predict_and_toss_keep_scoreboard
    (t now now' : Z) (data : Data) (matchId : string)
    (pbody : PredictBody) (tbody : TossBody) :
  (stateRoute localeCompare t (predict now now' data matchId pbody).2).1
  = (stateRoute localeCompare t data).1
  ∧ (stateRoute localeCompare t (tossRoute hashPin data matchId tbody).2).1
    = (stateRoute localeCompare t data).1.
Proof.
  assert (Hins : ∀ ix m0 m',
            matches data !! ix = Some m0 →
            (∀ k,
               let n := normalizeMatch t (settings data) m0 in
               let n' := normalizeMatch t (settings data) m' in
               scoredScore k n = None ∧ scoredScore k n' = None
               ∨ scoredScore k n = scoredScore k n'
                 ∧ predictionsOf k n = predictionsOf k n'
                 ∧ resultOf k n = resultOf k n') →
            (stateRoute localeCompare t
               (withMatches (<[ix := m']> (matches data)) data)).1
            = (stateRoute localeCompare t data).1).
  { intros ix m0 m' Hl Hm. apply stateRoute_scoreboard_ext.
    rewrite <- (list_insert_id (matches data) ix m0 Hl) at 1.
    apply Forall2_insert; [|exact Hm].
    apply Forall_Forall2_diag, Forall_forall. intros m _ k. by right. }
  split.
  - destruct (predict_cases now now' data matchId pbody)
      as [-> | [(ix & m0 & Hf & ->)
               | (ix & m0 & m' & q & p & Hf & -> & _ & _ & _ & _ & _ & Hk & Hk'
                  & H1 & H2 & Hr & i & Hi & Hopen)]]; [done|..].
    + apply findMatch_Some in Hf as [Hl _]. apply (Hins ix m0 _ Hl).
      intros k. right. split_and!.
      * by rewrite scoredScore_normalizeMatch_canonical,
          (scoredScore_normalizeMatch now t).
      * by rewrite predictionsOf_normalizeMatch_twice,
          !normalizeMatch_predictionsOf.
      * reflexivity.
    + apply findMatch_Some in Hf as [Hl _]. cbn [snd].
      apply (Hins ix m0 _ Hl).
      set (key := inningsKeyOf (b_innings pbody)) in *.
      set (m := normalizeMatch now (settings data) m0) in *.
      assert (Hsome : is_Some (innings1 m) ∧ is_Some (innings2 m)).
      { unfold m. rewrite normalizeMatch_innings1, normalizeMatch_innings2.
        by split. }
      destruct Hsome as [Hs1 Hs2].
      assert (Hinn : ∀ k, scoredScore k (normalizeMatch t (settings data) m')
                          = scoredScore k (normalizeMatch t (settings data) m0)).
      { intros k. unfold scoredScore.
        rewrite (scoredScore_innings_ext t (settings data) m m' k H1 H2 Hs1 Hs2).
        fold (scoredScore k (normalizeMatch t (settings data) m)).
        unfold m. by rewrite scoredScore_normalizeMatch_canonical,
                    (scoredScore_normalizeMatch now t). }
      intros k. cbn zeta. destruct (decide (k = key)) as [->|Hne].
      * left. rewrite Hinn.
        assert (Hnone : scoredScore key (normalizeMatch t (settings data) m0)
                        = None).
        { rewrite <- (scoredScore_normalizeMatch now t).
          unfold scoredScore. fold m. rewrite Hi.
          by rewrite bool_decide_eq_false_2 by (by rewrite Hopen). }
        by rewrite Hnone.
      * right. split_and!.
        -- by rewrite Hinn.
        -- rewrite !normalizeMatch_predictionsOf. f_equal. symmetry.
           clear Hinn Hi. destruct key, k; try done.
           ++ apply (predictionMap_of_predictionsOf m' Innings2 _ _ Hk).
              by apply Hk'.
           ++ apply (predictionMap_of_predictionsOf m' Innings1 _ _
                       (Hk' Innings1 Hne) Hk).
        -- unfold resultOf. rewrite !normalizeMatch_result. by rewrite Hr.
  - unfold tossRoute.
    destruct (findMatch matchId data) as [[ix m0]|] eqn:Hf; [|done].
    apply findMatch_Some in Hf as [Hl _].
    repeat case_match; try done. cbn [snd].
    apply (Hins ix m0 _ Hl). intros k. by right.
Qed.

End ScoreboardFrame.

(** ** Stored results and the predictions they come from *)

Lemma winnersPredictedIn_frame (m m' : Match) :
  winnersPredictedIn m →
  (∀ k, resultOf k m' = None ∨ resultOf k m' = resultOf k m) →
  (∀ k pid, is_Some (default ∅ (predictionsOf k m) !! pid) →
            is_Some (default ∅ (predictionsOf k m') !! pid)) →
  winnersPredictedIn m'.
Proof.
  intros Hm Hr Hp k r pid Hk Hin. apply Hp.
  destruct (Hr k) as [E|E]; rewrite E in Hk; [done|]. by eapply Hm.
Qed.

Lemma predictionMap_grows (m : Match) k pid :
  is_Some (default ∅ (predictionsOf k m) !! pid) →
  is_Some (predictionMap k m !! pid).
Proof.
  unfold predictionsOf, predictionMap, normalizePredictions.
  destruct (predictions m) as [[p1 p2 f]|]; cbn;
    [|by rewrite lookup_empty; intros []%is_Some_None].
  destruct k, p1, p2; cbn; try done;
    rewrite lookup_empty; by intros []%is_Some_None.
Qed.

Lemma winnersPredictedIn_normalized now st (m0 m' : Match) :
  winnersPredictedIn m0 →
  (∀ k, resultOf k m' = None ∨ resultOf k m' = resultOf k m0) →
  predictions m' = predictions (normalizeMatch now st m0) →
  winnersPredictedIn m'.
Proof.
  intros Hm Hr Hp. apply (winnersPredictedIn_frame m0 m' Hm Hr).
  intros k pid Hs. apply predictionMap_grows in Hs.
  assert (E : predictionsOf k m' = Some (predictionMap k m0)).
  { rewrite <- (normalizeMatch_predictionsOf now st m0 k).
    unfold predictionsOf. by rewrite Hp. }
  by rewrite E.
Qed.

Lemma winnersPredicted_insert data ix (m0 m' : Match) :
  matches data !! ix = Some m0 → winnersPredicted data →
  (winnersPredictedIn m0 → winnersPredictedIn m') →
  winnersPredicted (withMatches (<[ix := m']> (matches data)) data).
Proof.
  intros Hl Hd Hm m Hin. cbn [matches withMatches] in Hin.
  apply list_elem_of_lookup in Hin as [j Hj].
  destruct (decide (ix = j)) as [<-|Hne].
  - rewrite list_lookup_insert_eq in Hj by (by eapply lookup_lt_Some).
    injection Hj as <-. apply Hm, Hd. by eapply list_elem_of_lookup_2.
  - rewrite list_lookup_insert_ne in Hj by done.
    apply Hd. by eapply list_elem_of_lookup_2.
Qed.

Lemma clearResult_resultOf k (m : Match) k' :
  resultOf k' (clearResult k m) = None
  ∨ resultOf k' (clearResult k m) = resultOf k' m.
Proof.
  unfold clearResult, resultOf. destruct (result m) as [r|] eqn:E.
  - destruct k, k'; cbn; auto.
  - rewrite E. by right.
Qed.

Section StoredResults.
Variable hashPin : string → string.

(** X29. The stored results keep to the players that predicted. Say that a
    room is sound when, in every match, every id among the stored winners
    of an innings has a prediction stored for that innings. A room without
    matches, as the setup route saves it, is sound; the room that the
    prediction route, the lock, toss, score and reopen routes and the route
    that creates a match leave behind a sound room is sound, whatever they
    answer; and in a sound room the stored winners of every scored innings
    have predicted, which is the condition under which the scoreboard rows
    are computed in C2. *)
Theorem routes_keep_winners_predicted
    (now now' : Z) (data : Data) (matchId newId : string)
    (pb : PredictBody) (lb : ReopenBody) (tb : TossBody) (sb : ScoreBody)
    (cb : CreateBody) :
  winnersPredicted data →
  winnersPredicted (withMatches [] data)
  ∧ storedWinnersPredicted data
  ∧ winnersPredicted (predict now now' data matchId pb).2
  ∧ winnersPredicted (lockRoute hashPin now data matchId lb).2
  ∧ winnersPredicted (tossRoute hashPin data matchId tb).2
  ∧ winnersPredicted (scoreRoute hashPin now data matchId sb).2
  ∧ winnersPredicted (reopen hashPin now data matchId lb).2
  ∧ winnersPredicted (createMatchRoute hashPin newId data cb).2.
Proof.
  intros Hd.
  assert (Hnorm : ∀ ix m0 m',
            matches data !! ix = Some m0 →
            (∀ k, resultOf k m' = None ∨ resultOf k m' = resultOf k m0) →
            predictions m'
            = predictions (normalizeMatch now (settings data) m0) →
            winnersPredicted (withMatches (<[ix := m']> (matches data)) data)).
  { intros ix m0 m' Hl Hr Hp. apply (winnersPredicted_insert data ix m0 m' Hl Hd).
    intros Hm. by apply (winnersPredictedIn_normalized now (settings data) m0). }
  split_and!.
  - by intros m Hin%elem_of_nil.
  - intros m k sc r pid Hm _ Hr Hin. by eapply Hd.
  - destruct (predict_cases now now' data matchId pb)
      as [-> | [(ix & m0 & Hf & ->) | (ix & m0 & m' & q & p & Hf & -> & _ & _
                                       & _ & _ & _ & Hk & Hk' & _ & _ & Hres
                                       & _)]];
      [done|..].
    + apply findMatch_Some in Hf as [Hl _].
      apply (Hnorm ix m0 _ Hl); [|done]. by right.
    + apply findMatch_Some in Hf as [Hl _]. cbn [snd].
      apply (winnersPredicted_insert data ix m0 m' Hl Hd). intros Hm.
      apply (winnersPredictedIn_frame m0 m' Hm).
      * intros k. right. unfold resultOf. by rewrite Hres.
      * intros k pid Hs. apply predictionMap_grows in Hs.
        destruct (decide (k = inningsKeyOf (b_innings pb))) as [->|Hne].
        -- rewrite Hk. cbv beta iota delta [default from_option Datatypes.id].
           destruct (decide (b_playerId pb = pid)) as [->|Hpid].
           ++ rewrite lookup_insert_eq. by eexists.
           ++ by rewrite lookup_insert_ne.
        -- by rewrite (Hk' k Hne).
  - unfold lockRoute.
    destruct (findMatch matchId data) as [[ix m0]|] eqn:Hf; [|done].
    apply findMatch_Some in Hf as [Hl _].
    destruct (ensureAdmin _ _ _); [|done]. cbn [negb].
    destruct (inningsOf _ _) as [i|]; [|done]. cbn [snd].
    apply (Hnorm ix m0 _ Hl).
    + intros k. right. by destruct (inningsKeyOf _).
    + by destruct (inningsKeyOf _).
  - unfold tossRoute.
    destruct (findMatch matchId data) as [[ix m0]|] eqn:Hf; [|done].
    apply findMatch_Some in Hf as [Hl _].
    repeat case_match; try done. cbn [snd].
    apply (winnersPredicted_insert data ix m0 _ Hl Hd). intros Hm.
    apply (winnersPredictedIn_frame m0 _ Hm); [by right|done].
  - destruct (scoreRoute hashPin now data matchId sb) as [rep d] eqn:E.
    destruct (decide (rep = ReplyOk)) as [->|Hne].
    + destruct (scoreRoute_saved hashPin _ _ _ _ _ E)
        as (ix & m0 & m' & q & i & Hf & -> & _ & _ & _ & _ & _ & Hres & Hp & _).
      apply findMatch_Some in Hf as [Hl _]. cbn [snd].
      apply (winnersPredicted_insert data ix m0 m' Hl Hd). intros Hm.
      assert (Hpm : ∀ k, predictionsOf k m' = Some (predictionMap k m0)).
      { intros k. rewrite <- (normalizeMatch_predictionsOf now (settings data)).
        unfold predictionsOf. by rewrite Hp. }
      intros k r pid Hk Hin. rewrite Hpm. cbv beta iota delta [default from_option Datatypes.id].
      unfold resultOf in Hk. rewrite Hres in Hk.
      set (key := inningsKeyOf (s_innings sb)) in *.
      destruct (decide (k = key)) as [->|Hk'].
      * assert (Hc : computeInningsResult (Some (mathRound q))
                       (predictionMap key m0) (players data) = Some r)
          by (by destruct key).
        destruct (computeInningsResult_winners _ _ _ _ _ Hc Hin)
          as (p & v & _ & _ & Hv).
        by eexists.
      * apply predictionMap_grows, (Hm k r pid); [|done].
        unfold resultOf. destruct key, k; try done; cbn in Hk;
          by destruct (result m0).
    + pose proof (scoreRoute_refused hashPin now data matchId sb) as Hr.
      rewrite E in Hr. cbn [fst snd] in *. by rewrite Hr.
  - unfold reopen.
    destruct (findMatch matchId data) as [[ix m0]|] eqn:Hf; [|done].
    apply findMatch_Some in Hf as [Hl _].
    destruct (ensureAdmin _ _ _); [|done]. cbn [negb].
    case_match.
    + destruct (inningsOf _ _) as [i|]; [|done]. cbn [snd].
      set (key := inningsKeyOf _).
      set (m1 := withInningsOf key (setScore None (setStatus open i))
                   (normalizeMatch now (settings data) m0)).
      apply (Hnorm ix m0 _ Hl).
      * intros k. destruct (clearResult_resultOf key m1 k) as [E|E];
          [by left|]. right. rewrite E. unfold m1. by destruct key.
      * destruct (clearResult_spec key m1) as (_ & _ & _ & _ & -> & _).
        unfold m1. by destruct key.
    + destruct (innings1 _) as [i1|]; [|done].
      destruct (innings2 _) as [i2|]; [|done]. cbn [snd].
      apply (Hnorm ix m0 _ Hl); [|done]. intros k. left. by destruct k.
  - unfold createMatchRoute.
    destruct (negb (ensureAdmin _ _ _)); [done|].
    destruct (_ || _); [done|].
    destruct (if lockTruthy (c_matchDate cb) then _ else _); [|done].
    destruct (if lockTruthy (c_lockTime cb) then _ else _); [|done].
    cbn [fst snd]. intros m Hin. cbn [matches withMatches] in Hin.
    apply elem_of_app in Hin as [Hin|Hin%list_elem_of_singleton];
      [by apply Hd|].
    subst m. intros k r pid Hk. by destruct k.
Qed.

End StoredResults.

(** ** The properties above at the sample rooms *)

(** X1 at the sample room with the first innings open: the lock request is
    answered ok and the first innings is saved as locked. *)
Lemma lockRoute_locks_witness :
  findMatch "m1" (roomOf openMatch) = Some (0%nat, openMatch)
  ∧ ensureAdmin (λ pin, pin) (roomOf openMatch) (adminPin reopenInnings1) = true
  ∧ ∃ m', lockRoute (λ pin, pin) 500 (roomOf openMatch) "m1" reopenInnings1
          = (ReplyOk, withMatches [m'] (roomOf openMatch))
          ∧ innings1 m' = Some (mkInnings locked (LockAt 1000) None).
Proof.
  split; [reflexivity|]. split; [reflexivity|].
  destruct (lockRoute_locks (λ pin, pin) 500 (roomOf openMatch) "m1"
              reopenInnings1 0 openMatch eq_refl eq_refl)
    as (i & m' & Hi & Hr & Hk & _).
  injection Hi as <-. exists m'. split; [exact Hr | exact Hk].
Defined.

(** X2 at the same room. *)
Lemma lockRoute_idempotent_witness :
  findMatch "m1" (roomOf openMatch) = Some (0%nat, openMatch)
  ∧ (lockRoute (λ pin, pin) 500
       (lockRoute (λ pin, pin) 500 (roomOf openMatch) "m1" reopenInnings1).2
       "m1" reopenInnings1).1 = ReplyOk.
Proof.
  split; [reflexivity|].
  by rewrite (lockRoute_idempotent (λ pin, pin) 500 (roomOf openMatch) "m1"
                reopenInnings1 0 openMatch eq_refl eq_refl).
Defined.

(** X3 at the same room, whose toss is set: a prediction sent at time 500,
    before the lock time 1000, is refused with the answer that the innings
    is not open, once the innings has been locked. *)
Lemma lockRoute_closes_predictions_witness :
  findMatch "m1" (roomOf openMatch) = Some (0%nat, openMatch)
  ∧ is_Some (getBattingTeams openMatch)
  ∧ (predict 500 500
       (lockRoute (λ pin, pin) 400 (roomOf openMatch) "m1" reopenInnings1).2
       "m1" (sampleBody (inject_Z 181))).1 = InningsNotOpen.
Proof.
  assert (Hb : is_Some (getBattingTeams openMatch)) by (by eexists).
  split; [reflexivity|]. split; [exact Hb|].
  destruct (lockRoute_closes_predictions (λ pin, pin) 400 500 500
              (roomOf openMatch) "m1" reopenInnings1 (sampleBody (inject_Z 181))
              0 openMatch eq_refl eq_refl eq_refl) as [_ H].
  exact (f_equal fst (H Hb)).
Defined.

(** X4 at the sample room with both innings scored: locking the first
    innings keeps its score 180 and takes it off the scoreboard. *)
Lemma lockRoute_scored_innings_witness :
  findMatch "m1" (roomOf scoredMatch) = Some (0%nat, scoredMatch)
  ∧ scoredScore Innings1 scoredMatch = Some 180
  ∧ ∃ m', lockRoute (λ pin, pin) 20000 (roomOf scoredMatch) "m1" reopenInnings1
          = (ReplyOk, withMatches [m'] (roomOf scoredMatch))
          ∧ innings1 m' = Some (mkInnings locked (LockAt 1000) (Some 180))
          ∧ scoredScore Innings1 m' = None.
Proof.
  split; [reflexivity|]. split; [reflexivity|].
  destruct (lockRoute_scored_innings (λ pin, pin) 20000 (roomOf scoredMatch)
              "m1" reopenInnings1 0 scoredMatch
              (mkInnings scored (LockAt 1000) (Some 180)) 180
              eq_refl eq_refl eq_refl eq_refl eq_refl)
    as (m' & Hr & Hi & _ & _ & Hs & _).
  exists m'. split; [exact Hr|]. split; [exact Hi | exact Hs].
Defined.

(** X5 at the sample room with the first innings open and two predictions
    for it, scored 180.4: the score saved is 180 and [p1], who predicted
    180, is the winner stored. *)
Lemma scoreRoute_scores_witness :
  (scoreRoute (λ pin, pin) 2000 (roomOf openWithPredictions) "m1"
     (scoreInnings1 (902 # 5))).1 = ReplyOk
  ∧ ∃ m', matches (scoreRoute (λ pin, pin) 2000 (roomOf openWithPredictions)
                     "m1" (scoreInnings1 (902 # 5))).2 = [m']
          ∧ innings1 m' = Some (mkInnings scored (LockAt 1000) (Some 180))
          ∧ resultOf Innings1 m' = Some (mkResult ["p1"] (Some 0)).
Proof.
  split; [reflexivity|].
  destruct (scoreRoute_scores (λ pin, pin) 2000 (roomOf openWithPredictions)
              "m1" (scoreInnings1 (902 # 5)) _ eq_refl)
    as (ix & m0 & m' & q & i & r & Hf & Hd & Hq & _ & _ & Hi & Hi' & _ & _
        & Hc & Hr & _).
  injection Hf as <- <-. injection Hq as <-. injection Hi as <-.
  exists m'. split; [exact (f_equal matches Hd)|]. split; [exact Hi'|].
  refine (eq_trans Hr (eq_trans (eq_sym Hc) _)). reflexivity.
Defined.

(** X6 at the same room: the second innings is opened with the lock time
    fifteen minutes before its start. *)
Lemma scoreRoute_opens_innings2_witness :
  (scoreRoute (λ pin, pin) 2000 (roomOf openMatch) "m1"
     (scoreInnings1 (inject_Z 180))).1 = ReplyOk
  ∧ ∃ m', matches (scoreRoute (λ pin, pin) 2000 (roomOf openMatch) "m1"
                     (scoreInnings1 (inject_Z 180))).2 = [m']
          ∧ innings2 m' = Some (mkInnings open (LockAt 6300000) None).
Proof.
  split; [reflexivity|].
  destruct (scoreRoute_opens_innings2 (λ pin, pin) 2000 (roomOf openMatch) "m1"
              (scoreInnings1 (inject_Z 180)) _ eq_refl)
    as (ix & m0 & m' & i1 & i2 & Hf & Hd & H1 & H2 & _ & H).
  injection Hf as <- <-. injection H2 as <-.
  exists m'. split; [exact (f_equal matches Hd)|].
  destruct (H eq_refl) as (_ & _ & H3).
  destruct (H3 eq_refl) as (ms & Hms & ->); [done|].
  injection Hms as <-. reflexivity.
Defined.

(** X7 at the same room: the score 301 is out of range. *)
Lemma scoreRoute_refusals_witness :
  findMatch "m1" (roomOf openMatch) = Some (0%nat, openMatch)
  ∧ scoreRoute (λ pin, pin) 2000 (roomOf openMatch) "m1"
      (scoreInnings1 (inject_Z 301))
    = (ReplyScoreRange 60 300, roomOf openMatch).
Proof.
  split; [reflexivity|].
  destruct (scoreRoute_refusals (λ pin, pin) 2000 (roomOf openMatch) "m1"
              (scoreInnings1 (inject_Z 301)) 0 openMatch eq_refl eq_refl)
    as (_ & H & _).
  destruct (H (inject_Z 301) eq_refl) as [H' _].
  apply H'. right. reflexivity.
Defined.

(** X8 at the sample room with the first innings open and two predictions
    for it, scored 180: [p1] is in the winner set the scoreboard uses and
    has a prediction for the innings. *)
Lemma scoreRoute_result_consistent_witness :
  (scoreRoute (λ pin, pin) 2000 (roomOf openWithPredictions) "m1"
     (scoreInnings1 (inject_Z 180))).1 = ReplyOk
  ∧ ∃ m' sc,
      matches (scoreRoute (λ pin, pin) 2000 (roomOf openWithPredictions) "m1"
                 (scoreInnings1 (inject_Z 180))).2 !! 0%nat = Some m'
      ∧ scoredScore Innings1 m' = Some sc
      ∧ "p1" ∈ winnerSetFor (roomOf m') m' Innings1 sc
      ∧ ∃ p v, p ∈ samplePlayers ∧ id p = "p1"
               ∧ default ∅ (predictionsOf Innings1 m') !! "p1" = Some v.
Proof.
  split; [reflexivity|].
  destruct (scoreRoute_result_consistent (λ pin, pin) 2000
              (roomOf openWithPredictions) "m1" (scoreInnings1 (inject_Z 180))
              _ eq_refl)
    as (ix & m' & sc & Hl & Hs & _ & Hw).
  destruct ix as [|ix]; [|discriminate Hl].
  exists m', sc. split; [exact Hl|]. split; [exact Hs|].
  injection Hl as <-. injection Hs as <-.
  assert (Hin : "p1" ∈ winnerSetFor
                  (scoreRoute (λ pin, pin) 2000 (roomOf openWithPredictions)
                     "m1" (scoreInnings1 (inject_Z 180))).2
                  (withInnings
                     (Some (mkInnings scored (LockAt 1000) (Some 180)))
                     (Some (mkInnings open (LockAt 6300000) None))
                     (withResult
                        (Some {| r_innings1 := Some (mkResult ["p1"] (Some 0));
                                 r_innings2 := None |})
                        openWithPredictions))
                  Innings1 180).
  { apply elem_of_list_to_set. left. }
  split; [exact Hin|]. exact (Hw "p1" Hin).
Defined.

(** X9 at the same room: after the score, a prediction for the first
    innings is refused. *)
Lemma scoreRoute_closes_predictions_witness :
  (scoreRoute (λ pin, pin) 2000 (roomOf openMatch) "m1"
     (scoreInnings1 (inject_Z 180))).1 = ReplyOk
  ∧ (predict 500 500
       (scoreRoute (λ pin, pin) 2000 (roomOf openMatch) "m1"
          (scoreInnings1 (inject_Z 180))).2
       "m1" (sampleBody (inject_Z 181))).1 = InningsNotOpen.
Proof.
  split; [reflexivity|].
  destruct (scoreRoute_closes_predictions (λ pin, pin) 2000 500 500
              (roomOf openMatch) "m1" (scoreInnings1 (inject_Z 180))
              (sampleBody (inject_Z 181)) _ eq_refl eq_refl) as [H|H].
  - exfalso. revert H. vm_compute. discriminate.
  - exact (f_equal fst H).
Defined.

(** X10 at the sample room whose toss is not set: India bats first. *)
Lemma tossRoute_sets_toss_witness :
  findMatch "m1" (roomOf lockedNoTossMatch) = Some (0%nat, lockedNoTossMatch)
  ∧ ∃ m' bt,
      tossRoute (λ pin, pin) (roomOf lockedNoTossMatch) "m1" tossIndiaBat
      = (ReplyOk, withMatches [m'] (roomOf lockedNoTossMatch))
      ∧ getBattingTeams m' = Some bt
      ∧ bat_innings1 bt = "India" ∧ bat_innings2 bt = "Kenya".
Proof.
  split; [reflexivity|].
  destruct (tossRoute_sets_toss (λ pin, pin) (roomOf lockedNoTossMatch) "m1"
              tossIndiaBat 0 lockedNoTossMatch eq_refl eq_refl
              (or_introl eq_refl) (or_introl eq_refl))
    as (m' & Hr & _ & _ & _ & _ & _ & _ & Hb).
  destruct Hb as (bt & Hbt & H1 & _ & H3); [done|].
  exists m', bt. split; [exact Hr|]. split; [exact Hbt|].
  specialize (H1 eq_refl). split; [exact H1|].
  destruct H3 as [[_ H3]|[H3 _]]; [exact H3|].
  rewrite H1 in H3. discriminate H3.
Defined.

(** X11 at the same room: a winner that is neither team is refused. *)
Lemma tossRoute_refusals_witness :
  findMatch "m1" (roomOf lockedNoTossMatch) = Some (0%nat, lockedNoTossMatch)
  ∧ tossRoute (λ pin, pin) (roomOf lockedNoTossMatch) "m1"
      (mkTossBody None "Nepal" "bat")
    = (ReplyError 400 "Toss winner must be Team A or Team B.",
       roomOf lockedNoTossMatch).
Proof.
  split; [reflexivity|].
  destruct (tossRoute_refusals (λ pin, pin) (roomOf lockedNoTossMatch) "m1"
              (mkTossBody None "Nepal" "bat") 0 lockedNoTossMatch
              eq_refl eq_refl) as [H _].
  apply H; discriminate.
Defined.

(** X12 at the same room: once the toss is set the answer is no longer the
    one of a missing toss. *)
Lemma tossRoute_unblocks_predictions_witness :
  (tossRoute (λ pin, pin) (roomOf lockedNoTossMatch) "m1" tossIndiaBat).1
  = ReplyOk
  ∧ (predict 500 500
       (tossRoute (λ pin, pin) (roomOf lockedNoTossMatch) "m1" tossIndiaBat).2
       "m1" (sampleBody (inject_Z 181))).1 ≠ TossNotSet.
Proof.
  split; [reflexivity|].
  apply (tossRoute_unblocks_predictions (λ pin, pin) 500 500
           (roomOf lockedNoTossMatch) "m1" tossIndiaBat
           (sampleBody (inject_Z 181)) _ eq_refl).
  discriminate.
Defined.

(** X13 at the sample room with both innings scored: the reopening of the
    whole match drops both results. *)
Lemma reopen_whole_match_witness :
  findMatch "m1" (roomOf scoredMatch) = Some (0%nat, scoredMatch)
  ∧ ∃ m', reopen (λ pin, pin) 20000 (roomOf scoredMatch) "m1" reopenAll
          = (Ok, withMatches [m'] (roomOf scoredMatch))
          ∧ innings1 m' = Some (mkInnings open (LockAt 1000) None)
          ∧ innings2 m' = Some (mkInnings pending LockAbsent None)
          ∧ result m' = None.
Proof.
  split; [reflexivity|].
  destruct (reopen_whole_match (λ pin, pin) 20000 500 500 (roomOf scoredMatch)
              "m1" reopenAll (sampleBody (inject_Z 181)) 0 scoredMatch
              eq_refl eq_refl)
    as (m' & i1 & Hr & Hi & H1 & H2 & H3 & _); [discriminate..|].
  injection Hi as <-. exists m'.
  split; [exact Hr|]. split; [exact H1|]. split; [exact H2 | exact H3].
Defined.

(** X14 at the sample room with both innings scored: the first innings,
    reopened at time 20000, keeps the lock time 1000, and a prediction sent
    at time 20000 is refused. *)
Lemma reopen_keeps_lock_time_witness :
  findMatch "m1" (roomOf scoredMatch) = Some (0%nat, scoredMatch)
  ∧ (reopen (λ pin, pin) 20000 (roomOf scoredMatch) "m1" reopenInnings1).1 = Ok
  ∧ (predict 20000 20000
       (reopen (λ pin, pin) 20000 (roomOf scoredMatch) "m1" reopenInnings1).2
       "m1" (sampleBody (inject_Z 181))).1 = InningsNotOpen.
Proof.
  split; [reflexivity|].
  destruct (reopen_keeps_lock_time (λ pin, pin) 20000 20000 20000
              (roomOf scoredMatch) "m1" reopenInnings1
              (sampleBody (inject_Z 181)) 0 scoredMatch
              (mkInnings scored (LockAt 1000) (Some 180)) 1000
              eq_refl eq_refl (or_introl eq_refl) eq_refl eq_refl
              ltac:(lia) eq_refl) as (Hok & _ & [H|H]).
  - exfalso. revert H. vm_compute. discriminate.
  - split; [exact Hok|]. by rewrite H.
Defined.

(** X15 at a room that uses a PIN: the PIN [0000] is refused by the lock
    route and by the route that creates a match. *)
Lemma admin_routes_guarded_witness :
  ensureAdmin sampleHash (pinRoom openMatch) (Some "0000") = false
  ∧ ensureAdmin sampleHash (pinRoom openMatch) (Some "1234") = true
  ∧ lockRoute sampleHash 500 (pinRoom openMatch) "m1"
      {| adminPin := Some "0000"; rb_innings := Some 1 |}
    = (ReplyError 403 "Invalid admin PIN.", pinRoom openMatch)
  ∧ createMatchRoute sampleHash "m9" (pinRoom openMatch)
      (mkCreateBody (Some "0000") "Nepal" "Oman" LockAbsent LockAbsent)
    = (ReplyError 403 "Invalid admin PIN.", pinRoom openMatch).
Proof.
  split; [reflexivity|]. split; [reflexivity|].
  destruct (admin_routes_guarded sampleHash 500 (pinRoom openMatch) "m1" "m9"
              (Some "0000")
              {| adminPin := Some "0000"; rb_innings := Some 1 |}
              (mkTossBody (Some "0000") "India" "bat")
              (mkScoreBody (Some "0000") (Some 1) (Fin (inject_Z 180)) LockAbsent)
              (mkCreateBody (Some "0000") "Nepal" "Oman" LockAbsent LockAbsent)
              eq_refl eq_refl eq_refl eq_refl eq_refl)
    as (_ & _ & Hl & _ & _ & _ & Hc).
  split; [exact Hl | exact Hc].
Defined.

(** X16 at the sample room: the created match is the second of the room and
    a prediction for it waits for the toss. *)
Lemma createMatchRoute_adds_match_witness :
  (createMatchRoute (λ pin, pin) "m9" (roomOf scoredMatch) createNepalOman).1
  = ReplyOk
  ∧ ∃ m' data',
      findMatch "m9" data' = Some (1%nat, m')
      ∧ createMatchRoute (λ pin, pin) "m9" (roomOf scoredMatch) createNepalOman
        = (ReplyOk, data')
      ∧ predict 500 500 data' "m9" (sampleBody (inject_Z 181))
        = (TossNotSet, data')
      ∧ buildScoreboard codeUnitCompare data'
        = buildScoreboard codeUnitCompare (roomOf scoredMatch).
Proof.
  split; [reflexivity|].
  destruct (createMatchRoute_adds_match (λ pin, pin) codeUnitCompare "m9"
              (roomOf scoredMatch) _ createNepalOman eq_refl)
    as (m' & Hd & Hf & _ & _ & _ & _ & Hp & Hb).
  { intros m0 Hm0. apply list_elem_of_singleton in Hm0 as ->. discriminate. }
  eexists m', _. split; [exact Hf|]. split; [reflexivity|].
  split; [apply Hp | exact Hb].
Defined.

(** X17 at the sample room: the match starts at 3600000 and fifteen
    minutes are 900000. *)
Lemma createMatchRoute_lock_time_witness :
  ensureAdmin (λ pin, pin) (roomOf scoredMatch) (c_adminPin createNepalOman)
  = true
  ∧ ∃ m', last (matches (createMatchRoute (λ pin, pin) "m9"
                           (roomOf scoredMatch) createNepalOman).2) = Some m'
          ∧ innings1 m' = Some (mkInnings open (LockAt 2700000) None).
Proof.
  split; [reflexivity|].
  destruct (createMatchRoute_lock_time (λ pin, pin) "m9" (roomOf scoredMatch)
              createNepalOman eq_refl) as (_ & _ & H); [discriminate..|].
  destruct (H eq_refl) as (m' & i1 & Hl & Hi & _ & Ht & _).
  exists m'. split; [exact Hl|].
  injection Hl as <-. injection Hi as <-. reflexivity.
Defined.

(** X19 at the sample room with the first innings open until 1000: a
    request at time 500 followed by one at time 2000. *)
Lemma stateRoute_twice_witness :
  500 ≤ 2000
  ∧ stateRoute codeUnitCompare 2000
      (stateRoute codeUnitCompare 500 (roomOf openMatch)).2
    = stateRoute codeUnitCompare 2000 (roomOf openMatch).
Proof.
  split; [lia|].
  apply (stateRoute_twice codeUnitCompare 500 2000 (roomOf openMatch)). lia.
Defined.

(** X20 at the sample room with the first innings scored and two
    predictions for it: the prediction of [p3] for the second innings is
    stored. *)
Lemma predict_keeps_predictions_by_players_witness :
  predictionsByPlayers (roomOf firstInningsScored)
  ∧ (predict 500 500 (roomOf firstInningsScored) "m2" predictInnings2).1 = Ok
  ∧ predictionsByPlayers
      (predict 500 500 (roomOf firstInningsScored) "m2" predictInnings2).2.
Proof.
  assert (H : predictionsByPlayers (roomOf firstInningsScored)).
  { intros m k pid v Hm. apply list_elem_of_singleton in Hm as ->.
    destruct k; cbn.
    - intros Hv. apply lookup_insert_Some in Hv as [[<- _]|[_ Hv]].
      + exists (mkPlayer "p1" "Asha"). split; [left|done].
      + apply lookup_insert_Some in Hv as [[<- _]|[_ Hv]]; [|done].
        exists (mkPlayer "p2" "Bilal"). split; [right; left|done].
    - intros Hv. done. }
  split; [exact H|]. split; [reflexivity|].
  exact (predict_keeps_predictions_by_players 500 500 (roomOf firstInningsScored)
           "m2" predictInnings2 H).
Defined.

(** X22 at the sample room with the first innings open until 1000: locked
    at time 1000, it is locked at time 2000. *)
Lemma isInningsLocked_monotone_witness :
  1000 ≤ 2000
  ∧ isInningsLocked 1000 (innings1 openMatch) = true
  ∧ isInningsLocked 2000 (innings1 openMatch) = true.
Proof.
  split; [lia|]. split; [reflexivity|].
  apply (isInningsLocked_monotone 1000 2000 sampleSettings openMatch
           (innings1 openMatch)); [lia | reflexivity].
Defined.

(** X23 at the sample room with both innings scored. *)
Lemma buildScoreboard_rows_witness :
  NoDup (id <$> players (roomOf scoredMatch))
  ∧ (playerId <$> (stat <$> buildScoreboard codeUnitCompare (roomOf scoredMatch)))
    ≡ₚ ["p1"; "p2"; "p3"]
  ∧ ∀ row : Row, row ∈ buildScoreboard codeUnitCompare (roomOf scoredMatch) →
      wins row ≤ s_predictions row ≤ 2.
Proof.
  assert (Hnd : NoDup (id <$> players (roomOf scoredMatch))).
  { apply (bool_decide_unpack (NoDup (id <$> players (roomOf scoredMatch)))).
    vm_compute. exact I. }
  split; [exact Hnd|].
  destruct (buildScoreboard_rows codeUnitCompare (roomOf scoredMatch) Hnd)
    as [Hp Hrows].
  split; [exact Hp|].
  intros row Hin. destruct (Hrows row Hin) as (_ & Hs & Hn).
  unfold soundRow in Hs. destruct Hs as (_ & _ & Hw & _).
  split; [apply Hw | exact Hn].
Defined.

(** X24 on a text of the feed. *)
Lemma parseTossText_sound_witness :
  parseTossText asciiLower (Some "Kenya won the toss and elected to bowl")
    (teamA openMatch) (teamB openMatch)
  = Some (mkToss (Some "Kenya") (Some "field"))
  ∧ ∃ bt, getBattingTeams
            (withToss (Some (mkToss (Some "Kenya") (Some "field"))) openMatch)
          = Some bt
          ∧ bat_innings2 bt = "Kenya".
Proof.
  split; [reflexivity|].
  destruct (parseTossText_sound asciiLower
              (Some "Kenya won the toss and elected to bowl") openMatch
              (mkToss (Some "Kenya") (Some "field")) eq_refl)
    as (s & w & d & _ & Ht & _ & _ & _ & _ & bt & Hbt & _ & Hf & _).
  injection Ht as <- <-. exists bt. split; [exact Hbt | exact (Hf eq_refl)].
Defined.

(** X25 on a text that names both teams: team A is read as the winner
    although the text says that Kenya won the toss. *)
Lemma parseTossText_preference_witness :
  parseTossText asciiLower
    (Some "Kenya won the toss and elected to bowl against India")
    "India" "Kenya"
  = Some (mkToss (Some "India") (Some "field")).
Proof.
  refine (proj1 (parseTossText_preference asciiLower
                   "Kenya won the toss and elected to bowl against India"
                   "India" "Kenya" _) _ _ _);
    [discriminate | discriminate | reflexivity | reflexivity].
Defined.

(** X26 on a setup request with four names, the PIN sent as [ 1234] with a
    space before it, no minimum and the lock minutes sent as the string
    ["0"]: the minimum is 60, the lock minutes are 0, and in a room with the
    stored hash the PIN [1234] passes the admin check while the PIN as it
    was sent does not. *)
Lemma setupRoute_sound_witness :
  ∃ room,
    setupRoute trimSpaces sampleHash playerIdOf setupFour = (ReplyOk, Some room)
    ∧ name <$> nr_players room = ["Asha"; "Bilal"; "Chen"; "Dina"]
    ∧ rs_minScore (nr_settings room) = Fin (inject_Z 60)
    ∧ rs_lockMinutesBeforeStart (nr_settings room) = Fin (inject_Z 0)
    ∧ rs_adminPinHash (nr_settings room) = adminPinHash pinSettings
    ∧ ensureAdmin sampleHash (pinRoom openMatch) (Some "1234") = true
    ∧ ensureAdmin sampleHash (pinRoom openMatch) (Some " 1234") = false.
Proof.
  eexists. split; [reflexivity|].
  destruct (setupRoute_sound trimSpaces sampleHash playerIdOf setupFour _
              eq_refl)
    as (_ & Hn & _ & _ & Hpin & _ & Ha & Hmin & _ & _ & Hlock & _).
  split; [exact Hn|]. split; [exact (Hmin eq_refl)|].
  split; [exact (Hlock eq_refl)|].
  split; [exact (proj2 (Hpin eq_refl))|].
  split; [|reflexivity].
  apply (Ha (pinRoom openMatch) (Some "1234") eq_refl eq_refl).
  right. exists "1234". by split_and!.
Defined.

(** X27 at the sample room with the first innings open: locked at time 400
    and reopened at time 500, the match is the normalized one again. *)
Lemma lock_then_reopen_witness :
  findMatch "m1" (roomOf openMatch) = Some (0%nat, openMatch)
  ∧ reopen (λ pin, pin) 500
      (lockRoute (λ pin, pin) 400 (roomOf openMatch) "m1" reopenInnings1).2
      "m1" reopenInnings1
    = (Ok, roomOf openMatch).
Proof.
  split; [reflexivity|].
  destruct (lock_then_reopen (λ pin, pin) 400 500 (roomOf openMatch) "m1"
              reopenInnings1 0 openMatch (mkInnings open (LockAt 1000) None)
              eq_refl eq_refl (or_introl eq_refl) eq_refl eq_refl eq_refl
              eq_refl ltac:(lia)) as [H _].
  rewrite H. reflexivity.
Defined.

(** X29 at the room of the match with both innings scored: its stored
    winners [p1] and [p2] have predicted, and so have those of the room
    saved when the second innings is scored again, 160 this time, which
    makes [p1] the winner of it. *)
Lemma routes_keep_winners_predicted_witness :
  winnersPredicted (roomOf scoredMatch)
  ∧ (scoreRoute (λ pin, pin) 20000 (roomOf scoredMatch) "m1"
       (scoreInnings2 (inject_Z 160))).1 = ReplyOk
  ∧ (resultOf Innings2
       <$> matches (scoreRoute (λ pin, pin) 20000 (roomOf scoredMatch) "m1"
                      (scoreInnings2 (inject_Z 160))).2)
    = [Some (mkResult ["p1"] (Some 0))]
  ∧ winnersPredicted
      (scoreRoute (λ pin, pin) 20000 (roomOf scoredMatch) "m1"
         (scoreInnings2 (inject_Z 160))).2.
Proof.
  assert (H : winnersPredicted (roomOf scoredMatch)).
  { intros m Hm k r pid Hr Hin.
    apply list_elem_of_singleton in Hm as ->.
    destruct k; injection Hr as <-;
      apply list_elem_of_singleton in Hin as ->; by eexists. }
  split; [exact H|]. split; [reflexivity|]. split; [reflexivity|].
  destruct (routes_keep_winners_predicted (λ pin, pin) 20000 20000
              (roomOf scoredMatch) "m1" "m9" (sampleBody (inject_Z 170))
              reopenInnings1 tossIndiaBat (scoreInnings2 (inject_Z 160))
              createNepalOman H)
    as (_ & _ & _ & _ & _ & Hs & _).
  exact Hs.
Defined.
